(** * The GSK path stroker (gsk/gskpathstroke.c)

    A shallow embedding of the stroker: the turn classifier, the join and
    cap synthesizer, the adaptive subdivider, the stroke orchestrator and
    the driver.

    Numbers.  The C code computes in [float] and [double]; here both are
    the real numbers of the Standard Library: arithmetic is exact, there is
    no rounding, no overflow and no NaN.  The functions of the C math
    library ([atan2], [sin], [cos], [acos], [sqrt], [fabs]) are the real
    functions of the same name.  The one place where the storage decides
    the result, the comparison of the [float] angle with the [double]
    [M_PI] in [angle_between], is given a second time with its storage,
    as [angle_between_float]. *)

From Stdlib Require Import Reals Lra Lia ZArith List Bool Sorted Machin.
Import ListNotations.

Open Scope R_scope.

(** ** Comparisons as C conditions *)

Definition Rltb (x y : R) : bool := if Rlt_dec x y then true else false.
Definition Rleb (x y : R) : bool := if Rle_dec x y then true else false.

(** [atan2 y x] of the C math library: the argument of the point (x, y),
    in (-PI, PI], and 0 at the origin. *)
Definition atan2 (y x : R) : R :=
  if Rlt_dec 0 x then atan (y / x)
  else if Rlt_dec x 0 then
         if Rle_dec 0 y then atan (y / x) + PI else atan (y / x) - PI
       else if Rlt_dec 0 y then PI / 2
            else if Rlt_dec y 0 then - (PI / 2)
                 else 0.

Definition M_PI : R := PI.
Definition RAD_TO_DEG (r : R) : R := r * 180 / M_PI.
Definition DEG_TO_RAD (d : R) : R := d * M_PI / 180.

(** ** Graphene points and vectors

    Graphene is a library of its own; its types and functions are modelled
    by what they compute. *)

Record graphene_point_t : Type := GRAPHENE_POINT_INIT { px : R; py : R }.
Record graphene_vec2_t : Type := graphene_vec2_init { vx : R; vy : R }.

Definition graphene_vec2_length (v : graphene_vec2_t) : R :=
  sqrt (vx v * vx v + vy v * vy v).

(** The vector divided by its length.  Division by 0 is 0 in the reals
    of the Standard Library, so the zero vector stays the zero vector. *)
Definition graphene_vec2_normalize (v : graphene_vec2_t) : graphene_vec2_t :=
  graphene_vec2_init (vx v / graphene_vec2_length v)
                     (vy v / graphene_vec2_length v).

Definition graphene_vec2_dot (a b : graphene_vec2_t) : R :=
  vx a * vx b + vy a * vy b.

(** [graphene_point_near]: both coordinates differ by less than epsilon. *)
Definition graphene_point_near (a b : graphene_point_t) (epsilon : R) : bool :=
  Rltb (Rabs (px a - px b)) epsilon && Rltb (Rabs (py a - py b)) epsilon.

(** ** graphene utilities of the stroker *)

Definition get_tangent (p0 p1 : graphene_point_t) : graphene_vec2_t :=
  graphene_vec2_normalize (graphene_vec2_init (px p1 - px p0) (py p1 - py p0)).

Definition get_normal (p0 p1 : graphene_point_t) : graphene_vec2_t :=
  graphene_vec2_normalize (graphene_vec2_init (py p0 - py p1) (px p1 - px p0)).

(** The angle between [t1] and [t2] in radians, 0 for a straight
    continuation.  The comment of the C function calls a negative angle a
    right turn; [add_segments] below, which is what acts on the sign,
    takes a positive angle for the right turn.

    This is the function in exact arithmetic, as the stroker is read
    throughout.  The C function stores the difference in a [float] before
    it compares it with the [double] [M_PI]: [angle_between_float] below
    has that storage.  The two differ at an exact half turn, where the
    difference here is PI or -PI and is returned, while the stored one
    lies outside [M_PI] and is wrapped. *)
Definition angle_between (t1 t2 : graphene_vec2_t) : R :=
  let angle := atan2 (vy t2) (vx t2) - atan2 (vy t1) (vx t1) in
  let angle := if Rltb M_PI angle then angle - 2 * M_PI else angle in
  let angle := if Rltb angle (- M_PI) then angle + 2 * M_PI else angle in
  angle.

(** ** Stored values

    Where a value is stored in a [float] or a [double], the C code rounds
    it to the nearest value of the binary32 or binary64 format, ties to the
    even significand.  Overflow is left out: no value below is as large as
    8. *)

Definition Zfloor (x : R) : Z := (up x - 1)%Z.

(** The nearest integer, the even one of two that are equally near. *)
Definition Znearest_even (x : R) : Z :=
  let n := Zfloor x in
  let d := x - IZR n in
  if Rltb d (1 / 2) then n
  else if Rltb (1 / 2) d then (n + 1)%Z
  else if Z.even n then n else (n + 1)%Z.

(** The binade of [x]: the [e] with 2^e <= |x| < 2^(e+1). *)
Definition binade (x : R) : Z := Zfloor (ln (Rabs x) / ln 2).

(** Rounding to the format with [prec] significant bits whose least
    values are the multiples of 2^[emin]. *)
Definition round_binary (prec emin : Z) (x : R) : R :=
  let e := Z.max (binade x - (prec - 1)) emin in
  IZR (Znearest_even (x * powerRZ 2 (- e))) * powerRZ 2 e.

Definition to_float (x : R) : R := round_binary 24 (-149) x.
Definition to_double (x : R) : R := round_binary 53 (-1074) x.

(** The constant [M_PI] of math.h as the C compiler stores it: the
    binary64 value nearest to PI, 0x400921FB54442D18. *)
Definition M_PI_double : R := 884279719003555 / 281474976710656.

(** [angle_between] with its storage: [atan2] returns a [double], taken as
    correctly rounded; the difference of the two is computed in [double]
    and stored in the [float angle]; both comparisons are made in [double]
    against [M_PI]; [angle -= 2 * M_PI] and [angle += 2 * M_PI] compute in
    [double] and store in the [float] again. *)
Definition angle_between_float (t1 t2 : graphene_vec2_t) : R :=
  let angle :=
    to_float (to_double (to_double (atan2 (vy t2) (vx t2))
                         - to_double (atan2 (vy t1) (vx t1)))) in
  let angle :=
    if Rltb M_PI_double angle
    then to_float (to_double (angle - 2 * M_PI_double)) else angle in
  let angle :=
    if Rltb angle (- M_PI_double)
    then to_float (to_double (angle + 2 * M_PI_double)) else angle in
  angle.

(** [line_intersect a ab c cd p]: the C function returns 1 and stores the
    intersection in [*p], or returns 0 and leaves [*p] as it was; the model
    returns the flag and the contents of [*p] afterwards. *)
Definition line_intersect (a : graphene_point_t) (ab : graphene_vec2_t)
                          (c : graphene_point_t) (cd : graphene_vec2_t)
                          (p : graphene_point_t) : bool * graphene_point_t :=
  let a1 := vy ab in
  let b1 := - vx ab in
  let c1 := a1 * px a + b1 * py a in
  let a2 := vy cd in
  let b2 := - vx cd in
  let c2 := a2 * px c + b2 * py c in
  let det := a1 * b2 - a2 * b1 in
  if Rleb (Rabs det) (1 / 1000) then (false, p)
  else (true, GRAPHENE_POINT_INIT ((b2 * c1 - b1 * c2) / det)
                                  ((a1 * c2 - a2 * c1) / det)).

(** ** Curves (gskcurveprivate.h, gskcurve.c) *)

(** Modelled from the spec: the type of curves, which gskcurveprivate.h
    declares; a curve is a tagged value with three variants, and a cubic
    has four control points. *)
Record GskCurveCurve : Type := mk_cubic {
  cubic_p0 : graphene_point_t;
  cubic_p1 : graphene_point_t;
  cubic_p2 : graphene_point_t;
  cubic_p3 : graphene_point_t
}.

(** Modelled from the spec: a conic has three points and a weight.  The
    weight is kept in [points[2].x] and the end point in [points[3]], which
    is how [path_builder_add_curve] and [conic_is_simple] read them. *)
Record GskConicCurve : Type := mk_conic {
  conic_p0 : graphene_point_t;
  conic_p1 : graphene_point_t;
  conic_weight : R;
  conic_p3 : graphene_point_t
}.

(** Modelled from the spec: the tagged union [GskCurve]. *)
Inductive GskCurve : Type :=
| GSK_LINE (p0 p1 : graphene_point_t)
| GSK_CURVE (cubic : GskCurveCurve)
| GSK_CONIC (conic : GskConicCurve).

(** Modelled from the spec: [gsk_curve_get_start_point], the first control
    point of a curve. *)
Definition gsk_curve_get_start_point (curve : GskCurve) : graphene_point_t :=
  match curve with
  | GSK_LINE p0 _ => p0
  | GSK_CURVE k => cubic_p0 k
  | GSK_CONIC k => conic_p0 k
  end.

(** Modelled from the spec: [gsk_curve_get_end_point], the last control
    point of a curve. *)
Definition gsk_curve_get_end_point (curve : GskCurve) : graphene_point_t :=
  match curve with
  | GSK_LINE _ p1 => p1
  | GSK_CURVE k => cubic_p3 k
  | GSK_CONIC k => conic_p3 k
  end.

(** Modelled from the spec: [gsk_curve_reverse] returns the curve
    traversed backwards, that is, with its control points in the opposite
    order (and the same weight). *)
Definition gsk_curve_reverse (curve : GskCurve) : GskCurve :=
  match curve with
  | GSK_LINE p0 p1 => GSK_LINE p1 p0
  | GSK_CURVE k =>
      GSK_CURVE (mk_cubic (cubic_p3 k) (cubic_p2 k) (cubic_p1 k) (cubic_p0 k))
  | GSK_CONIC k =>
      GSK_CONIC (mk_conic (conic_p3 k) (conic_p1 k) (conic_weight k) (conic_p0 k))
  end.

(** The point [a + t (b - a)]. *)
Definition lerp_point (t : R) (a b : graphene_point_t) : graphene_point_t :=
  GRAPHENE_POINT_INIT (px a + t * (px b - px a)) (py a + t * (py b - py a)).

(** Modelled from the spec: the split of a line at [t], by linear
    interpolation; both parts are lines and their concatenation is the
    original. *)
Definition gsk_line_curve_split (p0 p1 : graphene_point_t) (t : R)
  : GskCurve * GskCurve :=
  let m := lerp_point t p0 p1 in (GSK_LINE p0 m, GSK_LINE m p1).

(** Modelled from the spec: the split of a cubic at [t], by de Casteljau's
    construction; both parts are cubics and their concatenation is the
    original. *)
Definition gsk_curve_curve_split (k : GskCurveCurve) (t : R)
  : GskCurveCurve * GskCurveCurve :=
  let p01 := lerp_point t (cubic_p0 k) (cubic_p1 k) in
  let p12 := lerp_point t (cubic_p1 k) (cubic_p2 k) in
  let p23 := lerp_point t (cubic_p2 k) (cubic_p3 k) in
  let p012 := lerp_point t p01 p12 in
  let p123 := lerp_point t p12 p23 in
  let p0123 := lerp_point t p012 p123 in
  (mk_cubic (cubic_p0 k) p01 p012 p0123, mk_cubic p0123 p123 p23 (cubic_p3 k)).

(** The point [p + t n]. *)
Definition scale_point (p : graphene_point_t) (n : graphene_vec2_t) (t : R)
  : graphene_point_t :=
  GRAPHENE_POINT_INIT (px p + t * vx n) (py p + t * vy n).

(** Modelled from the spec: [gsk_curve_offset] for a line displaces both
    end points by the distance along the unit normal of the line. *)
Definition gsk_line_curve_offset (p0 p1 : graphene_point_t) (distance : R)
  : GskCurve :=
  let n := get_normal p0 p1 in
  GSK_LINE (scale_point p0 n distance) (scale_point p1 n distance).

(** ** The output sink and paths (gskpathbuilder.h, gskpathprivate.h) *)

(** Modelled from the spec: the calls that a [GskPathBuilder] accepts. *)
Inductive GskPathBuilderCall : Type :=
| move_to (x y : R)
| line_to (x y : R)
| curve_to (x1 y1 x2 y2 x3 y3 : R)
| conic_to (x1 y1 x2 y2 weight : R)
| svg_arc_to (rx ry x_axis_rotation : R) (large_arc positive_sweep : bool)
             (x y : R)
| close.

(** Modelled from the spec: a [GskPathBuilder] is the sequence of the calls
    it received, in order. *)
Definition GskPathBuilder : Type := list GskPathBuilderCall.

(** Modelled from the spec: a [GskPath] is the sequence of calls it was
    built from. *)
Definition GskPath : Type := list GskPathBuilderCall.

(** Modelled from the spec: [gsk_path_builder_new], a builder that has
    received nothing. *)
Definition gsk_path_builder_new : GskPathBuilder := [].

(** Modelled from the spec: [gsk_path_builder_free_to_path], the path of
    the calls received. *)
Definition gsk_path_builder_free_to_path (b : GskPathBuilder) : GskPath := b.

(** Modelled from the spec: [gsk_path_builder_move_to] and the other calls
    below record themselves at the end of the builder. *)
Definition gsk_path_builder_move_to (b : GskPathBuilder) (x y : R) :=
  b ++ [move_to x y].

(** Modelled from the spec: [gsk_path_builder_line_to]. *)
Definition gsk_path_builder_line_to (b : GskPathBuilder) (x y : R) :=
  b ++ [line_to x y].

(** Modelled from the spec: [gsk_path_builder_curve_to]. *)
Definition gsk_path_builder_curve_to (b : GskPathBuilder)
           (x1 y1 x2 y2 x3 y3 : R) :=
  b ++ [curve_to x1 y1 x2 y2 x3 y3].

(** Modelled from the spec: [gsk_path_builder_conic_to]. *)
Definition gsk_path_builder_conic_to (b : GskPathBuilder)
           (x1 y1 x2 y2 weight : R) :=
  b ++ [conic_to x1 y1 x2 y2 weight].

(** Modelled from the spec: [gsk_path_builder_svg_arc_to]. *)
Definition gsk_path_builder_svg_arc_to (b : GskPathBuilder)
           (rx ry x_axis_rotation : R) (large_arc positive_sweep : bool)
           (x y : R) :=
  b ++ [svg_arc_to rx ry x_axis_rotation large_arc positive_sweep x y].

(** Modelled from the spec: [gsk_path_builder_close]. *)
Definition gsk_path_builder_close (b : GskPathBuilder) := b ++ [close].

(** Modelled from the spec: the builder that collects the stroke.  The
    stroker only ever hands it whole sub-paths, through
    [gsk_path_builder_add_path]: it is the sequence of the sub-paths
    deposited so far. *)
Definition GskPathSink : Type := list GskPath.

(** Modelled from the spec: [gsk_path_builder_add_path] appends a prebuilt
    sub-path. *)
Definition gsk_path_builder_add_path (sink : GskPathSink) (path : GskPath)
  : GskPathSink := sink ++ [path].

(** A sub-path is closed when [close] was the last call made on it. *)
Definition path_is_closed (path : GskPath) : Prop :=
  exists body, path = body ++ [close].

(** Modelled from the spec: the events of the input segment stream, that
    is, the arguments with which [gsk_path_foreach], [gsk_contour_foreach]
    and [gsk_contour_dash] call their callback. *)
Inductive GskPathEvent : Type :=
| GSK_PATH_MOVE (point : graphene_point_t)
| GSK_PATH_CLOSE (last_point start_point : graphene_point_t)
| GSK_PATH_LINE (p0 p1 : graphene_point_t)
| GSK_PATH_CURVE (cubic : GskCurveCurve)
| GSK_PATH_CONIC (conic : GskConicCurve).

Definition is_move (ev : GskPathEvent) : bool :=
  match ev with GSK_PATH_MOVE _ => true | _ => false end.

(** Modelled from the spec: [gsk_curve_init_foreach] makes the curve of an
    event; the closing segment of CLOSE is the line from the last point to
    the start point, and MOVE has no curve. *)
Definition gsk_curve_init_foreach (ev : GskPathEvent) : option GskCurve :=
  match ev with
  | GSK_PATH_MOVE _ => None
  | GSK_PATH_CLOSE p0 p1 => Some (GSK_LINE p0 p1)
  | GSK_PATH_LINE p0 p1 => Some (GSK_LINE p0 p1)
  | GSK_PATH_CURVE k => Some (GSK_CURVE k)
  | GSK_PATH_CONIC k => Some (GSK_CONIC k)
  end.

Definition event_of_curve (curve : GskCurve) : GskPathEvent :=
  match curve with
  | GSK_LINE p0 p1 => GSK_PATH_LINE p0 p1
  | GSK_CURVE k => GSK_PATH_CURVE k
  | GSK_CONIC k => GSK_PATH_CONIC k
  end.

(** ** Stroke parameters (gskstrokeprivate.h) *)

(** Modelled from the spec: the join styles. *)
Inductive GskLineJoin : Type :=
| GSK_LINE_JOIN_MITER
| GSK_LINE_JOIN_MITER_CLIP
| GSK_LINE_JOIN_ROUND
| GSK_LINE_JOIN_BEVEL.

(** Modelled from the spec: the cap styles. *)
Inductive GskLineCap : Type :=
| GSK_LINE_CAP_BUTT
| GSK_LINE_CAP_ROUND
| GSK_LINE_CAP_SQUARE.

(** Modelled from the spec: the stroke parameters; [dash_length] is the
    length of the dash pattern, 0 when there is none. *)
Record GskStroke : Type := mk_stroke {
  line_width : R;
  line_cap : GskLineCap;
  line_join : GskLineJoin;
  miter_limit : R;
  dash : list R;
  dash_length : R;
  dash_offset : R
}.

(** ** What the specification leaves open *)

(** The operations of the curve primitive, of the builder and of the dash
    generator that the specification describes by their contract only.
    The stroker takes them as a parameter. *)
Record GskCurveLib : Type := mk_lib {
  (** offset of a cubic and of a conic, of the same variant *)
  gsk_curve_curve_offset : GskCurveCurve -> R -> GskCurveCurve;
  gsk_conic_curve_offset : GskConicCurve -> R -> GskConicCurve;
  (** split of a conic *)
  gsk_conic_curve_split : GskConicCurve -> R -> GskConicCurve * GskConicCurve;
  (** the part of a cubic between two parameters *)
  gsk_curve_curve_segment : GskCurveCurve -> R -> R -> GskCurveCurve;
  (** unit tangents of cubics and conics, with their fallbacks *)
  gsk_curve_curve_get_start_tangent : GskCurveCurve -> graphene_vec2_t;
  gsk_curve_curve_get_end_tangent : GskCurveCurve -> graphene_vec2_t;
  gsk_conic_curve_get_start_tangent : GskConicCurve -> graphene_vec2_t;
  gsk_conic_curve_get_end_tangent : GskConicCurve -> graphene_vec2_t;
  (** [gsk_curve_intersect c1 c2 &t1 &t2 &p 1]: the first crossing, if the
      count returned is positive *)
  gsk_curve_intersect :
    GskCurve -> GskCurve -> option (R * R * graphene_point_t);
  (** the segments a builder turns an [svg_arc_to] into, from the current
      point *)
  svg_arc_segments :
    graphene_point_t -> R -> R -> R -> bool -> bool -> graphene_point_t ->
    list GskCurve;
  (** the events of the dashed walk of a contour *)
  gsk_contour_dash : list GskPathEvent -> GskStroke -> list GskPathEvent;
  (** the contents of a local variable that was never assigned *)
  indeterminate_point : graphene_point_t
}.

Section Stroker.

Variable lib : GskCurveLib.

(** ** The curve primitive, by variant *)

(** Modelled from the spec: [gsk_curve_offset] dispatches on the tag and
    returns a curve of the same variant. *)
Definition gsk_curve_offset (curve : GskCurve) (distance : R) : GskCurve :=
  match curve with
  | GSK_LINE p0 p1 => gsk_line_curve_offset p0 p1 distance
  | GSK_CURVE k => GSK_CURVE (gsk_curve_curve_offset lib k distance)
  | GSK_CONIC k => GSK_CONIC (gsk_conic_curve_offset lib k distance)
  end.

(** Modelled from the spec: [gsk_curve_split] dispatches on the tag and
    returns two curves of the same variant. *)
Definition gsk_curve_split (curve : GskCurve) (t : R) : GskCurve * GskCurve :=
  match curve with
  | GSK_LINE p0 p1 => gsk_line_curve_split p0 p1 t
  | GSK_CURVE k =>
      let (k1, k2) := gsk_curve_curve_split k t in (GSK_CURVE k1, GSK_CURVE k2)
  | GSK_CONIC k =>
      let (k1, k2) := gsk_conic_curve_split lib k t in
      (GSK_CONIC k1, GSK_CONIC k2)
  end.

(** Modelled from the spec: [gsk_curve_get_start_tangent]; for a line, the
    unit vector from its start to its end point. *)
Definition gsk_curve_get_start_tangent (curve : GskCurve) : graphene_vec2_t :=
  match curve with
  | GSK_LINE p0 p1 => get_tangent p0 p1
  | GSK_CURVE k => gsk_curve_curve_get_start_tangent lib k
  | GSK_CONIC k => gsk_conic_curve_get_start_tangent lib k
  end.

(** Modelled from the spec: [gsk_curve_get_end_tangent]; for a line, the
    unit vector from its start to its end point. *)
Definition gsk_curve_get_end_tangent (curve : GskCurve) : graphene_vec2_t :=
  match curve with
  | GSK_LINE p0 p1 => get_tangent p0 p1
  | GSK_CURVE k => gsk_curve_curve_get_end_tangent lib k
  | GSK_CONIC k => gsk_conic_curve_get_end_tangent lib k
  end.

(** Modelled from the spec: the walk of a path from a current point and a
    start point.  It delivers one event per call the path was built from,
    each segment starting at the current point; [close] returns to the
    point of the last [move_to]. *)
Fixpoint path_events_from (cur start : graphene_point_t) (path : GskPath)
  : list GskPathEvent :=
  match path with
  | [] => []
  | move_to x y :: rest =>
      let p := GRAPHENE_POINT_INIT x y in
      GSK_PATH_MOVE p :: path_events_from p p rest
  | line_to x y :: rest =>
      let p := GRAPHENE_POINT_INIT x y in
      GSK_PATH_LINE cur p :: path_events_from p start rest
  | curve_to x1 y1 x2 y2 x3 y3 :: rest =>
      let p := GRAPHENE_POINT_INIT x3 y3 in
      GSK_PATH_CURVE (mk_cubic cur (GRAPHENE_POINT_INIT x1 y1)
                               (GRAPHENE_POINT_INIT x2 y2) p)
        :: path_events_from p start rest
  | conic_to x1 y1 x2 y2 w :: rest =>
      let p := GRAPHENE_POINT_INIT x2 y2 in
      GSK_PATH_CONIC (mk_conic cur (GRAPHENE_POINT_INIT x1 y1) w p)
        :: path_events_from p start rest
  | svg_arc_to rx ry rot large sweep x y :: rest =>
      let p := GRAPHENE_POINT_INIT x y in
      map event_of_curve (svg_arc_segments lib cur rx ry rot large sweep p)
        ++ path_events_from p start rest
  | close :: rest =>
      GSK_PATH_CLOSE cur start :: path_events_from start start rest
  end.

(** Modelled from the spec: [gsk_path_foreach] with curves and conics
    allowed, as the list of the events it delivers to its callback. *)
Definition gsk_path_foreach (path : GskPath) : list GskPathEvent :=
  path_events_from (GRAPHENE_POINT_INIT 0 0) (GRAPHENE_POINT_INIT 0 0) path.

(** ** GskPathBuilder utilities *)

Definition path_builder_move_to_point (builder : GskPathBuilder)
                                      (point : graphene_point_t) :=
  gsk_path_builder_move_to builder (px point) (py point).

Definition path_builder_line_to_point (builder : GskPathBuilder)
                                      (point : graphene_point_t) :=
  gsk_path_builder_line_to builder (px point) (py point).

Definition path_builder_add_curve (builder : GskPathBuilder) (curve : GskCurve)
  : GskPathBuilder :=
  match curve with
  | GSK_LINE _ p1 => gsk_path_builder_line_to builder (px p1) (py p1)
  | GSK_CURVE k =>
      gsk_path_builder_curve_to builder
        (px (cubic_p1 k)) (py (cubic_p1 k))
        (px (cubic_p2 k)) (py (cubic_p2 k))
        (px (cubic_p3 k)) (py (cubic_p3 k))
  | GSK_CONIC k =>
      gsk_path_builder_conic_to builder
        (px (conic_p1 k)) (py (conic_p1 k))
        (px (conic_p3 k)) (py (conic_p3 k))
        (conic_weight k)
  end.

(** The callback of [path_builder_add_reverse_path]; [ops] is the list it
    prepends to. *)
Definition add_op (ev : GskPathEvent) (ops : list GskCurve) : list GskCurve :=
  match ev with
  | GSK_PATH_MOVE _ => ops
  | _ =>
      match gsk_curve_init_foreach ev with
      | Some c => gsk_curve_reverse c :: ops
      | None => ops
      end
  end.

Definition path_builder_add_reverse_path (builder : GskPathBuilder)
                                         (path : GskPath) : GskPathBuilder :=
  let ops := fold_left (fun ops ev => add_op ev ops) (gsk_path_foreach path) [] in
  fold_left path_builder_add_curve ops builder.

(** ** Stroke helpers *)

Definition add_line_join (builder : GskPathBuilder) (stroke : GskStroke)
                         (c a : graphene_point_t) (ta : graphene_vec2_t)
                         (b : graphene_point_t) (tb : graphene_vec2_t)
                         (angle : R) : GskPathBuilder :=
  match line_join stroke with
  | GSK_LINE_JOIN_MITER | GSK_LINE_JOIN_MITER_CLIP =>
      let (hit, p) := line_intersect a ta b tb (indeterminate_point lib) in
      if hit then
        let s := Rabs (sin ((M_PI - angle) / 2)) in
        if Rleb (1 / s) (miter_limit stroke) then
          path_builder_line_to_point (path_builder_line_to_point builder p) b
        else
          match line_join stroke with
          | GSK_LINE_JOIN_MITER_CLIP =>
              let q := GRAPHENE_POINT_INIT ((px c + px p) / 2)
                                           ((py c + py p) / 2) in
              let n := get_normal c p in
              let a1 := snd (line_intersect a ta q n (indeterminate_point lib)) in
              let b1 := snd (line_intersect b tb q n (indeterminate_point lib)) in
              path_builder_line_to_point
                (path_builder_line_to_point
                   (path_builder_line_to_point builder a1) b1) b
          | _ => path_builder_line_to_point builder b
          end
      else builder
  | GSK_LINE_JOIN_ROUND =>
      gsk_path_builder_svg_arc_to builder
        (line_width stroke / 2) (line_width stroke / 2)
        0 false (Rltb 0 angle) (px b) (py b)
  | GSK_LINE_JOIN_BEVEL => path_builder_line_to_point builder b
  end.

Definition add_line_cap (builder : GskPathBuilder) (stroke : GskStroke)
                        (s e : graphene_point_t) : GskPathBuilder :=
  match line_cap stroke with
  | GSK_LINE_CAP_BUTT => path_builder_line_to_point builder e
  | GSK_LINE_CAP_ROUND =>
      gsk_path_builder_svg_arc_to builder
        (line_width stroke / 2) (line_width stroke / 2)
        0 true false (px e) (py e)
  | GSK_LINE_CAP_SQUARE =>
      let cx := (px s + px e) / 2 in
      let cy := (py s + py e) / 2 in
      let dx := py s - cy in
      let dy := - px s + cx in
      path_builder_line_to_point
        (gsk_path_builder_line_to
           (gsk_path_builder_line_to builder (px s + dx) (py s + dy))
           (px e + dx) (py e + dy))
        e
  end.

(** ** The orchestrator state

    [builder] is the sink; a [left] or [right] that the C code leaves NULL
    is the empty builder. *)
Record StrokeData : Type := mk_stroke_data {
  builder : GskPathSink;
  stroke : GskStroke;
  left : GskPathBuilder;
  right : GskPathBuilder;
  has_current_point : bool;
  has_current_curve : bool;
  is_first_curve : bool;
  c : GskCurve;
  l : GskCurve;
  r : GskCurve;
  c0 : GskCurve;
  l0 : GskCurve;
  r0 : GskCurve
}.

Definition set_builder v sd :=
  mk_stroke_data v (stroke sd) (left sd) (right sd) (has_current_point sd)
    (has_current_curve sd) (is_first_curve sd) (c sd) (l sd) (r sd)
    (c0 sd) (l0 sd) (r0 sd).
Definition set_left v sd :=
  mk_stroke_data (builder sd) (stroke sd) v (right sd) (has_current_point sd)
    (has_current_curve sd) (is_first_curve sd) (c sd) (l sd) (r sd)
    (c0 sd) (l0 sd) (r0 sd).
Definition set_right v sd :=
  mk_stroke_data (builder sd) (stroke sd) (left sd) v (has_current_point sd)
    (has_current_curve sd) (is_first_curve sd) (c sd) (l sd) (r sd)
    (c0 sd) (l0 sd) (r0 sd).
Definition set_has_current_point v sd :=
  mk_stroke_data (builder sd) (stroke sd) (left sd) (right sd) v
    (has_current_curve sd) (is_first_curve sd) (c sd) (l sd) (r sd)
    (c0 sd) (l0 sd) (r0 sd).
Definition set_has_current_curve v sd :=
  mk_stroke_data (builder sd) (stroke sd) (left sd) (right sd)
    (has_current_point sd) v (is_first_curve sd) (c sd) (l sd) (r sd)
    (c0 sd) (l0 sd) (r0 sd).
Definition set_is_first_curve v sd :=
  mk_stroke_data (builder sd) (stroke sd) (left sd) (right sd)
    (has_current_point sd) (has_current_curve sd) v (c sd) (l sd) (r sd)
    (c0 sd) (l0 sd) (r0 sd).
Definition set_c v sd :=
  mk_stroke_data (builder sd) (stroke sd) (left sd) (right sd)
    (has_current_point sd) (has_current_curve sd) (is_first_curve sd)
    v (l sd) (r sd) (c0 sd) (l0 sd) (r0 sd).
Definition set_l v sd :=
  mk_stroke_data (builder sd) (stroke sd) (left sd) (right sd)
    (has_current_point sd) (has_current_curve sd) (is_first_curve sd)
    (c sd) v (r sd) (c0 sd) (l0 sd) (r0 sd).
Definition set_r v sd :=
  mk_stroke_data (builder sd) (stroke sd) (left sd) (right sd)
    (has_current_point sd) (has_current_curve sd) (is_first_curve sd)
    (c sd) (l sd) v (c0 sd) (l0 sd) (r0 sd).
Definition set_c0 v sd :=
  mk_stroke_data (builder sd) (stroke sd) (left sd) (right sd)
    (has_current_point sd) (has_current_curve sd) (is_first_curve sd)
    (c sd) (l sd) (r sd) v (l0 sd) (r0 sd).
Definition set_l0 v sd :=
  mk_stroke_data (builder sd) (stroke sd) (left sd) (right sd)
    (has_current_point sd) (has_current_curve sd) (is_first_curve sd)
    (c sd) (l sd) (r sd) (c0 sd) v (r0 sd).
Definition set_r0 v sd :=
  mk_stroke_data (builder sd) (stroke sd) (left sd) (right sd)
    (has_current_point sd) (has_current_curve sd) (is_first_curve sd)
    (c sd) (l sd) (r sd) (c0 sd) (l0 sd) v.

Definition append_right (stroke_data : StrokeData) (curve : GskCurve)
  : StrokeData :=
  if is_first_curve stroke_data then
    let sd := set_r0 curve stroke_data in
    set_right (path_builder_move_to_point (right sd)
                 (gsk_curve_get_end_point curve)) sd
  else
    set_right (path_builder_add_curve (right stroke_data) curve) stroke_data.

Definition append_left (stroke_data : StrokeData) (curve : GskCurve)
  : StrokeData :=
  if is_first_curve stroke_data then
    let sd := set_l0 curve stroke_data in
    set_left (path_builder_move_to_point (left sd)
                (gsk_curve_get_end_point curve)) sd
  else
    set_left (path_builder_add_curve (left stroke_data) curve) stroke_data.

(** ** add_segments

    The C function receives [r] and [l] by pointer, writes through them and
    reads them again after calls that assign [stroke_data->r0] and
    [stroke_data->l0].  [add_curve] passes the addresses of two locals;
    [close_contours] passes [&stroke_data->r0] and [&stroke_data->l0], so
    that there the pointers alias the fields that [append_right] and
    [append_left] assign.  A [CurveRef] says which of the two it is; the
    locals of the caller are threaded next to the state. *)
Inductive CurveRef : Type :=
| caller_local
| first_segment.

Definition deref_r (ref : CurveRef) (sd : StrokeData) (local : GskCurve) :=
  match ref with caller_local => local | first_segment => r0 sd end.

Definition deref_l (ref : CurveRef) (sd : StrokeData) (local : GskCurve) :=
  match ref with caller_local => local | first_segment => l0 sd end.

Definition assign_r (ref : CurveRef) (sd : StrokeData) (local v : GskCurve)
  : StrokeData * GskCurve :=
  match ref with
  | caller_local => (sd, v)
  | first_segment => (set_r0 v sd, local)
  end.

Definition assign_l (ref : CurveRef) (sd : StrokeData) (local v : GskCurve)
  : StrokeData * GskCurve :=
  match ref with
  | caller_local => (sd, v)
  | first_segment => (set_l0 v sd, local)
  end.

(** The three branches leave the state and the two locals; the common
    tail stores the pending segment. *)
Definition add_segments_straight (ref : CurveRef) (sd : StrokeData)
                                 (lr ll : GskCurve)
  : StrokeData * GskCurve * GskCurve :=
  let sd := append_right sd (r sd) in
  let sd := set_right (path_builder_line_to_point (right sd)
                         (gsk_curve_get_start_point (deref_r ref sd lr))) sd in
  let sd := append_left sd (l sd) in
  let sd := set_left (path_builder_line_to_point (left sd)
                        (gsk_curve_get_start_point (deref_l ref sd ll))) sd in
  (sd, lr, ll).

Definition add_segments_right_turn (ref : CurveRef) (sd : StrokeData)
                                   (curve lr ll : GskCurve)
                                   (tangent1 tangent2 : graphene_vec2_t)
                                   (angle : R)
  : StrokeData * GskCurve * GskCurve :=
  let '(sd, lr) :=
    match gsk_curve_intersect lib (r sd) (deref_r ref sd lr) with
    | Some (t1, t2, p) =>
        let sd := set_r (fst (gsk_curve_split (r sd) t1)) sd in
        let '(sd, lr) :=
          assign_r ref sd lr (snd (gsk_curve_split (deref_r ref sd lr) t2)) in
        (append_right sd (r sd), lr)
    | None =>
        let sd := append_right sd (r sd) in
        (set_right (path_builder_line_to_point (right sd)
                      (gsk_curve_get_start_point (deref_r ref sd lr))) sd, lr)
    end in
  let sd := append_left sd (l sd) in
  let sd := set_left (add_line_join (left sd) (stroke sd)
                        (gsk_curve_get_start_point curve)
                        (gsk_curve_get_end_point (l sd)) tangent1
                        (gsk_curve_get_start_point (deref_l ref sd ll)) tangent2
                        angle) sd in
  (sd, lr, ll).

Definition add_segments_left_turn (ref : CurveRef) (sd : StrokeData)
                                  (curve lr ll : GskCurve)
                                  (tangent1 tangent2 : graphene_vec2_t)
                                  (angle : R)
  : StrokeData * GskCurve * GskCurve :=
  let sd := append_right sd (r sd) in
  let sd := set_right (add_line_join (right sd) (stroke sd)
                         (gsk_curve_get_start_point curve)
                         (gsk_curve_get_end_point (r sd)) tangent1
                         (gsk_curve_get_start_point (deref_r ref sd lr)) tangent2
                         angle) sd in
  let '(sd, ll) :=
    match gsk_curve_intersect lib (l sd) (deref_l ref sd ll) with
    | Some (t1, t2, p) =>
        let sd := set_l (fst (gsk_curve_split (l sd) t1)) sd in
        let '(sd, ll) :=
          assign_l ref sd ll (snd (gsk_curve_split (deref_l ref sd ll) t2)) in
        (append_left sd (l sd), ll)
    | None =>
        let sd := append_left sd (l sd) in
        (set_left (path_builder_line_to_point (left sd)
                     (gsk_curve_get_start_point (deref_l ref sd ll))) sd, ll)
    end in
  (sd, lr, ll).

(** The turn angle that [add_segments] computes between the pending
    segment and the arriving one. *)
Definition turn_angle (sd : StrokeData) (curve : GskCurve) : R :=
  angle_between (gsk_curve_get_end_tangent (c sd))
                (gsk_curve_get_start_tangent curve).

Definition add_segments (ref : CurveRef) (stroke_data : StrokeData)
                        (curve lr ll : GskCurve) : StrokeData :=
  let tangent1 := gsk_curve_get_end_tangent (c stroke_data) in
  let tangent2 := gsk_curve_get_start_tangent curve in
  let angle := angle_between tangent1 tangent2 in
  let '(sd, lr, ll) :=
    if Rltb (Rabs angle) (DEG_TO_RAD 5) then
      (* Close enough to a straight line *)
      add_segments_straight ref stroke_data lr ll
    else if Rltb 0 angle then
      (* Right turn *)
      add_segments_right_turn ref stroke_data curve lr ll tangent1 tangent2 angle
    else
      (* Left turn *)
      add_segments_left_turn ref stroke_data curve lr ll tangent1 tangent2 angle
  in
  let sd := set_c curve sd in
  let sd := set_r (deref_r ref sd lr) sd in
  set_l (deref_l ref sd ll) sd.

Definition add_curve (stroke_data : StrokeData) (curve : GskCurve)
  : StrokeData :=
  let l := gsk_curve_offset curve (- line_width (stroke stroke_data) / 2) in
  let r := gsk_curve_offset curve (line_width (stroke stroke_data) / 2) in
  if negb (has_current_curve stroke_data) then
    let sd := set_c0 curve stroke_data in
    let sd := set_r0 r sd in
    let sd := set_l0 l sd in
    let sd := set_right (path_builder_move_to_point (right sd)
                           (gsk_curve_get_start_point r)) sd in
    let sd := set_left (path_builder_move_to_point (left sd)
                          (gsk_curve_get_start_point l)) sd in
    let sd := set_c curve sd in
    let sd := set_r r sd in
    let sd := set_l l sd in
    let sd := set_has_current_curve true sd in
    set_is_first_curve true sd
  else
    let sd := add_segments caller_local stroke_data curve r l in
    set_is_first_curve false sd.

(** ** The adaptive subdivider *)

Definition cubic_is_simple (curve : GskCurveCurve) : bool :=
  let t1 := get_tangent (cubic_p0 curve) (cubic_p1 curve) in
  let t2 := get_tangent (cubic_p1 curve) (cubic_p2 curve) in
  let t3 := get_tangent (cubic_p2 curve) (cubic_p3 curve) in
  let a1 := angle_between t1 t2 in
  let a2 := angle_between t2 t3 in
  if (Rltb a1 0 && Rltb 0 a2) || (Rltb 0 a1 && Rltb a2 0) then false
  else
    let n1 := get_normal (cubic_p0 curve) (cubic_p1 curve) in
    let n2 := get_normal (cubic_p2 curve) (cubic_p3 curve) in
    let s := graphene_vec2_dot n1 n2 in
    if Rleb (M_PI / 3) (Rabs (acos s)) then false else true.

(** [align_points p a b q n]: each point of [p] translated by [-a] and
    rotated so that the direction from [a] to [b] becomes the x axis. *)
Definition align_points (p : list graphene_point_t) (a b : graphene_point_t)
  : list graphene_point_t :=
  let n1 := get_tangent a b in
  let angle := - atan2 (vy n1) (vx n1) in
  let s := sin angle in
  let c := cos angle in
  map (fun pi =>
         GRAPHENE_POINT_INIT ((px pi - px a) * c - (py pi - py a) * s)
                             ((px pi - px a) * s + (py pi - py a) * c)) p.

Definition origin : graphene_point_t := GRAPHENE_POINT_INIT 0 0.

(** The parameters stored in [t], in the order they are stored. *)
Definition cubic_curvature_points (curve : GskCurveCurve) : list R :=
  let pts := [cubic_p0 curve; cubic_p1 curve; cubic_p2 curve; cubic_p3 curve] in
  let p := align_points pts (cubic_p0 curve) (cubic_p3 curve) in
  let p1 := nth 1 p origin in
  let p2 := nth 2 p origin in
  let p3 := nth 3 p origin in
  let a := px p2 * py p1 in
  let b := px p3 * py p1 in
  let c := px p1 * py p2 in
  let d := px p3 * py p2 in
  let x := - 3 * a + 2 * b + 3 * c - d in
  let y := 3 * a - b - 3 * c in
  let z := c - a in
  let inside tt := Rltb 0 tt && Rltb tt 1 in
  let keep tt := if inside tt then [tt] else [] in
  if Rleb (1 / 1000) (Rabs x) then
    let u2 := y * y - 4 * x * z in
    keep (- y / (2 * x))
      ++ (if Rltb (1 / 1000) u2 then
            let u := sqrt u2 in
            keep ((- y + u) / (2 * x)) ++ keep ((- y - u) / (2 * x))
          else [])
  else [].

Definition cmpfloat (f1 f2 : R) : Z :=
  if Rltb f1 f2 then (-1)%Z else if Rltb f2 f1 then 1%Z else 0%Z.

(** [qsort] with a comparison: the list in ascending order. *)
Fixpoint qsort_insert (cmp : R -> R -> Z) (x : R) (t : list R) : list R :=
  match t with
  | [] => [x]
  | y :: t' =>
      if (cmp x y <=? 0)%Z then x :: y :: t' else y :: qsort_insert cmp x t'
  end.

Definition qsort (t : list R) (cmp : R -> R -> Z) : list R :=
  fold_right (qsort_insert cmp) [] t.

(** The pairs [(t[i], t[i+1])] for [i + 1 < n]. *)
Fixpoint consecutive (t : list R) : list (R * R) :=
  match t with
  | a :: (b :: _) as rest => (a, b) :: consecutive rest
  | _ => []
  end.

Definition MAX_SUBDIVISION : Z := 8.

(** The parameters at which [subdivide_and_add_curve] cuts at [level]. *)
Definition subdivision_parameters (curve : GskCurveCurve) (level : Z) : list R :=
  let t := [0; 1] in
  if (level =? MAX_SUBDIVISION)%Z
  then qsort (t ++ cubic_curvature_points curve) cmpfloat
  else t.

(** [subdivide_and_add_curve] as the C function is written: [level] is a
    machine integer that every recursive call decrements, and only the
    test [level == 0] ends the descent.  The model runs on fuel, the
    number of nested calls it may make, and is [None] when that runs
    out. *)
Fixpoint subdivide_and_add_curve_rec (fuel : nat) (stroke_data : StrokeData)
         (curve : GskCurveCurve) (level : Z) {struct fuel}
  : option StrokeData :=
  match fuel with
  | O => None
  | S fuel' =>
      if (level =? 0)%Z
         || ((level <? MAX_SUBDIVISION)%Z && cubic_is_simple curve)
      then Some (add_curve stroke_data (GSK_CURVE curve))
      else
        let t := subdivision_parameters curve level in
        if (length t =? 2)%nat then
          let (c1, c2) := gsk_curve_curve_split curve (1 / 2) in
          match subdivide_and_add_curve_rec fuel' stroke_data c1 (level - 1) with
          | Some sd => subdivide_and_add_curve_rec fuel' sd c2 (level - 1)
          | None => None
          end
        else
          fold_left
            (fun acc ab =>
               match acc with
               | Some sd =>
                   subdivide_and_add_curve_rec fuel' sd
                     (gsk_curve_curve_segment lib curve (fst ab) (snd ab))
                     (level - 1)
               | None => None
               end)
            (consecutive t) (Some stroke_data)
  end.

(** The same function for a level that is a natural number, by structural
    descent on the level.  [subdivide_and_add_curve_rec_eq] below shows
    that it is what the C recursion computes. *)
Fixpoint subdivide_and_add_curve (stroke_data : StrokeData)
         (curve : GskCurveCurve) (level : nat) {struct level} : StrokeData :=
  match level with
  | O => add_curve stroke_data (GSK_CURVE curve)
  | S level' =>
      if (Z.of_nat level <? MAX_SUBDIVISION)%Z && cubic_is_simple curve
      then add_curve stroke_data (GSK_CURVE curve)
      else
        let t := subdivision_parameters curve (Z.of_nat level) in
        if (length t =? 2)%nat then
          let (c1, c2) := gsk_curve_curve_split curve (1 / 2) in
          subdivide_and_add_curve
            (subdivide_and_add_curve stroke_data c1 level') c2 level'
        else
          fold_left
            (fun sd ab =>
               subdivide_and_add_curve sd
                 (gsk_curve_curve_segment lib curve (fst ab) (snd ab)) level')
            (consecutive t) stroke_data
  end.

Definition conic_is_simple (curve : GskConicCurve) : bool :=
  let n1 := get_normal (conic_p0 curve) (conic_p1 curve) in
  let n2 := get_normal (conic_p1 curve) (conic_p3 curve) in
  let s := graphene_vec2_dot n1 n2 in
  if Rleb (M_PI / 3) (Rabs (acos s)) then false else true.

Fixpoint subdivide_and_add_conic_rec (fuel : nat) (stroke_data : StrokeData)
         (curve : GskConicCurve) (level : Z) {struct fuel}
  : option StrokeData :=
  match fuel with
  | O => None
  | S fuel' =>
      if (level =? 0)%Z
         || ((level <? MAX_SUBDIVISION)%Z && conic_is_simple curve)
      then Some (add_curve stroke_data (GSK_CONIC curve))
      else
        let (c1, c2) := gsk_conic_curve_split lib curve (1 / 2) in
        match subdivide_and_add_conic_rec fuel' stroke_data c1 (level - 1) with
        | Some sd => subdivide_and_add_conic_rec fuel' sd c2 (level - 1)
        | None => None
        end
  end.

Fixpoint subdivide_and_add_conic (stroke_data : StrokeData)
         (curve : GskConicCurve) (level : nat) {struct level} : StrokeData :=
  match level with
  | O => add_curve stroke_data (GSK_CONIC curve)
  | S level' =>
      if (Z.of_nat level <? MAX_SUBDIVISION)%Z && conic_is_simple curve
      then add_curve stroke_data (GSK_CONIC curve)
      else
        let (c1, c2) := gsk_conic_curve_split lib curve (1 / 2) in
        subdivide_and_add_conic
          (subdivide_and_add_conic stroke_data c1 level') c2 level'
  end.

(** ** Finishing a contour *)

Definition cap_and_connect_contours (stroke_data : StrokeData) : StrokeData :=
  let sd := stroke_data in
  let r0p := gsk_curve_get_start_point (r0 sd) in
  let l0p := gsk_curve_get_start_point (l0 sd) in
  let '(sd, r1, l1) :=
    if has_current_curve sd then
      let sd := set_right (path_builder_add_curve (right sd) (r sd)) sd in
      let sd := set_left (path_builder_add_curve (left sd) (l sd)) sd in
      (sd, gsk_curve_get_end_point (r sd), gsk_curve_get_end_point (l sd))
    else
      (set_right (path_builder_move_to_point (right sd) r0p) sd, r0p, l0p) in
  let sd := set_right (add_line_cap (right sd) (stroke sd) r1 l1) sd in
  let sd :=
    if has_current_curve sd then
      let path := gsk_path_builder_free_to_path (left sd) in
      let sd := set_right (path_builder_add_reverse_path (right sd) path) sd in
      if negb (is_first_curve sd) then
        (* Add the first segment that wasn't added initially *)
        let c := gsk_curve_reverse (l0 sd) in
        set_right (path_builder_add_curve (right sd) c) sd
      else sd
    else sd in
  let sd := set_right (add_line_cap (right sd) (stroke sd) l0p r0p) sd in
  let sd :=
    if has_current_curve sd && negb (is_first_curve sd) then
      (* Add the first segment that wasn't added initially *)
      set_right (path_builder_add_curve (right sd) (r0 sd)) sd
    else sd in
  let sd := set_right (gsk_path_builder_close (right sd)) sd in
  let path := gsk_path_builder_free_to_path (right sd) in
  let sd := set_builder (gsk_path_builder_add_path (builder sd) path) sd in
  let sd := set_left gsk_path_builder_new sd in
  set_right gsk_path_builder_new sd.

Definition close_contours (stroke_data : StrokeData) : StrokeData :=
  let sd := stroke_data in
  let sd :=
    if has_current_curve sd then
      (* add final join and first segment *)
      let sd := add_segments first_segment sd (c0 sd) (r0 sd) (l0 sd) in
      let sd := set_right (path_builder_add_curve (right sd) (r sd)) sd in
      set_left (path_builder_add_curve (left sd) (l sd)) sd
    else sd in
  let sd := set_right (gsk_path_builder_close (right sd)) sd in
  let sd := set_left (gsk_path_builder_close (left sd)) sd in
  let path := gsk_path_builder_free_to_path (right sd) in
  let sd := set_builder (gsk_path_builder_add_path (builder sd) path) sd in
  let path := gsk_path_builder_free_to_path (left sd) in
  let sd := set_builder (gsk_path_builder_add_path (builder sd) path) sd in
  let sd := set_left gsk_path_builder_new sd in
  set_right gsk_path_builder_new sd.

(** ** The callback of the walk *)

Definition stroke_op (stroke_data : StrokeData) (ev : GskPathEvent)
  : StrokeData :=
  match ev with
  | GSK_PATH_MOVE pt =>
      let sd :=
        if has_current_point stroke_data
        then cap_and_connect_contours stroke_data
        else stroke_data in
      let curve := GSK_LINE pt (GRAPHENE_POINT_INIT (px pt + 1) (py pt)) in
      let sd := set_r0 (gsk_curve_offset curve (line_width (stroke sd) / 2)) sd in
      let sd := set_l0 (gsk_curve_offset curve (- line_width (stroke sd) / 2)) sd in
      let sd := set_right gsk_path_builder_new sd in
      let sd := set_left gsk_path_builder_new sd in
      let sd := set_has_current_point true sd in
      set_has_current_curve false sd
  | GSK_PATH_CLOSE p0 p1 =>
      let sd :=
        if has_current_point stroke_data then
          let sd :=
            if negb (graphene_point_near p0 p1 (1 / 1000))
            then add_curve stroke_data (GSK_LINE p0 p1)
            else stroke_data in
          close_contours sd
        else stroke_data in
      let sd := set_has_current_point false sd in
      set_has_current_curve false sd
  | GSK_PATH_LINE p0 p1 => add_curve stroke_data (GSK_LINE p0 p1)
  | GSK_PATH_CURVE k =>
      subdivide_and_add_curve stroke_data k (Z.to_nat MAX_SUBDIVISION)
  | GSK_PATH_CONIC k =>
      subdivide_and_add_conic stroke_data k (Z.to_nat MAX_SUBDIVISION)
  end.

(** ** The driver *)

(** Modelled from the spec: a contour is given by the events its walk
    ([gsk_contour_foreach]) delivers, in order. *)
Definition GskContour : Type := list GskPathEvent.

(** Modelled from the spec: [gsk_contour_foreach], as the list of the
    events it delivers to its callback. *)
Definition gsk_contour_foreach (contour : GskContour) : list GskPathEvent :=
  contour.

(** A curve whose bytes are all zero.  No field holding it is read before
    it is assigned. *)
Definition zeroed_curve : GskCurve := GSK_LINE origin origin.

(** The state after [memset] and the two assignments. *)
Definition initial_stroke_data (sink : GskPathSink) (params : GskStroke)
  : StrokeData :=
  mk_stroke_data sink params gsk_path_builder_new gsk_path_builder_new
                 false false false
                 zeroed_curve zeroed_curve zeroed_curve
                 zeroed_curve zeroed_curve zeroed_curve.

(** The events that reach [stroke_op]: those of the plain walk, or those
    of the dash generator when there is a dash pattern. *)
Definition delivered_events (contour : GskContour) (params : GskStroke)
  : list GskPathEvent :=
  if Rleb (dash_length params) 0
  then gsk_contour_foreach contour
  else gsk_contour_dash lib contour params.

Definition gsk_contour_default_add_stroke (contour : GskContour)
           (sink : GskPathSink) (params : GskStroke) : GskPathSink :=
  let stroke_data := initial_stroke_data sink params in
  let stroke_data :=
    fold_left stroke_op (delivered_events contour params) stroke_data in
  let stroke_data :=
    if has_current_point stroke_data
    then cap_and_connect_contours stroke_data
    else stroke_data in
  builder stroke_data.

(** ** Observing the subdivider

    The pieces that [subdivide_and_add_curve] hands to [add_curve], in the
    order of the calls, each with the level at which it was accepted: the
    recursion of [subdivide_and_add_curve] with the state left out.
    [subdivide_and_add_curve_pieces] below shows that the subdivider is
    [add_curve] folded over this list. *)
Fixpoint subdivided_pieces (curve : GskCurveCurve) (level : nat)
         {struct level} : list (nat * GskCurveCurve) :=
  match level with
  | O => [(level, curve)]
  | S level' =>
      if (Z.of_nat level <? MAX_SUBDIVISION)%Z && cubic_is_simple curve
      then [(level, curve)]
      else
        let t := subdivision_parameters curve (Z.of_nat level) in
        if (length t =? 2)%nat then
          let (c1, c2) := gsk_curve_curve_split curve (1 / 2) in
          subdivided_pieces c1 level' ++ subdivided_pieces c2 level'
        else
          flat_map
            (fun ab =>
               subdivided_pieces
                 (gsk_curve_curve_segment lib curve (fst ab) (snd ab)) level')
            (consecutive t)
  end.

(** The state of the orchestrator when the events [evs] have been
    delivered, from the start of a stroke call. *)
Definition stroke_data_after (evs : list GskPathEvent) (sink : GskPathSink)
                             (params : GskStroke) : StrokeData :=
  fold_left stroke_op evs (initial_stroke_data sink params).

End Stroker.

(** The events that carry a segment. *)
Definition is_segment (ev : GskPathEvent) : bool :=
  match ev with
  | GSK_PATH_LINE _ _ | GSK_PATH_CURVE _ | GSK_PATH_CONIC _ => true
  | GSK_PATH_MOVE _ | GSK_PATH_CLOSE _ _ => false
  end.

(** Two states of one contour: the sink, the stroke parameters and
    [has_current_point] are the same.  The events that carry a segment
    relate the state before to the state after. *)
Definition same_contour (sd sd' : StrokeData) : Prop :=
  builder sd' = builder sd /\ stroke sd' = stroke sd /\
  has_current_point sd' = has_current_point sd.

(** ** A library for polylines *)

(** Modelled from the spec: the crossing of two line segments, as
    [gsk_curve_intersect] reports it: the parameters on both segments and
    the crossing point, when the segments are not parallel and the crossing
    lies on both. *)
Definition line_line_crossing (p0 p1 q0 q1 : graphene_point_t)
  : option (R * R * graphene_point_t) :=
  let d1x := px p1 - px p0 in
  let d1y := py p1 - py p0 in
  let d2x := px q1 - px q0 in
  let d2y := py q1 - py q0 in
  let det := d1x * d2y - d1y * d2x in
  if Rltb 0 (Rabs det) then
    let t := ((px q0 - px p0) * d2y - (py q0 - py p0) * d2x) / det in
    let s := ((px q0 - px p0) * d1y - (py q0 - py p0) * d1x) / det in
    if Rleb 0 t && Rleb t 1 && Rleb 0 s && Rleb s 1
    then Some (t, s, lerp_point t p0 p1)
    else None
  else None.

(** An instance of the library, on which the scenarios below are
    evaluated.  Lines cross as above, the dash generator delivers the plain
    walk and an unassigned point reads as the origin.  The entries for the
    offsets, segments and tangents of cubics and for conics are the
    simplest of their type; the scenarios never reach them. *)
Definition polyline_lib : GskCurveLib :=
  mk_lib
    (fun k _ => k)
    (fun k _ => k)
    (fun k _ => (k, k))
    (fun k _ _ => k)
    (fun k => get_tangent (cubic_p0 k) (cubic_p1 k))
    (fun k => get_tangent (cubic_p2 k) (cubic_p3 k))
    (fun k => get_tangent (conic_p0 k) (conic_p1 k))
    (fun k => get_tangent (conic_p1 k) (conic_p3 k))
    (fun c1 c2 =>
       match c1, c2 with
       | GSK_LINE p0 p1, GSK_LINE q0 q1 => line_line_crossing p0 p1 q0 q1
       | _, _ => None
       end)
    (fun cur _ _ _ _ _ p => [GSK_LINE cur p])
    (fun contour _ => contour)
    origin.

(** ** Reading a reversed path

    The call that [path_builder_add_curve] makes for a curve. *)
Definition curve_call (curve : GskCurve) : GskPathBuilderCall :=
  match curve with
  | GSK_LINE _ p1 => line_to (px p1) (py p1)
  | GSK_CURVE k =>
      curve_to (px (cubic_p1 k)) (py (cubic_p1 k))
               (px (cubic_p2 k)) (py (cubic_p2 k))
               (px (cubic_p3 k)) (py (cubic_p3 k))
  | GSK_CONIC k =>
      conic_to (px (conic_p1 k)) (py (conic_p1 k))
               (px (conic_p3 k)) (py (conic_p3 k))
               (conic_weight k)
  end.

(** The segments of a path, in order: the curves of the events of its walk
    that are not MOVE. *)
Definition event_curves (evs : list GskPathEvent) : list GskCurve :=
  flat_map (fun ev => match gsk_curve_init_foreach ev with
                      | Some c => [c]
                      | None => []
                      end)
           (filter (fun ev => negb (is_move ev)) evs).

Definition path_segments (lib : GskCurveLib) (path : GskPath) : list GskCurve :=
  event_curves (gsk_path_foreach lib path).

(** Each curve starts where the one before it ends. *)
Fixpoint chained (cs : list GskCurve) : Prop :=
  match cs with
  | a :: (b :: _) as rest =>
      gsk_curve_get_end_point a = gsk_curve_get_start_point b /\ chained rest
  | _ => True
  end.

(** Where a sequence of curves starts and where it ends. *)
Definition first_point (cs : list GskCurve) : option graphene_point_t :=
  option_map gsk_curve_get_start_point (hd_error cs).

Definition last_point (cs : list GskCurve) : option graphene_point_t :=
  option_map gsk_curve_get_end_point (hd_error (rev cs)).

(** ** A cubic that turns back on itself

    The control points (0,0), (-4,0), (-3,0), (9,0) lie on the x axis: the
    curve leaves (0,0) to the left, turns round at the parameter 1/3 and
    runs to (9,0). *)
Definition turning_cubic : GskCurveCurve :=
  mk_cubic (GRAPHENE_POINT_INIT 0 0) (GRAPHENE_POINT_INIT (-4) 0)
           (GRAPHENE_POINT_INIT (-3) 0) (GRAPHENE_POINT_INIT 9 0).

(** Cubics on the x axis with rational abscissae [a / s], kept as four
    integers and a common denominator, so that their halves can be
    computed. *)
Definition AxisCubic : Type := (Z * Z * Z * Z)%type.

Definition axis_cubic (s : R) (a : AxisCubic) : GskCurveCurve :=
  let '(a0, a1, a2, a3) := a in
  mk_cubic (GRAPHENE_POINT_INIT (IZR a0 / s) 0)
           (GRAPHENE_POINT_INIT (IZR a1 / s) 0)
           (GRAPHENE_POINT_INIT (IZR a2 / s) 0)
           (GRAPHENE_POINT_INIT (IZR a3 / s) 0).

(** The halves of de Casteljau's construction at 1/2, over the denominator
    multiplied by 8. *)
Definition axis_left_half (a : AxisCubic) : AxisCubic :=
  let '(a0, a1, a2, a3) := a in
  (8 * a0, 4 * (a0 + a1), 2 * (a0 + 2 * a1 + a2),
   a0 + 3 * a1 + 3 * a2 + a3)%Z.

Definition axis_right_half (a : AxisCubic) : AxisCubic :=
  let '(a0, a1, a2, a3) := a in
  (a0 + 3 * a1 + 3 * a2 + a3, 2 * (a1 + 2 * a2 + a3), 4 * (a2 + a3),
   8 * a3)%Z.

(** The first leg of the control polygon points left and the last one
    points right. *)
Definition axis_turns_back (a : AxisCubic) : bool :=
  let '(a0, a1, a2, a3) := a in ((a1 <? a0) && (a2 <? a3))%Z.

(** Some piece after [n] halvings still turns back, and so does every
    piece on the way to it. *)
Fixpoint axis_keeps_turning (n : nat) (a : AxisCubic) : bool :=
  axis_turns_back a
  && match n with
     | O => true
     | S n' => axis_keeps_turning n' (axis_left_half a)
               || axis_keeps_turning n' (axis_right_half a)
     end.

(** ** Scenarios *)

Definition butt_miter_stroke : GskStroke :=
  mk_stroke 2 GSK_LINE_CAP_BUTT GSK_LINE_JOIN_MITER 4 [] 0 0.

Definition corner_contour : GskContour :=
  [GSK_PATH_MOVE (GRAPHENE_POINT_INIT 0 0);
   GSK_PATH_LINE (GRAPHENE_POINT_INIT 0 0) (GRAPHENE_POINT_INIT 10 0);
   GSK_PATH_LINE (GRAPHENE_POINT_INIT 10 0) (GRAPHENE_POINT_INIT 10 10)].

Definition triangle_contour : GskContour :=
  corner_contour
    ++ [GSK_PATH_CLOSE (GRAPHENE_POINT_INIT 10 10) (GRAPHENE_POINT_INIT 0 0)].

(** The state when the first line has arrived. *)
Definition after_first_line : StrokeData :=
  let east := GSK_LINE (GRAPHENE_POINT_INIT 0 0) (GRAPHENE_POINT_INIT 10 0) in
  let east_l := GSK_LINE (GRAPHENE_POINT_INIT 0 (-1)) (GRAPHENE_POINT_INIT 10 (-1)) in
  let east_r := GSK_LINE (GRAPHENE_POINT_INIT 0 1) (GRAPHENE_POINT_INIT 10 1) in
  mk_stroke_data [] butt_miter_stroke [move_to 0 (-1)] [move_to 0 1]
                 true true true east east_l east_r east east_l east_r.

(** The state when the second line has arrived. *)
Definition after_corner : StrokeData :=
  mk_stroke_data [] butt_miter_stroke
    [move_to 0 (-1); move_to 10 (-1); line_to 11 (-1); line_to 11 0]
    [move_to 0 1; move_to 9 1]
    true true false
    (GSK_LINE (GRAPHENE_POINT_INIT 10 0) (GRAPHENE_POINT_INIT 10 10))
    (GSK_LINE (GRAPHENE_POINT_INIT 11 0) (GRAPHENE_POINT_INIT 11 10))
    (GSK_LINE (GRAPHENE_POINT_INIT 9 1) (GRAPHENE_POINT_INIT 9 10))
    (GSK_LINE (GRAPHENE_POINT_INIT 0 0) (GRAPHENE_POINT_INIT 10 0))
    (GSK_LINE (GRAPHENE_POINT_INIT 0 (-1)) (GRAPHENE_POINT_INIT 10 (-1)))
    (GSK_LINE (GRAPHENE_POINT_INIT 0 1) (GRAPHENE_POINT_INIT 9 1)).

(** ** Where a call ends *)

(** The point at which a call leaves the current point of a builder;
    [close] names none. *)
Definition call_target (call : GskPathBuilderCall) : option graphene_point_t :=
  match call with
  | move_to x y => Some (GRAPHENE_POINT_INIT x y)
  | line_to x y => Some (GRAPHENE_POINT_INIT x y)
  | curve_to _ _ _ _ x y => Some (GRAPHENE_POINT_INIT x y)
  | conic_to _ _ x y _ => Some (GRAPHENE_POINT_INIT x y)
  | svg_arc_to _ _ _ _ _ x y => Some (GRAPHENE_POINT_INIT x y)
  | close => None
  end.

(** ** Connected runs of curves *)

(** The curves follow one another from the point [cur]: each starts where
    the one before it ends, the first at [cur]. *)
Fixpoint connected_from (cur : graphene_point_t) (cs : list GskCurve) : Prop :=
  match cs with
  | [] => True
  | curve :: rest =>
      gsk_curve_get_start_point curve = cur
      /\ connected_from (gsk_curve_get_end_point curve) rest
  end.

(** Where a run of curves that starts at [cur] ends. *)
Definition end_from (cur : graphene_point_t) (cs : list GskCurve)
  : graphene_point_t :=
  fold_left (fun _ curve => gsk_curve_get_end_point curve) cs cur.

(** ** Observing the conic subdivider *)

(** The pieces that [subdivide_and_add_conic] hands to [add_curve], in the
    order of the calls, each with the level at which it was accepted: the
    recursion of [subdivide_and_add_conic] with the state left out. *)
Fixpoint subdivided_conic_pieces (lib : GskCurveLib) (curve : GskConicCurve)
         (level : nat) {struct level} : list (nat * GskConicCurve) :=
  match level with
  | O => [(level, curve)]
  | S level' =>
      if (Z.of_nat level <? MAX_SUBDIVISION)%Z && conic_is_simple curve
      then [(level, curve)]
      else
        let (c1, c2) := gsk_conic_curve_split lib curve (1 / 2) in
        subdivided_conic_pieces lib c1 level'
          ++ subdivided_conic_pieces lib c2 level'
  end.

(** ** Counting what a stream of events deposits *)

(** The number of sub-paths that the events deposit, counted off the
    events alone: [current] says whether a current point is set when they
    begin.  A MOVE finishes an open contour with one sub-path, a CLOSE a
    closed one with two, and the end of the stream an open one with one. *)
Fixpoint deposits (current : bool) (evs : list GskPathEvent) : nat :=
  match evs with
  | [] => if current then 1 else 0
  | GSK_PATH_MOVE _ :: rest => (if current then 1 else 0) + deposits true rest
  | GSK_PATH_CLOSE _ _ :: rest =>
      (if current then 2 else 0) + deposits false rest
  | _ :: rest => deposits current rest
  end.

(** Every segment arrives while a current point is set, that is, after a
    MOVE with no CLOSE since. *)
Fixpoint segments_follow_move (current : bool) (evs : list GskPathEvent)
  : bool :=
  match evs with
  | [] => true
  | GSK_PATH_MOVE _ :: rest => segments_follow_move true rest
  | GSK_PATH_CLOSE _ _ :: rest => segments_follow_move false rest
  | _ :: rest => current && segments_follow_move current rest
  end.


(** ** The shape of the sub-paths *)

(** The first call a builder received is [move_to]. *)
Definition begins_with_move (path : GskPathBuilder) : bool :=
  match path with
  | move_to _ _ :: _ => true
  | _ => false
  end.

(** A sub-path that begins with [move_to], or the lone [close] that a
    contour closed without a segment leaves. *)
Definition well_begun (path : GskPath) : bool :=
  match path with
  | move_to _ _ :: _ => true
  | [close] => true
  | _ => false
  end.

(** The two sub-paths of a contour in progress: empty until its first
    segment has arrived, begun by [move_to] from then on. *)
Definition pending_begun (sd : StrokeData) : Prop :=
  if has_current_curve sd
  then begins_with_move (right sd) = true /\ begins_with_move (left sd) = true
  else right sd = [] /\ left sd = [].

(** From [sd] to [sd'] the two sub-paths in progress have kept the calls
    they held and [has_current_curve] its value, within one contour. *)
Definition grows (sd sd' : StrokeData) : Prop :=
  same_contour sd sd'
  /\ has_current_curve sd' = has_current_curve sd
  /\ (exists calls, right sd' = right sd ++ calls)
  /\ (exists calls, left sd' = left sd ++ calls).

(** * Properties *)

(** ** Conditions *)

Lemma Rltb_true (x y : R) : x < y -> Rltb x y = true.
Proof. intros H. unfold Rltb. destruct (Rlt_dec x y); [reflexivity | contradiction]. Qed.

Lemma Rltb_false (x y : R) : y <= x -> Rltb x y = false.
Proof. intros H. unfold Rltb. destruct (Rlt_dec x y); [lra | reflexivity]. Qed.

Lemma Rleb_true (x y : R) : x <= y -> Rleb x y = true.
Proof. intros H. unfold Rleb. destruct (Rle_dec x y); [reflexivity | contradiction]. Qed.

Lemma Rleb_false (x y : R) : y < x -> Rleb x y = false.
Proof. intros H. unfold Rleb. destruct (Rle_dec x y); [lra | reflexivity]. Qed.

(** ** The turn classifier *)

Lemma atan2_bound (y x : R) : - PI < atan2 y x <= PI.
Proof.
  pose proof PI_RGT_0 as Hpi.
  pose proof (atan_bound (y / x)) as Hb.
  unfold atan2.
  destruct (Rlt_dec 0 x) as [Hx | Hx]; [lra |].
  destruct (Rlt_dec x 0) as [Hx' | Hx'].
  - destruct (Rle_dec 0 y) as [Hy | Hy].
    + assert (Hq : y / x <= 0).
      { unfold Rdiv. assert (/ x < 0) by (apply Rinv_lt_0_compat; lra). nra. }
      assert (atan (y / x) <= 0).
      { destruct Hq as [Hq | Hq].
        - left. rewrite <- atan_0. apply atan_increasing. exact Hq.
        - rewrite Hq, atan_0. lra. }
      lra.
    + assert (Hq : 0 < y / x).
      { unfold Rdiv. assert (/ x < 0) by (apply Rinv_lt_0_compat; lra). nra. }
      assert (0 < atan (y / x)).
      { rewrite <- atan_0. apply atan_increasing. exact Hq. }
      lra.
  - destruct (Rlt_dec 0 y); [lra |].
    destruct (Rlt_dec y 0); lra.
Qed.

Lemma atan2_0_1 : atan2 0 1 = 0.
Proof.
  unfold atan2. destruct (Rlt_dec 0 1); [| lra].
  replace (0 / 1) with 0 by lra. apply atan_0.
Qed.

Lemma atan2_0_m1 : atan2 0 (-1) = PI.
Proof.
  unfold atan2. destruct (Rlt_dec 0 (-1)); [lra |].
  destruct (Rlt_dec (-1) 0); [| lra].
  destruct (Rle_dec 0 0); [| lra].
  replace (0 / -1) with 0 by lra. rewrite atan_0. lra.
Qed.

Lemma atan2_1_0 : atan2 1 0 = PI / 2.
Proof.
  unfold atan2. destruct (Rlt_dec 0 0); [lra |].
  destruct (Rlt_dec 0 1); [reflexivity | lra].
Qed.

(** In exact arithmetic the normalised turn angle lies in the closed
    interval from -PI to PI: a difference of exactly -PI is not smaller
    than [- M_PI] and is returned as it is. *)
Lemma angle_between_exact_range (t1 t2 : graphene_vec2_t) :
  - PI <= angle_between t1 t2 <= PI.
Proof.
  pose proof PI_RGT_0 as Hpi.
  pose proof (atan2_bound (vy t1) (vx t1)) as H1.
  pose proof (atan2_bound (vy t2) (vx t2)) as H2.
  unfold angle_between, M_PI, Rltb.
  destruct (Rlt_dec PI _) as [Ha | Ha];
    destruct (Rlt_dec _ (- PI)) as [Hb | Hb]; lra.
Qed.

(** In exact arithmetic the unit tangents (-1, 0) and (1, 0), an exact
    half turn, give -PI.  The C function does not: see
    [angle_between_float_half_turn] below. *)
Lemma angle_between_exact_half_turn :
  angle_between (graphene_vec2_init (-1) 0) (graphene_vec2_init 1 0) = - PI.
Proof.
  pose proof PI_RGT_0 as Hpi.
  unfold angle_between, M_PI. simpl.
  rewrite atan2_0_1, atan2_0_m1.
  rewrite (Rltb_false PI (0 - PI)) by lra.
  rewrite (Rltb_false (0 - PI) (- PI)) by lra. lra.
Qed.

(** ** The stored turn angle *)

Lemma PI_bounds : 3.14159265 < PI < 3.14159266.
Proof.
  pose proof (PI_2_3_7_ineq 4) as [Hlo Hhi].
  unfold sum_f_R0, tg_alt, PI_2_3_7_tg, Ratan_seq in Hlo, Hhi.
  cbn [Nat.mul Nat.add] in Hlo, Hhi.
  rewrite ?S_INR, ?INR_0 in Hlo. rewrite ?S_INR, ?INR_0 in Hhi.
  simpl pow in Hlo, Hhi.
  split; lra.
Qed.

Lemma Zfloor_bounds (x : R) : IZR (Zfloor x) <= x < IZR (Zfloor x) + 1.
Proof.
  unfold Zfloor. rewrite minus_IZR.
  destruct (archimed x) as [H1 H2]. lra.
Qed.

Lemma Zfloor_unique (x : R) (n : Z) : IZR n <= x < IZR n + 1 -> Zfloor x = n.
Proof.
  intros [H1 H2]. pose proof (Zfloor_bounds x) as [H3 H4].
  assert (A : (Zfloor x < n + 1)%Z).
  { apply lt_IZR. rewrite plus_IZR. lra. }
  assert (B : (n < Zfloor x + 1)%Z).
  { apply lt_IZR. rewrite plus_IZR. lra. }
  lia.
Qed.

Lemma Zfloor_le (x : R) (n : Z) : x < IZR n + 1 -> (Zfloor x <= n)%Z.
Proof.
  intros H. pose proof (Zfloor_bounds x) as [H3 H4].
  assert (A : (Zfloor x < n + 1)%Z).
  { apply lt_IZR. rewrite plus_IZR. lra. }
  lia.
Qed.

Lemma Znearest_even_cases (x : R) :
  Znearest_even x = Zfloor x \/ Znearest_even x = (Zfloor x + 1)%Z.
Proof.
  unfold Znearest_even. cbv zeta.
  destruct (Rltb _ _); [left; reflexivity |].
  destruct (Rltb _ _); [right; reflexivity |].
  destruct (Z.even _); [left | right]; reflexivity.
Qed.

Lemma Znearest_even_error (x : R) : Rabs (IZR (Znearest_even x) - x) <= 1 / 2.
Proof.
  pose proof (Zfloor_bounds x) as [H1 H2].
  unfold Znearest_even, Rltb. cbv zeta.
  destruct (Rlt_dec (x - IZR (Zfloor x)) (1 / 2)) as [A | A].
  - apply Rabs_le. lra.
  - destruct (Rlt_dec (1 / 2) (x - IZR (Zfloor x))) as [B | B].
    + rewrite plus_IZR. apply Rabs_le. lra.
    + destruct (Z.even (Zfloor x)).
      * apply Rabs_le. lra.
      * rewrite plus_IZR. apply Rabs_le. lra.
Qed.

Lemma Rabs_le_bounds (x a : R) : Rabs x <= a -> - a <= x <= a.
Proof. unfold Rabs. destruct (Rcase_abs x); lra. Qed.

Lemma Znearest_even_ge (x : R) (k : Z) :
  IZR k - 1 / 2 < x -> (k <= Znearest_even x)%Z.
Proof.
  intros H. pose proof (Znearest_even_error x) as E.
  apply Rabs_le_bounds in E.
  assert (A : (k - 1 < Znearest_even x)%Z).
  { apply lt_IZR. rewrite minus_IZR. lra. }
  lia.
Qed.

Lemma Znearest_even_le (x : R) (k : Z) :
  x < IZR k + 1 / 2 -> (Znearest_even x <= k)%Z.
Proof.
  intros H. pose proof (Znearest_even_error x) as E.
  apply Rabs_le_bounds in E.
  assert (A : (Znearest_even x < k + 1)%Z).
  { apply lt_IZR. rewrite plus_IZR. lra. }
  lia.
Qed.

Lemma Znearest_even_eq (x : R) (k : Z) :
  IZR k - 1 / 2 < x < IZR k + 1 / 2 -> Znearest_even x = k.
Proof.
  intros [H1 H2].
  pose proof (Znearest_even_ge x k H1). pose proof (Znearest_even_le x k H2).
  lia.
Qed.

Lemma ln_2_pos : 0 < ln 2.
Proof. rewrite <- ln_1. apply ln_increasing; lra. Qed.

(** The binade of a value below 2^(k+1), for the few [k] that occur. *)
Lemma binade_below (x : R) (k : nat) :
  Rabs x < 2 ^ (S k) -> (binade x <= Z.of_nat k)%Z.
Proof.
  intros H. unfold binade. apply Zfloor_le.
  pose proof ln_2_pos as L2.
  rewrite <- INR_IZR_INZ.
  destruct (Rle_dec (Rabs x) 0) as [Hz | Hz].
  - assert (E : ln (Rabs x) = 0).
    { unfold ln. destruct (Rlt_dec 0 (Rabs x)) as [Hgt | Hngt];
        [exfalso; apply (Rlt_irrefl 0), (Rlt_le_trans _ _ _ Hgt Hz)
        | reflexivity]. }
    rewrite E. unfold Rdiv. rewrite Rmult_0_l.
    pose proof (pos_INR k). lra.
  - assert (Hpos : 0 < Rabs x) by lra.
    assert (Hln : ln (Rabs x) < ln (2 ^ (S k))) by (apply ln_increasing; lra).
    rewrite ln_pow in Hln by lra. rewrite S_INR in Hln.
    apply (Rmult_lt_reg_r (ln 2)); [exact L2 |].
    unfold Rdiv. rewrite Rmult_assoc, Rinv_l by lra. lra.
Qed.

Lemma binade_between (x : R) (k : nat) :
  2 ^ k <= Rabs x < 2 ^ (S k) -> binade x = Z.of_nat k.
Proof.
  intros [H1 H2]. unfold binade. apply Zfloor_unique.
  pose proof ln_2_pos as L2.
  assert (Hk : 0 < 2 ^ k) by (apply pow_lt; lra).
  assert (Hpos : 0 < Rabs x) by lra.
  rewrite <- INR_IZR_INZ.
  split.
  - assert (Hln : ln (2 ^ k) <= ln (Rabs x)).
    { destruct H1 as [H1 | H1]; [left; apply ln_increasing; lra |].
      rewrite H1. right. reflexivity. }
    rewrite ln_pow in Hln by lra.
    apply (Rmult_le_reg_r (ln 2)); [exact L2 |].
    unfold Rdiv. rewrite Rmult_assoc, Rinv_l by lra. lra.
  - assert (Hln : ln (Rabs x) < ln (2 ^ (S k))) by (apply ln_increasing; lra).
    rewrite ln_pow in Hln by lra. rewrite S_INR in Hln.
    apply (Rmult_lt_reg_r (ln 2)); [exact L2 |].
    unfold Rdiv. rewrite Rmult_assoc, Rinv_l by lra. lra.
Qed.

Lemma powerRZ_2_pos (e : Z) : 0 < powerRZ 2 e.
Proof. apply powerRZ_lt. lra. Qed.

Lemma powerRZ_2_inv (e : Z) : powerRZ 2 (- e) * powerRZ 2 e = 1.
Proof.
  rewrite <- powerRZ_add by lra.
  replace (- e + e)%Z with 0%Z by lia. reflexivity.
Qed.

Lemma powerRZ_2_le (e b : Z) : (e <= b)%Z -> powerRZ 2 e <= powerRZ 2 b.
Proof.
  intros H. replace b with (e + Z.of_nat (Z.to_nat (b - e)))%Z by lia.
  rewrite powerRZ_add by lra. rewrite <- pow_powerRZ.
  pose proof (powerRZ_2_pos e) as Hp.
  pose proof (pow_R1_Rle 2 (Z.to_nat (b - e))) as H1.
  assert (1 <= 2 ^ Z.to_nat (b - e)) by (apply H1; lra).
  nra.
Qed.

(** Rounding moves a value by at most half a unit in the last place. *)
Lemma round_binary_error (prec emin : Z) (x : R) (b : Z) :
  (binade x - (prec - 1) <= b)%Z -> (emin <= b)%Z ->
  Rabs (round_binary prec emin x - x) <= powerRZ 2 b / 2.
Proof.
  intros Hb He. unfold round_binary. cbv zeta.
  set (e := Z.max (binade x - (prec - 1)) emin).
  assert (Hle : (e <= b)%Z) by (unfold e; lia).
  pose proof (powerRZ_2_pos e) as Hp.
  pose proof (powerRZ_2_inv e) as Hinv.
  pose proof (Znearest_even_error (x * powerRZ 2 (- e))) as E.
  assert (Hpow : powerRZ 2 e <= powerRZ 2 b) by (apply powerRZ_2_le; exact Hle).
  replace (IZR (Znearest_even (x * powerRZ 2 (- e))) * powerRZ 2 e - x)
    with ((IZR (Znearest_even (x * powerRZ 2 (- e))) - x * powerRZ 2 (- e))
          * powerRZ 2 e).
  2:{ rewrite Rmult_minus_distr_r, Rmult_assoc, Hinv. ring. }
  rewrite Rabs_mult, (Rabs_pos_eq (powerRZ 2 e)) by lra.
  apply Rle_trans with (1 / 2 * powerRZ 2 e).
  - apply Rmult_le_compat_r; lra.
  - lra.
Qed.

(** In the binade [k] a stored [float] is a multiple of 2^(k - 23). *)
Lemma to_float_binade (x : R) (k : nat) :
  2 ^ k <= Rabs x < 2 ^ (S k) ->
  to_float x
  = IZR (Znearest_even (x * powerRZ 2 (23 - Z.of_nat k)))
    * powerRZ 2 (Z.of_nat k - 23).
Proof.
  intros H. unfold to_float, round_binary. cbv zeta.
  rewrite (binade_between x k H).
  replace (Z.max (Z.of_nat k - (24 - 1)) (-149)) with (Z.of_nat k - 23)%Z by lia.
  replace (- (Z.of_nat k - 23))%Z with (23 - Z.of_nat k)%Z by lia.
  reflexivity.
Qed.

Lemma powerRZ_2_22 : powerRZ 2 22 = 4194304.
Proof.
  unfold powerRZ. change (Pos.to_nat 22) with 22%nat. simpl pow. lra.
Qed.

Lemma powerRZ_2_m22 : powerRZ 2 (-22) = / 4194304.
Proof.
  unfold powerRZ. change (Pos.to_nat 22) with 22%nat. simpl pow.
  f_equal. lra.
Qed.

Lemma powerRZ_2_m50 : powerRZ 2 (-50) = / 1125899906842624.
Proof.
  unfold powerRZ. change (Pos.to_nat 50) with 50%nat. simpl pow.
  f_equal. lra.
Qed.

Lemma powerRZ_2_m21 : powerRZ 2 (-21) = / 2097152.
Proof.
  unfold powerRZ. change (Pos.to_nat 21) with 21%nat. simpl pow.
  f_equal. lra.
Qed.

Lemma powerRZ_2_21 : powerRZ 2 21 = 2097152.
Proof.
  unfold powerRZ. change (Pos.to_nat 21) with 21%nat. simpl pow. lra.
Qed.

Lemma powerRZ_2_m23 : powerRZ 2 (-23) = / 8388608.
Proof.
  unfold powerRZ. change (Pos.to_nat 23) with 23%nat. simpl pow.
  f_equal. lra.
Qed.

Lemma to_double_error (x : R) :
  Rabs x < 8 -> Rabs (to_double x - x) <= / 1000000000000000.
Proof.
  intros H.
  assert (Hb : (binade x <= 2)%Z) by (apply (binade_below x 2); simpl; lra).
  pose proof (round_binary_error 53 (-1074) x (-50)) as E.
  rewrite powerRZ_2_m50 in E. unfold to_double.
  eapply Rle_trans; [apply E; lia |]. lra.
Qed.

Lemma to_float_error (x : R) :
  Rabs x < 8 -> Rabs (to_float x - x) <= / 4194304.
Proof.
  intros H.
  assert (Hb : (binade x <= 2)%Z) by (apply (binade_below x 2); simpl; lra).
  pose proof (round_binary_error 24 (-149) x (-21)) as E.
  rewrite powerRZ_2_m21 in E. unfold to_float.
  eapply Rle_trans; [apply E; lia |]. lra.
Qed.

Lemma to_float_error_small (x : R) :
  Rabs x < 2 -> Rabs (to_float x - x) <= / 16777216.
Proof.
  intros H.
  assert (Hb : (binade x <= 0)%Z) by (apply (binade_below x 0); simpl; lra).
  pose proof (round_binary_error 24 (-149) x (-23)) as E.
  rewrite powerRZ_2_m23 in E. unfold to_float.
  eapply Rle_trans; [apply E; lia |]. lra.
Qed.

Lemma to_float_2_4 (x : R) :
  2 <= Rabs x < 4 ->
  to_float x = IZR (Znearest_even (x * 4194304)) / 4194304.
Proof.
  intros H. rewrite (to_float_binade x 1) by (simpl; lra).
  change (23 - Z.of_nat 1)%Z with 22%Z. change (Z.of_nat 1 - 23)%Z with (-22)%Z.
  rewrite powerRZ_2_22, powerRZ_2_m22. reflexivity.
Qed.

Lemma to_float_4_8 (x : R) :
  4 <= Rabs x < 8 ->
  to_float x = IZR (2 * Znearest_even (x * 2097152)) / 4194304.
Proof.
  intros H. rewrite (to_float_binade x 2) by (simpl; lra).
  change (23 - Z.of_nat 2)%Z with 21%Z. change (Z.of_nat 2 - 23)%Z with (-21)%Z.
  rewrite powerRZ_2_21, powerRZ_2_m21, mult_IZR. field.
Qed.

(** What a [float] of magnitude below 8 can hold: a value of magnitude
    hardly above 2, or a multiple of 2^-22. *)
Lemma to_float_grid (x : R) :
  Rabs x < 8 ->
  Rabs (to_float x) <= 2 + / 16777216
  \/ exists k : Z, to_float x = IZR k / 4194304.
Proof.
  intros H.
  destruct (Rlt_dec (Rabs x) 2) as [H2 | H2].
  - left. pose proof (to_float_error_small x H2) as E.
    apply Rabs_le_bounds in E.
    apply Rabs_le. apply Rabs_def2 in H2. lra.
  - right. destruct (Rlt_dec (Rabs x) 4) as [H4 | H4].
    + eexists. apply to_float_2_4. lra.
    + eexists. apply to_float_4_8. lra.
Qed.

Lemma M_PI_double_bounds :
  13176794 / 4194304 < M_PI_double < 13176795 / 4194304
  /\ 3.1415926535 < M_PI_double < 3.1415926536.
Proof. unfold M_PI_double. lra. Qed.

(** A stored [float] above [M_PI] is at least the next [float] above it,
    and one that is not above it is at most the [float] below it. *)
Lemma float_above_M_PI (a : R) :
  (Rabs a <= 2 + / 16777216 \/ exists k : Z, a = IZR k / 4194304) ->
  (M_PI_double < a -> 13176795 / 4194304 <= a)
  /\ (a <= M_PI_double -> a <= 13176794 / 4194304).
Proof.
  pose proof M_PI_double_bounds as [[B1 B2] _].
  intros [Hs | [k Hk]].
  - apply Rabs_le_bounds in Hs. split; intros; lra.
  - subst a. split; intros H.
    + assert (A : (13176794 < k)%Z) by (apply lt_IZR; lra).
      assert (A' : (13176795 <= k)%Z) by lia.
      apply IZR_le in A'. lra.
    + assert (A : (k < 13176795)%Z) by (apply lt_IZR; lra).
      assert (A' : (k <= 13176794)%Z) by lia.
      apply IZR_le in A'. lra.
Qed.

Lemma float_below_minus_M_PI (a : R) :
  (Rabs a <= 2 + / 16777216 \/ exists k : Z, a = IZR k / 4194304) ->
  (a < - M_PI_double -> a <= - (13176795 / 4194304))
  /\ (- M_PI_double <= a -> - (13176794 / 4194304) <= a).
Proof.
  pose proof M_PI_double_bounds as [[B1 B2] _].
  intros [Hs | [k Hk]].
  - apply Rabs_le_bounds in Hs. split; intros; lra.
  - subst a. split; intros H.
    + assert (A : (k < -13176794)%Z) by (apply lt_IZR; lra).
      assert (A' : (k <= -13176795)%Z) by lia.
      apply IZR_le in A'. lra.
    + assert (A : (-13176795 < k)%Z) by (apply lt_IZR; lra).
      assert (A' : (-13176794 <= k)%Z) by lia.
      apply IZR_le in A'. lra.
Qed.

(** [angle -= 2 * M_PI] on a [float] above [M_PI]. *)
Lemma wrap_down (a : R) :
  13176795 / 4194304 <= a <= 6.2832 ->
  - (13176794 / 4194304)
  <= to_float (to_double (a - 2 * M_PI_double)) <= 1.
Proof.
  intros Ha. pose proof M_PI_double_bounds as [_ [B1 B2]].
  set (y := a - 2 * M_PI_double).
  assert (Hy : Rabs y < 8) by (apply Rabs_def1; unfold y; lra).
  pose proof (to_double_error y Hy) as E1. apply Rabs_le_bounds in E1.
  set (x := to_double y) in *.
  assert (Hx : - (13176794 / 4194304) - 1 / 2 / 4194304 < x < 1 / 2).
  { unfold y, M_PI_double in *. lra. }
  destruct (Rlt_dec (Rabs x) 2) as [H2 | H2].
  - pose proof (to_float_error_small x H2) as E.
    apply Rabs_le_bounds in E. apply Rabs_def2 in H2. lra.
  - assert (Hneg : x <= -2).
    { unfold Rabs in H2. destruct (Rcase_abs x); lra. }
    rewrite to_float_2_4 by (rewrite Rabs_left by lra; lra).
    assert (A : (-13176794 <= Znearest_even (x * 4194304))%Z).
    { apply Znearest_even_ge. lra. }
    assert (B : (Znearest_even (x * 4194304) <= 0)%Z).
    { apply Znearest_even_le. lra. }
    apply IZR_le in A. apply IZR_le in B. lra.
Qed.

(** [angle += 2 * M_PI] on a [float] below [- M_PI]. *)
Lemma wrap_up (a : R) :
  - 6.2832 <= a <= - (13176795 / 4194304) ->
  - 1 <= to_float (to_double (a + 2 * M_PI_double)) <= 13176794 / 4194304.
Proof.
  intros Ha. pose proof M_PI_double_bounds as [_ [B1 B2]].
  set (y := a + 2 * M_PI_double).
  assert (Hy : Rabs y < 8) by (apply Rabs_def1; unfold y; lra).
  pose proof (to_double_error y Hy) as E1. apply Rabs_le_bounds in E1.
  set (x := to_double y) in *.
  assert (Hx : - (1 / 2) < x < 13176794 / 4194304 + 1 / 2 / 4194304).
  { unfold y, M_PI_double in *. lra. }
  destruct (Rlt_dec (Rabs x) 2) as [H2 | H2].
  - pose proof (to_float_error_small x H2) as E.
    apply Rabs_le_bounds in E. apply Rabs_def2 in H2. lra.
  - assert (Hpos : 2 <= x).
    { unfold Rabs in H2. destruct (Rcase_abs x); lra. }
    rewrite to_float_2_4 by (rewrite Rabs_pos_eq by lra; lra).
    assert (A : (Znearest_even (x * 4194304) <= 13176794)%Z).
    { apply Znearest_even_le. lra. }
    assert (B : (0 <= Znearest_even (x * 4194304))%Z).
    { apply Znearest_even_ge. lra. }
    apply IZR_le in A. apply IZR_le in B. lra.
Qed.

(** The stored difference of the two arguments. *)
Lemma stored_difference (y2 x2 y1 x1 : R) :
  let a := to_float (to_double (to_double (atan2 y2 x2)
                                - to_double (atan2 y1 x1))) in
  - 6.2832 <= a <= 6.2832
  /\ (Rabs a <= 2 + / 16777216 \/ exists k : Z, a = IZR k / 4194304).
Proof.
  pose proof PI_bounds as [P1 P2].
  pose proof (atan2_bound y1 x1) as A1.
  pose proof (atan2_bound y2 x2) as A2.
  assert (H1 : Rabs (atan2 y1 x1) < 8) by (apply Rabs_def1; lra).
  assert (H2 : Rabs (atan2 y2 x2) < 8) by (apply Rabs_def1; lra).
  pose proof (to_double_error _ H1) as E1. apply Rabs_le_bounds in E1.
  pose proof (to_double_error _ H2) as E2. apply Rabs_le_bounds in E2.
  set (a1 := to_double (atan2 y1 x1)) in *.
  set (a2 := to_double (atan2 y2 x2)) in *.
  assert (Hd0 : Rabs (a2 - a1) < 8) by (apply Rabs_def1; lra).
  pose proof (to_double_error _ Hd0) as E3. apply Rabs_le_bounds in E3.
  set (d := to_double (a2 - a1)) in *.
  assert (Hd : Rabs d < 8) by (apply Rabs_def1; lra).
  pose proof (to_float_error _ Hd) as E4. apply Rabs_le_bounds in E4.
  cbv zeta. split; [lra |]. apply to_float_grid, Hd.
Qed.

(** C8: the turn angle that the C function returns, with the difference
    stored in a [float] and compared with the [double] constant [M_PI],
    lies in the half-open interval from -PI to PI, whatever the two
    vectors are.  No [float] lies between [M_PI] and the [float] next above
    it, so that a stored difference is wrapped exactly when it lies outside
    the interval, and a wrapped one lands inside. *)
Theorem angle_between_float_range (t1 t2 : graphene_vec2_t) :
  - PI < angle_between_float t1 t2 <= PI.
Proof.
  pose proof PI_bounds as [P1 P2].
  pose proof M_PI_double_bounds as [[B1 B2] _].
  unfold angle_between_float. cbv zeta.
  pose proof (stored_difference (vy t2) (vx t2) (vy t1) (vx t1)) as H.
  cbv zeta in H.
  set (a := to_float (to_double (to_double (atan2 (vy t2) (vx t2))
                                 - to_double (atan2 (vy t1) (vx t1))))) in *.
  clearbody a. destruct H as [Hr Hg].
  pose proof (float_above_M_PI a Hg) as [Up1 Up2].
  pose proof (float_below_minus_M_PI a Hg) as [Dn1 Dn2].
  destruct (Rlt_dec M_PI_double a) as [Hgt | Hle].
  - pose proof (wrap_down a (conj (Up1 Hgt) (proj2 Hr))) as W.
    rewrite (Rltb_true _ _ Hgt).
    rewrite Rltb_false by lra. lra.
  - assert (Hle' : a <= M_PI_double) by lra.
    specialize (Up2 Hle'). rewrite (Rltb_false _ _ Hle').
    destruct (Rlt_dec a (- M_PI_double)) as [Hlt | Hge].
    + pose proof (wrap_up a (conj (proj1 Hr) (Dn1 Hlt))) as W.
      rewrite (Rltb_true _ _ Hlt). lra.
    + assert (Hge' : - M_PI_double <= a) by lra.
      specialize (Dn2 Hge'). rewrite (Rltb_false _ _ Hge'). lra.
Qed.

(** At an exact half turn the stored difference is the [float] nearest to
    PI in magnitude, which lies outside [M_PI]: it is wrapped, and the
    angle returned is the [float] next below PI in magnitude,
    13176794 / 2^22 = 3.1415925..., with the sign opposite to that of the
    difference.  Neither -PI nor PI is returned. *)
Lemma angle_between_float_half_turn :
  angle_between_float (graphene_vec2_init (-1) 0) (graphene_vec2_init 1 0)
  = 13176794 / 4194304
  /\ angle_between_float (graphene_vec2_init 1 0) (graphene_vec2_init (-1) 0)
     = - (13176794 / 4194304).
Proof.
  pose proof PI_bounds as [P1 P2].
  pose proof M_PI_double_bounds as [[B1 B2] [B3 B4]].
  assert (H0 : Rabs 0 < 8) by (rewrite Rabs_R0; lra).
  assert (Hpi : Rabs PI < 8) by (apply Rabs_def1; lra).
  pose proof (to_double_error 0 H0) as E0. apply Rabs_le_bounds in E0.
  pose proof (to_double_error PI Hpi) as Epi. apply Rabs_le_bounds in Epi.
  unfold angle_between_float. cbn [vx vy]. rewrite atan2_0_1, atan2_0_m1.
  set (z := to_double 0) in *. set (p := to_double PI) in *.
  clearbody z p.
  split.
  - assert (Hd0 : Rabs (z - p) < 8) by (apply Rabs_def1; lra).
    pose proof (to_double_error _ Hd0) as Ed. apply Rabs_le_bounds in Ed.
    set (d := to_double (z - p)) in *. clearbody d.
    assert (Ha : to_float d = - (13176795 / 4194304)).
    { rewrite to_float_2_4 by (rewrite Rabs_left by lra; lra).
      rewrite (Znearest_even_eq _ (-13176795)) by lra. lra. }
    rewrite Ha.
    rewrite (Rltb_false M_PI_double (- (13176795 / 4194304))) by lra.
    rewrite (Rltb_true (- (13176795 / 4194304)) (- M_PI_double)) by lra.
    set (y := - (13176795 / 4194304) + 2 * M_PI_double).
    assert (Hy : Rabs y < 8) by (apply Rabs_def1; unfold y; lra).
    pose proof (to_double_error _ Hy) as Ey. apply Rabs_le_bounds in Ey.
    set (x := to_double y) in *.
    assert (Hx : 13176794 / 4194304 - / 4 / 4194304 < x
                 < 13176794 / 4194304 + / 2 / 4194304).
    { unfold y, M_PI_double in *. lra. }
    clearbody x.
    rewrite to_float_2_4 by (rewrite Rabs_pos_eq by lra; lra).
    rewrite (Znearest_even_eq _ 13176794) by lra. reflexivity.
  - assert (Hd0 : Rabs (p - z) < 8) by (apply Rabs_def1; lra).
    pose proof (to_double_error _ Hd0) as Ed. apply Rabs_le_bounds in Ed.
    set (d := to_double (p - z)) in *. clearbody d.
    assert (Ha : to_float d = 13176795 / 4194304).
    { rewrite to_float_2_4 by (rewrite Rabs_pos_eq by lra; lra).
      rewrite (Znearest_even_eq _ 13176795) by lra. reflexivity. }
    rewrite Ha.
    rewrite (Rltb_true M_PI_double (13176795 / 4194304)) by lra.
    set (y := 13176795 / 4194304 - 2 * M_PI_double).
    assert (Hy : Rabs y < 8) by (apply Rabs_def1; unfold y; lra).
    pose proof (to_double_error _ Hy) as Ey. apply Rabs_le_bounds in Ey.
    set (x := to_double y) in *.
    assert (Hx : - (13176794 / 4194304) - / 2 / 4194304 < x
                 < - (13176794 / 4194304) + / 4 / 4194304).
    { unfold y, M_PI_double in *. lra. }
    clearbody x.
    assert (Hf : to_float x = - (13176794 / 4194304)).
    { rewrite to_float_2_4 by (rewrite Rabs_left by lra; lra).
      rewrite (Znearest_even_eq _ (-13176794)) by lra. lra. }
    rewrite Hf. rewrite Rltb_false by lra. reflexivity.
Qed.

(** Rounding leaves a value of the format as it is, and of two values
    equally near it takes the one with the even significand. *)
Lemma to_float_stored (k : Z) :
  2 <= Rabs (IZR k / 4194304) < 4 ->
  to_float (IZR k / 4194304) = IZR k / 4194304.
Proof.
  intros H. rewrite to_float_2_4 by exact H.
  replace (IZR k / 4194304 * 4194304) with (IZR k) by field.
  rewrite (Znearest_even_eq _ k) by lra. reflexivity.
Qed.

Lemma Znearest_even_ties :
  Znearest_even (5 / 2) = 2%Z /\ Znearest_even (7 / 2) = 4%Z.
Proof.
  assert (F2 : Zfloor (5 / 2) = 2%Z) by (apply Zfloor_unique; lra).
  assert (F3 : Zfloor (7 / 2) = 3%Z) by (apply Zfloor_unique; lra).
  unfold Znearest_even. cbv zeta. rewrite F2, F3.
  rewrite !Rltb_false by lra. split; reflexivity.
Qed.

(** ** The join synthesizer *)



Lemma line_intersect_corner :
  line_intersect (GRAPHENE_POINT_INIT 10 (-1)) (graphene_vec2_init 1 0)
                 (GRAPHENE_POINT_INIT 11 0) (graphene_vec2_init 0 1)
                 (indeterminate_point polyline_lib)
  = (true, GRAPHENE_POINT_INIT 11 (-1)).
Proof.
  unfold line_intersect. simpl.
  assert (Hdet : Rabs (0 * - 0 - 1 * - (1)) = 1).
  { replace (0 * - 0 - 1 * - (1)) with 1 by lra. apply Rabs_R1. }
  rewrite Rleb_false by (rewrite Hdet; lra).
  f_equal. f_equal; field.
Qed.

Lemma sqrt2_bounds : 1 < sqrt 2 < 2.
Proof.
  pose proof (sqrt_sqrt 2 ltac:(lra)) as Hs.
  pose proof (sqrt_pos 2) as Hp.
  split; nra.
Qed.

(** The miter ratio of a right-angle turn. *)
Lemma miter_ratio_right_angle :
  1 / Rabs (sin ((PI - PI / 2) / 2)) = sqrt 2.
Proof.
  pose proof sqrt2_bounds as Hs.
  replace ((PI - PI / 2) / 2) with (PI / 4) by field.
  rewrite sin_PI4.
  assert (Hpos : 0 < 1 / sqrt 2).
  { unfold Rdiv. rewrite Rmult_1_l. apply Rinv_0_lt_compat. lra. }
  rewrite Rabs_pos_eq by lra.
  field. lra.
Qed.


(** ** What segments leave alone *)

Section Frame.

Variable lib : GskCurveLib.

Lemma same_contour_refl sd : same_contour sd sd.
Proof. repeat split. Qed.

Lemma same_contour_trans sd1 sd2 sd3 :
  same_contour sd1 sd2 -> same_contour sd2 sd3 -> same_contour sd1 sd3.
Proof.
  intros (A1 & A2 & A3) (B1 & B2 & B3).
  repeat split; congruence.
Qed.

Lemma append_right_same sd curve : same_contour sd (append_right sd curve).
Proof. unfold append_right. destruct (is_first_curve sd); repeat split. Qed.

Lemma append_left_same sd curve : same_contour sd (append_left sd curve).
Proof. unfold append_left. destruct (is_first_curve sd); repeat split. Qed.

Lemma set_right_same v sd : same_contour sd (set_right v sd).
Proof. repeat split. Qed.

Lemma set_left_same v sd : same_contour sd (set_left v sd).
Proof. repeat split. Qed.

Lemma set_r_same v sd : same_contour sd (set_r v sd).
Proof. repeat split. Qed.

Lemma set_l_same v sd : same_contour sd (set_l v sd).
Proof. repeat split. Qed.

Lemma set_c_same v sd : same_contour sd (set_c v sd).
Proof. repeat split. Qed.

Lemma assign_r_same ref sd local v :
  same_contour sd (fst (assign_r ref sd local v)).
Proof. destruct ref; repeat split. Qed.

Lemma assign_l_same ref sd local v :
  same_contour sd (fst (assign_l ref sd local v)).
Proof. destruct ref; repeat split. Qed.

Ltac chain :=
  repeat first
    [ apply same_contour_refl
    | eapply same_contour_trans; [| apply set_right_same]
    | eapply same_contour_trans; [| apply set_left_same]
    | eapply same_contour_trans; [| apply set_r_same]
    | eapply same_contour_trans; [| apply set_l_same]
    | eapply same_contour_trans; [| apply set_c_same]
    | eapply same_contour_trans; [| apply append_right_same]
    | eapply same_contour_trans; [| apply append_left_same] ].

Lemma add_segments_straight_same ref sd lr ll :
  same_contour sd (fst (fst (add_segments_straight ref sd lr ll))).
Proof. unfold add_segments_straight. simpl. chain. Qed.

Lemma add_segments_right_turn_same ref sd curve lr ll t1 t2 angle :
  same_contour sd
    (fst (fst (add_segments_right_turn lib ref sd curve lr ll t1 t2 angle))).
Proof.
  unfold add_segments_right_turn.
  destruct (gsk_curve_intersect lib (r sd) (deref_r ref sd lr))
    as [[[u1 u2] p] |].
  - destruct (assign_r ref (set_r (fst (gsk_curve_split lib (r sd) u1)) sd) lr
                (snd (gsk_curve_split lib
                        (deref_r ref
                           (set_r (fst (gsk_curve_split lib (r sd) u1)) sd) lr)
                        u2))) as [sd1 lr1] eqn:E.
    simpl. chain.
    pose proof (assign_r_same ref
                  (set_r (fst (gsk_curve_split lib (r sd) u1)) sd) lr
                  (snd (gsk_curve_split lib
                          (deref_r ref
                             (set_r (fst (gsk_curve_split lib (r sd) u1)) sd) lr)
                          u2))) as H.
    rewrite E in H. simpl in H.
    eapply same_contour_trans; [| exact H]. chain.
  - simpl. chain.
Qed.

Lemma add_segments_left_turn_same ref sd curve lr ll t1 t2 angle :
  same_contour sd
    (fst (fst (add_segments_left_turn lib ref sd curve lr ll t1 t2 angle))).
Proof.
  unfold add_segments_left_turn.
  set (sd0 := set_right _ (append_right sd (r sd))).
  assert (H0 : same_contour sd sd0) by (unfold sd0; chain).
  clearbody sd0.
  destruct (gsk_curve_intersect lib (l sd0) (deref_l ref sd0 ll))
    as [[[u1 u2] p] |].
  - destruct (assign_l ref (set_l (fst (gsk_curve_split lib (l sd0) u1)) sd0) ll
                (snd (gsk_curve_split lib
                        (deref_l ref
                           (set_l (fst (gsk_curve_split lib (l sd0) u1)) sd0) ll)
                        u2))) as [sd1 ll1] eqn:E.
    simpl. chain.
    pose proof (assign_l_same ref
                  (set_l (fst (gsk_curve_split lib (l sd0) u1)) sd0) ll
                  (snd (gsk_curve_split lib
                          (deref_l ref
                             (set_l (fst (gsk_curve_split lib (l sd0) u1)) sd0) ll)
                          u2))) as H.
    rewrite E in H. simpl in H.
    eapply same_contour_trans; [| exact H].
    eapply same_contour_trans; [exact H0 |]. chain.
  - simpl. eapply same_contour_trans; [exact H0 |]. chain.
Qed.

Lemma add_segments_same ref sd curve lr ll :
  same_contour sd (add_segments lib ref sd curve lr ll).
Proof.
  unfold add_segments.
  destruct (Rltb (Rabs _) (DEG_TO_RAD 5)).
  - pose proof (add_segments_straight_same ref sd lr ll) as H.
    destruct (add_segments_straight ref sd lr ll) as [[sd1 lr1] ll1].
    simpl in H. chain. exact H.
  - destruct (Rltb 0 _).
    + match goal with
      | |- context [add_segments_right_turn lib ref sd curve lr ll ?a ?b ?g] =>
          pose proof (add_segments_right_turn_same ref sd curve lr ll a b g) as H;
          destruct (add_segments_right_turn lib ref sd curve lr ll a b g)
            as [[sd1 lr1] ll1]
      end.
      simpl in H. chain. exact H.
    + match goal with
      | |- context [add_segments_left_turn lib ref sd curve lr ll ?a ?b ?g] =>
          pose proof (add_segments_left_turn_same ref sd curve lr ll a b g) as H;
          destruct (add_segments_left_turn lib ref sd curve lr ll a b g)
            as [[sd1 lr1] ll1]
      end.
      simpl in H. chain. exact H.
Qed.

Lemma add_curve_same sd curve : same_contour sd (add_curve lib sd curve).
Proof.
  unfold add_curve. destruct (negb (has_current_curve sd)).
  - repeat split.
  - eapply same_contour_trans; [apply add_segments_same |]. repeat split.
Qed.

End Frame.

(** ** The subdivider *)

Lemma fold_left_ext {A B : Type} (f g : A -> B -> A) (xs : list B) (a : A) :
  (forall a b, f a b = g a b) -> fold_left f xs a = fold_left g xs a.
Proof.
  intros H. revert a. induction xs as [| x xs IH]; intros a; simpl.
  - reflexivity.
  - rewrite H. apply IH.
Qed.

Lemma fold_left_flat_map {A B C : Type} (g : A -> C -> A) (h : B -> list C)
      (xs : list B) (a : A) :
  fold_left g (flat_map h xs) a
  = fold_left (fun a b => fold_left g (h b) a) xs a.
Proof.
  revert a. induction xs as [| x xs IH]; intros a; simpl.
  - reflexivity.
  - rewrite fold_left_app. apply IH.
Qed.

Lemma fold_left_some {A B : Type} (f : A -> B -> A)
      (g : option A -> B -> option A) (xs : list B) (a : A) :
  (forall a b, g (Some a) b = Some (f a b)) ->
  fold_left g xs (Some a) = Some (fold_left f xs a).
Proof.
  intros H. revert a. induction xs as [| x xs IH]; intros a; simpl.
  - reflexivity.
  - rewrite H. apply IH.
Qed.

Section Subdivider.

Variable lib : GskCurveLib.

(** The subdivider is [add_curve] folded over the pieces it accepts. *)
Lemma subdivide_and_add_curve_pieces (level : nat) :
  forall sd curve,
    subdivide_and_add_curve lib sd curve level
    = fold_left (fun sd p => add_curve lib sd (GSK_CURVE (snd p)))
                (subdivided_pieces lib curve level) sd.
Proof.
  induction level as [| level IH]; intros sd curve.
  - reflexivity.
  - cbn [subdivide_and_add_curve subdivided_pieces].
    destruct ((Z.of_nat (S level) <? MAX_SUBDIVISION)%Z && cubic_is_simple curve).
    + reflexivity.
    + destruct (length (subdivision_parameters curve (Z.of_nat (S level))) =? 2)%nat.
      * destruct (gsk_curve_curve_split curve (1 / 2)) as [c1 c2].
        rewrite fold_left_app, <- IH, <- IH. reflexivity.
      * rewrite fold_left_flat_map. apply fold_left_ext.
        intros a b. apply IH.
Qed.

(** The C recursion, given fuel for more nested calls than the level,
    returns what the structural recursion computes. *)
Lemma subdivide_and_add_curve_rec_eq (level : nat) :
  forall fuel sd curve,
    (level < fuel)%nat ->
    subdivide_and_add_curve_rec lib fuel sd curve (Z.of_nat level)
    = Some (subdivide_and_add_curve lib sd curve level).
Proof.
  induction level as [| level IH]; intros fuel sd curve Hfuel;
    destruct fuel as [| fuel]; try lia.
  - reflexivity.
  - cbn [subdivide_and_add_curve_rec subdivide_and_add_curve].
    replace (Z.of_nat (S level) =? 0)%Z with false
      by (symmetry; apply Z.eqb_neq; lia).
    cbn [orb].
    destruct ((Z.of_nat (S level) <? MAX_SUBDIVISION)%Z && cubic_is_simple curve).
    + reflexivity.
    + replace (Z.of_nat (S level) - 1)%Z with (Z.of_nat level) by lia.
      destruct (length (subdivision_parameters curve (Z.of_nat (S level))) =? 2)%nat.
      * destruct (gsk_curve_curve_split curve (1 / 2)) as [c1 c2].
        rewrite IH by lia. apply IH. lia.
      * apply fold_left_some. intros a b. apply IH. lia.
Qed.

Lemma subdivide_and_add_conic_rec_eq (level : nat) :
  forall fuel sd curve,
    (level < fuel)%nat ->
    subdivide_and_add_conic_rec lib fuel sd curve (Z.of_nat level)
    = Some (subdivide_and_add_conic lib sd curve level).
Proof.
  induction level as [| level IH]; intros fuel sd curve Hfuel;
    destruct fuel as [| fuel]; try lia.
  - reflexivity.
  - cbn [subdivide_and_add_conic_rec subdivide_and_add_conic].
    replace (Z.of_nat (S level) =? 0)%Z with false
      by (symmetry; apply Z.eqb_neq; lia).
    cbn [orb].
    destruct ((Z.of_nat (S level) <? MAX_SUBDIVISION)%Z && conic_is_simple curve).
    + reflexivity.
    + replace (Z.of_nat (S level) - 1)%Z with (Z.of_nat level) by lia.
      destruct (gsk_conic_curve_split lib curve (1 / 2)) as [c1 c2].
      rewrite IH by lia. apply IH. lia.
Qed.

(** C9: for a depth budget between 0 and 8 both subdividers return.  With
    fuel for [level + 1] nested calls, which is at most 9, the C recursion
    reaches its result, the one of the descent from [level] to 0 in steps
    of one: the calls never nest deeper than 8 below the first one.  At
    level 0 the first call accepts the curve whatever it is. *)
Theorem subdivide_terminates
  (sd : StrokeData) (cubic : GskCurveCurve) (conic : GskConicCurve)
  (level : Z) :
  (0 <= level <= MAX_SUBDIVISION)%Z ->
  (S (Z.to_nat level) <= 9)%nat
  /\ subdivide_and_add_curve_rec lib (S (Z.to_nat level)) sd cubic level
     = Some (subdivide_and_add_curve lib sd cubic (Z.to_nat level))
  /\ subdivide_and_add_conic_rec lib (S (Z.to_nat level)) sd conic level
     = Some (subdivide_and_add_conic lib sd conic (Z.to_nat level))
  /\ subdivide_and_add_curve_rec lib 1 sd cubic 0
     = Some (add_curve lib sd (GSK_CURVE cubic))
  /\ subdivide_and_add_conic_rec lib 1 sd conic 0
     = Some (add_curve lib sd (GSK_CONIC conic)).
Proof.
  intros Hlevel. unfold MAX_SUBDIVISION in Hlevel.
  split; [lia |].
  split.
  { rewrite <- (Z2Nat.id level) at 2 by lia.
    apply subdivide_and_add_curve_rec_eq. lia. }
  split.
  { rewrite <- (Z2Nat.id level) at 2 by lia.
    apply subdivide_and_add_conic_rec_eq. lia. }
  split; reflexivity.
Qed.

Lemma fold_left_same {B : Type} (f : StrokeData -> B -> StrokeData)
      (xs : list B) :
  (forall sd b, same_contour sd (f sd b)) ->
  forall sd, same_contour sd (fold_left f xs sd).
Proof.
  intros H. induction xs as [| x xs IH]; intros sd; simpl.
  - apply same_contour_refl.
  - eapply same_contour_trans; [apply H | apply IH].
Qed.

Lemma subdivide_and_add_curve_same sd curve level :
  same_contour sd (subdivide_and_add_curve lib sd curve level).
Proof.
  rewrite subdivide_and_add_curve_pieces.
  apply fold_left_same. intros. apply add_curve_same.
Qed.

Lemma subdivide_and_add_conic_same level :
  forall sd curve, same_contour sd (subdivide_and_add_conic lib sd curve level).
Proof.
  induction level as [| level IH]; intros sd curve.
  - apply add_curve_same.
  - cbn [subdivide_and_add_conic].
    destruct ((Z.of_nat (S level) <? MAX_SUBDIVISION)%Z && conic_is_simple curve).
    + apply add_curve_same.
    + destruct (gsk_conic_curve_split lib curve (1 / 2)) as [c1 c2].
      eapply same_contour_trans; apply IH.
Qed.

Lemma stroke_op_segment_same sd ev :
  is_segment ev = true -> same_contour sd (stroke_op lib sd ev).
Proof.
  destruct ev; intros H; try discriminate H; unfold stroke_op.
  - apply add_curve_same.
  - apply subdivide_and_add_curve_same.
  - apply subdivide_and_add_conic_same.
Qed.

Lemma segments_same segs :
  forallb is_segment segs = true ->
  forall sd, same_contour sd (fold_left (stroke_op lib) segs sd).
Proof.
  induction segs as [| ev segs IH]; simpl; intros H sd.
  - apply same_contour_refl.
  - apply andb_prop in H. destruct H as [H1 H2].
    eapply same_contour_trans; [apply stroke_op_segment_same, H1 | apply IH, H2].
Qed.

End Subdivider.
(** ** Finishing contours *)

Section Contours.
Variable lib : GskCurveLib.

Lemma cap_and_connect_contours_deposit sd :
  exists path,
    builder (cap_and_connect_contours lib sd) = builder sd ++ [path]
    /\ path_is_closed path.
Proof.
  unfold cap_and_connect_contours, path_is_closed.
  destruct (has_current_curve sd) eqn:Hc; destruct (is_first_curve sd) eqn:Hf;
    do 4 (cbn -[path_builder_add_reverse_path add_line_cap path_builder_add_curve];
          rewrite ?Hc, ?Hf);
    unfold gsk_path_builder_add_path, gsk_path_builder_free_to_path,
      gsk_path_builder_close;
    eexists; split; try reflexivity; eexists; reflexivity.
Qed.

Lemma close_contours_deposit sd :
  exists outer inner,
    builder (close_contours lib sd) = builder sd ++ [outer; inner]
    /\ path_is_closed outer /\ path_is_closed inner.
Proof.
  unfold close_contours, path_is_closed.
  destruct (has_current_curve sd) eqn:Hc.
  - pose proof (add_segments_same lib first_segment sd (c0 sd) (r0 sd) (l0 sd))
      as (Hb & _ & _).
    set (sd1 := add_segments lib first_segment sd (c0 sd) (r0 sd) (l0 sd)) in *.
    clearbody sd1.
    cbn -[path_builder_add_curve].
    unfold gsk_path_builder_add_path, gsk_path_builder_free_to_path,
      gsk_path_builder_close.
    rewrite Hb, <- app_assoc.
    do 2 eexists. split; [reflexivity |]. split; eexists; reflexivity.
  - cbn. unfold gsk_path_builder_add_path, gsk_path_builder_free_to_path,
      gsk_path_builder_close.
    rewrite <- app_assoc.
    do 2 eexists. split; [reflexivity |]. split; eexists; reflexivity.
Qed.

Lemma stroke_op_move sd p :
  has_current_point (stroke_op lib sd (GSK_PATH_MOVE p)) = true
  /\ builder (stroke_op lib sd (GSK_PATH_MOVE p))
     = builder (if has_current_point sd
                then cap_and_connect_contours lib sd else sd).
Proof. split; reflexivity. Qed.

Lemma stroke_op_close sd a b :
  has_current_point sd = true ->
  has_current_point (stroke_op lib sd (GSK_PATH_CLOSE a b)) = false
  /\ exists outer inner,
       builder (stroke_op lib sd (GSK_PATH_CLOSE a b))
       = builder sd ++ [outer; inner]
       /\ path_is_closed outer /\ path_is_closed inner.
Proof.
  intros Hp. split; [reflexivity |].
  unfold stroke_op. rewrite Hp.
  set (sd1 := if negb (graphene_point_near a b (1 / 1000))
              then add_curve lib sd (GSK_LINE a b) else sd).
  assert (H1 : builder sd1 = builder sd).
  { unfold sd1. destruct (negb _); [apply add_curve_same | reflexivity]. }
  destruct (close_contours_deposit sd1) as (outer & inner & Hb & Ho & Hi).
  exists outer, inner. split; [| split; assumption].
  cbn [builder set_has_current_point set_has_current_curve].
  rewrite Hb, H1. reflexivity.
Qed.

Lemma stroke_data_after_app evs ev sink params :
  stroke_data_after lib (evs ++ [ev]) sink params
  = stroke_op lib (stroke_data_after lib evs sink params) ev.
Proof. unfold stroke_data_after. rewrite fold_left_app. reflexivity. Qed.

Lemma stroke_data_after_segments evs segs sink params :
  forallb is_segment segs = true ->
  same_contour (stroke_data_after lib evs sink params)
               (stroke_data_after lib (evs ++ segs) sink params).
Proof.
  intros H. unfold stroke_data_after. rewrite fold_left_app.
  apply segments_same, H.
Qed.

(** C3: when the events of a contour are MOVE, segments, CLOSE, the CLOSE
    finds a current point and the stroke call deposits exactly two
    sub-paths for the contour, both closed.  [before] is the sink as the
    MOVE leaves it; it is the sink of the caller when the MOVE is the first
    event. *)
Theorem closed_contour_two_subpaths
  (contour : GskContour) (sink : GskPathSink) (params : GskStroke)
  (pre segs : list GskPathEvent) (p a b : graphene_point_t) :
  delivered_events lib contour params
  = pre ++ GSK_PATH_MOVE p :: segs ++ [GSK_PATH_CLOSE a b] ->
  forallb is_segment segs = true ->
  let before :=
    builder (stroke_data_after lib (pre ++ [GSK_PATH_MOVE p]) sink params) in
  has_current_point
    (stroke_data_after lib (pre ++ GSK_PATH_MOVE p :: segs) sink params) = true
  /\ (pre = [] -> before = sink)
  /\ exists outer inner,
       gsk_contour_default_add_stroke lib contour sink params
       = before ++ [outer; inner]
       /\ path_is_closed outer /\ path_is_closed inner.
Proof.
  intros Hev Hsegs before.
  pose proof (stroke_data_after_segments (pre ++ [GSK_PATH_MOVE p]) segs
                sink params Hsegs) as (Hb & _ & Hp).
  rewrite <- app_assoc in Hb, Hp. cbn [app] in Hb, Hp.
  rewrite stroke_data_after_app in Hp.
  destruct (stroke_op_move (stroke_data_after lib pre sink params) p)
    as [Hm _].
  rewrite Hm in Hp.
  split; [exact Hp |].
  split.
  { intros ->. reflexivity. }
  destruct (stroke_op_close
              (stroke_data_after lib (pre ++ GSK_PATH_MOVE p :: segs) sink params)
              a b Hp) as (Hf & outer & inner & Hd & Ho & Hi).
  exists outer, inner. split; [| split; assumption].
  unfold gsk_contour_default_add_stroke. rewrite Hev.
  replace (pre ++ GSK_PATH_MOVE p :: segs ++ [GSK_PATH_CLOSE a b])
    with ((pre ++ GSK_PATH_MOVE p :: segs) ++ [GSK_PATH_CLOSE a b])
    by (rewrite <- app_assoc; reflexivity).
  change (fold_left (stroke_op lib) ?e (initial_stroke_data sink params))
    with (stroke_data_after lib e sink params).
  rewrite stroke_data_after_app, Hf, Hd, Hb. reflexivity.
Qed.

(** C4: when the events of a contour are a MOVE and segments, none or
    more, with no CLOSE, the current point is still set when the contour
    ends, and [cap_and_connect_contours] deposits exactly one sub-path for
    it, which is closed: the driver calls it after the walk at the end of
    the stream, and [stroke_op] calls it when the next MOVE arrives. *)
Theorem open_contour_one_subpath
  (contour : GskContour) (sink : GskPathSink) (params : GskStroke)
  (pre segs : list GskPathEvent) (p : graphene_point_t) :
  delivered_events lib contour params = pre ++ GSK_PATH_MOVE p :: segs ->
  forallb is_segment segs = true ->
  let before :=
    builder (stroke_data_after lib (pre ++ [GSK_PATH_MOVE p]) sink params) in
  let sd := stroke_data_after lib (pre ++ GSK_PATH_MOVE p :: segs) sink params in
  has_current_point sd = true
  /\ builder sd = before
  /\ (pre = [] -> before = sink)
  /\ exists path,
       path_is_closed path
       /\ builder (cap_and_connect_contours lib sd) = before ++ [path]
       /\ gsk_contour_default_add_stroke lib contour sink params
          = builder (cap_and_connect_contours lib sd)
       /\ forall q,
            builder (stroke_op lib sd (GSK_PATH_MOVE q))
            = builder (cap_and_connect_contours lib sd).
Proof.
  intros Hev Hsegs before sd.
  pose proof (stroke_data_after_segments (pre ++ [GSK_PATH_MOVE p]) segs
                sink params Hsegs) as (Hb & _ & Hp).
  rewrite <- app_assoc in Hb, Hp. cbn [app] in Hb, Hp.
  rewrite stroke_data_after_app in Hp.
  destruct (stroke_op_move (stroke_data_after lib pre sink params) p)
    as [Hm _].
  rewrite Hm in Hp. fold sd in Hp, Hb. fold before in Hb.
  split; [exact Hp |].
  split; [exact Hb |].
  split.
  { intros ->. reflexivity. }
  destruct (cap_and_connect_contours_deposit sd) as (path & Hd & Hc).
  exists path. split; [exact Hc |].
  split; [rewrite Hd, Hb; reflexivity |].
  split.
  - unfold gsk_contour_default_add_stroke. rewrite Hev.
    change (fold_left (stroke_op lib) (pre ++ GSK_PATH_MOVE p :: segs)
              (initial_stroke_data sink params)) with sd.
    rewrite Hp. reflexivity.
  - intros q. destruct (stroke_op_move sd q) as [_ Hq].
    rewrite Hq, Hp. reflexivity.
Qed.

End Contours.

(** ** Instances of the statements above *)

Lemma delivered_events_undashed (lib : GskCurveLib) (contour : GskContour)
      (params : GskStroke) :
  dash_length params <= 0 ->
  delivered_events lib contour params = contour.
Proof.
  intros H. unfold delivered_events. rewrite Rleb_true by exact H. reflexivity.
Qed.

Lemma subdivide_terminates_witness :
  (0 <= 3 <= MAX_SUBDIVISION)%Z /\
  subdivide_and_add_curve_rec polyline_lib (S (Z.to_nat 3))
    (initial_stroke_data [] butt_miter_stroke) turning_cubic 3
  = Some (subdivide_and_add_curve polyline_lib
            (initial_stroke_data [] butt_miter_stroke) turning_cubic
            (Z.to_nat 3)).
Proof.
  assert (H : (0 <= 3 <= MAX_SUBDIVISION)%Z) by (unfold MAX_SUBDIVISION; lia).
  split; [exact H |].
  exact (proj1 (proj2 (subdivide_terminates polyline_lib
           (initial_stroke_data [] butt_miter_stroke) turning_cubic
           (mk_conic origin origin 1 origin) 3 H))).
Defined.

Lemma closed_contour_two_subpaths_witness :
  delivered_events polyline_lib triangle_contour butt_miter_stroke
  = [] ++ GSK_PATH_MOVE (GRAPHENE_POINT_INIT 0 0)
       :: [GSK_PATH_LINE (GRAPHENE_POINT_INIT 0 0) (GRAPHENE_POINT_INIT 10 0);
           GSK_PATH_LINE (GRAPHENE_POINT_INIT 10 0) (GRAPHENE_POINT_INIT 10 10)]
       ++ [GSK_PATH_CLOSE (GRAPHENE_POINT_INIT 10 10) (GRAPHENE_POINT_INIT 0 0)]
  /\ exists outer inner,
       gsk_contour_default_add_stroke polyline_lib triangle_contour []
         butt_miter_stroke = [] ++ [outer; inner]
       /\ path_is_closed outer /\ path_is_closed inner.
Proof.
  assert (H : delivered_events polyline_lib triangle_contour butt_miter_stroke
              = [] ++ GSK_PATH_MOVE (GRAPHENE_POINT_INIT 0 0)
                  :: [GSK_PATH_LINE (GRAPHENE_POINT_INIT 0 0)
                                    (GRAPHENE_POINT_INIT 10 0);
                      GSK_PATH_LINE (GRAPHENE_POINT_INIT 10 0)
                                    (GRAPHENE_POINT_INIT 10 10)]
                  ++ [GSK_PATH_CLOSE (GRAPHENE_POINT_INIT 10 10)
                                     (GRAPHENE_POINT_INIT 0 0)]).
  { apply delivered_events_undashed. simpl. lra. }
  split; [exact H |].
  exact (proj2 (proj2 (closed_contour_two_subpaths polyline_lib
           triangle_contour [] butt_miter_stroke [] _ _ _ _ H eq_refl))).
Defined.

Lemma open_contour_one_subpath_witness :
  delivered_events polyline_lib corner_contour butt_miter_stroke
  = [] ++ GSK_PATH_MOVE (GRAPHENE_POINT_INIT 0 0)
       :: [GSK_PATH_LINE (GRAPHENE_POINT_INIT 0 0) (GRAPHENE_POINT_INIT 10 0);
           GSK_PATH_LINE (GRAPHENE_POINT_INIT 10 0) (GRAPHENE_POINT_INIT 10 10)]
  /\ exists path,
       path_is_closed path
       /\ gsk_contour_default_add_stroke polyline_lib corner_contour []
            butt_miter_stroke = [path].
Proof.
  assert (H : delivered_events polyline_lib corner_contour butt_miter_stroke
              = [] ++ GSK_PATH_MOVE (GRAPHENE_POINT_INIT 0 0)
                  :: [GSK_PATH_LINE (GRAPHENE_POINT_INIT 0 0)
                                    (GRAPHENE_POINT_INIT 10 0);
                      GSK_PATH_LINE (GRAPHENE_POINT_INIT 10 0)
                                    (GRAPHENE_POINT_INIT 10 10)]).
  { apply delivered_events_undashed. simpl. lra. }
  split; [exact H |].
  destruct (open_contour_one_subpath polyline_lib
              corner_contour [] butt_miter_stroke [] _ _ H eq_refl)
    as (_ & _ & Hs & path & Hc & Hd & He & _).
  exists path. split; [exact Hc |].
  rewrite He, Hd, (Hs eq_refl). reflexivity.
Defined.

(** ** Scenario S1: one horizontal line *)

Lemma get_normal_east :
  get_normal (GRAPHENE_POINT_INIT 0 0) (GRAPHENE_POINT_INIT 10 0)
  = graphene_vec2_init 0 1.
Proof.
  unfold get_normal, graphene_vec2_normalize, graphene_vec2_length. simpl.
  replace ((0 - 0) * (0 - 0) + (10 - 0) * (10 - 0)) with (10 * 10) by lra.
  rewrite sqrt_square by lra.
  f_equal; field.
Qed.

Lemma offset_east_right (lib : GskCurveLib) :
  gsk_curve_offset lib
    (GSK_LINE (GRAPHENE_POINT_INIT 0 0) (GRAPHENE_POINT_INIT 10 0)) (2 / 2)
  = GSK_LINE (GRAPHENE_POINT_INIT 0 1) (GRAPHENE_POINT_INIT 10 1).
Proof.
  unfold gsk_curve_offset, gsk_line_curve_offset. rewrite get_normal_east.
  unfold scale_point. simpl. f_equal; f_equal; field.
Qed.

Lemma offset_east_left (lib : GskCurveLib) :
  gsk_curve_offset lib
    (GSK_LINE (GRAPHENE_POINT_INIT 0 0) (GRAPHENE_POINT_INIT 10 0)) (- 2 / 2)
  = GSK_LINE (GRAPHENE_POINT_INIT 0 (-1)) (GRAPHENE_POINT_INIT 10 (-1)).
Proof.
  unfold gsk_curve_offset, gsk_line_curve_offset. rewrite get_normal_east.
  unfold scale_point. simpl. f_equal; f_equal; field.
Qed.

(** C5: MOVE (0,0), LINE (0,0) to (10,0), left open, with line width 2,
    butt caps and miter joins: the stroke call deposits exactly one
    sub-path, the closed rectangle through (0,1), (10,1), (10,-1), (0,-1). *)
Theorem stroke_single_line_rectangle
  (lib : GskCurveLib) (sink : GskPathSink) (limit : R) :
  gsk_contour_default_add_stroke lib
    [GSK_PATH_MOVE (GRAPHENE_POINT_INIT 0 0);
     GSK_PATH_LINE (GRAPHENE_POINT_INIT 0 0) (GRAPHENE_POINT_INIT 10 0)]
    sink
    (mk_stroke 2 GSK_LINE_CAP_BUTT GSK_LINE_JOIN_MITER limit [] 0 0)
  = sink ++ [[move_to 0 1; line_to 10 1; line_to 10 (-1); line_to 0 (-1);
              line_to 0 1; close]].
Proof.
  unfold gsk_contour_default_add_stroke.
  rewrite delivered_events_undashed by (simpl; lra).
  cbn -[gsk_curve_offset].
  rewrite offset_east_right, offset_east_left.
  reflexivity.
Qed.

(** ** Reversing a path *)

Lemma path_builder_add_curve_call (b : GskPathBuilder) (curve : GskCurve) :
  path_builder_add_curve b curve = b ++ [curve_call curve].
Proof. destruct curve; reflexivity. Qed.

Lemma fold_path_builder_add_curve (cs : list GskCurve) :
  forall b, fold_left path_builder_add_curve cs b = b ++ map curve_call cs.
Proof.
  induction cs as [| x cs IH]; intros b; simpl.
  - rewrite app_nil_r. reflexivity.
  - rewrite IH, path_builder_add_curve_call, <- app_assoc. reflexivity.
Qed.

Lemma fold_add_op (evs : list GskPathEvent) :
  forall ops,
    fold_left (fun ops ev => add_op ev ops) evs ops
    = map gsk_curve_reverse (rev (event_curves evs)) ++ ops.
Proof.
  unfold event_curves.
  induction evs as [| ev evs IH]; intros ops; simpl.
  - reflexivity.
  - rewrite IH. destruct ev; simpl; try reflexivity;
      rewrite map_app, <- app_assoc; reflexivity.
Qed.

Lemma gsk_curve_reverse_start (curve : GskCurve) :
  gsk_curve_get_start_point (gsk_curve_reverse curve)
  = gsk_curve_get_end_point curve.
Proof. destruct curve; reflexivity. Qed.

Lemma gsk_curve_reverse_end (curve : GskCurve) :
  gsk_curve_get_end_point (gsk_curve_reverse curve)
  = gsk_curve_get_start_point curve.
Proof. destruct curve; reflexivity. Qed.

Lemma chained_app (xs : list GskCurve) (a b : GskCurve) :
  chained (xs ++ [a]) ->
  gsk_curve_get_end_point a = gsk_curve_get_start_point b ->
  chained ((xs ++ [a]) ++ [b]).
Proof.
  induction xs as [| x xs IH]; intros H Hab.
  - simpl. split; [exact Hab | exact I].
  - destruct xs as [| y xs].
    + simpl in *. destruct H as [H1 _]. repeat split; assumption.
    + simpl in H. destruct H as [H1 H2].
      simpl. split; [exact H1 |]. apply IH; assumption.
Qed.

Lemma chained_reverse (cs : list GskCurve) :
  chained cs -> chained (map gsk_curve_reverse (rev cs)).
Proof.
  induction cs as [| a cs IH]; intros H.
  - exact I.
  - destruct cs as [| b cs].
    + exact I.
    + simpl in H. destruct H as [Hab H].
      specialize (IH H).
      change (rev (a :: b :: cs)) with ((rev cs ++ [b]) ++ [a]).
      rewrite map_app. simpl map at 2.
      change (rev (b :: cs)) with (rev cs ++ [b]) in IH.
      rewrite map_app in IH. simpl map at 2 in IH.
      rewrite map_app. simpl map at 2.
      apply chained_app.
      * exact IH.
      * rewrite gsk_curve_reverse_end, gsk_curve_reverse_start.
        symmetry. exact Hab.
Qed.

Lemma first_point_reverse (cs : list GskCurve) :
  first_point (map gsk_curve_reverse (rev cs)) = last_point cs.
Proof.
  unfold first_point, last_point.
  destruct (rev cs) as [| x xs]; simpl.
  - reflexivity.
  - rewrite gsk_curve_reverse_start. reflexivity.
Qed.

Lemma last_point_reverse (cs : list GskCurve) :
  last_point (map gsk_curve_reverse (rev cs)) = first_point cs.
Proof.
  unfold first_point, last_point.
  rewrite <- map_rev, rev_involutive.
  destruct cs as [| x xs]; simpl.
  - reflexivity.
  - rewrite gsk_curve_reverse_end. reflexivity.
Qed.

(** C10: [path_builder_add_reverse_path] appends to the builder the calls
    for the segments of the path, MOVE events left out, taken last to first
    and each reversed.  What is appended starts where the path ends and
    ends where the path starts, and is connected when the path is. *)
Theorem path_builder_add_reverse_path_spec
  (lib : GskCurveLib) (builder : GskPathBuilder) (path : GskPath) :
  let segments :=
    flat_map (fun ev => match gsk_curve_init_foreach ev with
                        | Some c => [c]
                        | None => []
                        end)
             (filter (fun ev => negb (is_move ev)) (gsk_path_foreach lib path)) in
  let reversed := map gsk_curve_reverse (rev segments) in
  path_builder_add_reverse_path lib builder path
  = builder ++ map curve_call reversed
  /\ first_point reversed = last_point segments
  /\ last_point reversed = first_point segments
  /\ (chained segments -> chained reversed).
Proof.
  intros segments reversed.
  split; [| split; [| split]].
  - unfold path_builder_add_reverse_path.
    rewrite fold_add_op, app_nil_r.
    apply fold_path_builder_add_curve.
  - apply first_point_reverse.
  - apply last_point_reverse.
  - apply chained_reverse.
Qed.

Lemma path_builder_add_reverse_path_spec_witness :
  let path := [move_to 0 (-1); line_to 10 (-1); line_to 10 5] in
  chained (path_segments polyline_lib path)
  /\ chained (map gsk_curve_reverse (rev (path_segments polyline_lib path)))
  /\ path_builder_add_reverse_path polyline_lib [move_to 10 1] path
     = [move_to 10 1; line_to 10 (-1); line_to 0 (-1)].
Proof.
  cbv zeta.
  assert (H : chained (path_segments polyline_lib
                         [move_to 0 (-1); line_to 10 (-1); line_to 10 5])).
  { simpl. repeat split. }
  split; [exact H |].
  split.
  - exact (proj2 (proj2 (proj2 (path_builder_add_reverse_path_spec polyline_lib
             [move_to 10 1] [move_to 0 (-1); line_to 10 (-1); line_to 10 5])))
             H).
  - exact (proj1 (path_builder_add_reverse_path_spec polyline_lib
             [move_to 10 1] [move_to 0 (-1); line_to 10 (-1); line_to 10 5])).
Defined.

(** ** Scenario: a right-angle turn *)

Lemma get_tangent_east :
  get_tangent (GRAPHENE_POINT_INIT 0 0) (GRAPHENE_POINT_INIT 10 0)
  = graphene_vec2_init 1 0.
Proof.
  unfold get_tangent, graphene_vec2_normalize, graphene_vec2_length. simpl.
  replace ((10 - 0) * (10 - 0) + (0 - 0) * (0 - 0)) with (10 * 10) by lra.
  rewrite sqrt_square by lra.
  f_equal; field.
Qed.

Lemma get_tangent_south :
  get_tangent (GRAPHENE_POINT_INIT 10 0) (GRAPHENE_POINT_INIT 10 10)
  = graphene_vec2_init 0 1.
Proof.
  unfold get_tangent, graphene_vec2_normalize, graphene_vec2_length. simpl.
  replace ((10 - 10) * (10 - 10) + (10 - 0) * (10 - 0)) with (10 * 10) by lra.
  rewrite sqrt_square by lra.
  f_equal; field.
Qed.

Lemma get_normal_south :
  get_normal (GRAPHENE_POINT_INIT 10 0) (GRAPHENE_POINT_INIT 10 10)
  = graphene_vec2_init (-1) 0.
Proof.
  unfold get_normal, graphene_vec2_normalize, graphene_vec2_length. simpl.
  replace ((0 - 10) * (0 - 10) + (10 - 10) * (10 - 10)) with (10 * 10) by lra.
  rewrite sqrt_square by lra.
  f_equal; field.
Qed.

Lemma offset_south_right (lib : GskCurveLib) :
  gsk_curve_offset lib
    (GSK_LINE (GRAPHENE_POINT_INIT 10 0) (GRAPHENE_POINT_INIT 10 10)) (2 / 2)
  = GSK_LINE (GRAPHENE_POINT_INIT 9 0) (GRAPHENE_POINT_INIT 9 10).
Proof.
  unfold gsk_curve_offset, gsk_line_curve_offset. rewrite get_normal_south.
  unfold scale_point. simpl. f_equal; f_equal; field.
Qed.

Lemma offset_south_left (lib : GskCurveLib) :
  gsk_curve_offset lib
    (GSK_LINE (GRAPHENE_POINT_INIT 10 0) (GRAPHENE_POINT_INIT 10 10)) (- 2 / 2)
  = GSK_LINE (GRAPHENE_POINT_INIT 11 0) (GRAPHENE_POINT_INIT 11 10).
Proof.
  unfold gsk_curve_offset, gsk_line_curve_offset. rewrite get_normal_south.
  unfold scale_point. simpl. f_equal; f_equal; field.
Qed.

Lemma angle_between_east_south :
  angle_between (graphene_vec2_init 1 0) (graphene_vec2_init 0 1) = PI / 2.
Proof.
  pose proof PI_RGT_0 as Hpi.
  unfold angle_between, M_PI. simpl.
  rewrite atan2_0_1, atan2_1_0.
  rewrite (Rltb_false PI) by lra.
  rewrite (Rltb_false _ (- PI)) by lra. lra.
Qed.

Lemma right_offsets_cross :
  line_line_crossing (GRAPHENE_POINT_INIT 0 1) (GRAPHENE_POINT_INIT 10 1)
                     (GRAPHENE_POINT_INIT 9 0) (GRAPHENE_POINT_INIT 9 10)
  = Some (9 / 10, 1 / 10, GRAPHENE_POINT_INIT 9 1).
Proof.
  unfold line_line_crossing. simpl.
  assert (Hdet : (10 - 0) * (10 - 0) - (1 - 1) * (9 - 9) = 100) by lra.
  rewrite Hdet.
  rewrite Rltb_true by (rewrite Rabs_pos_eq; lra).
  replace (((9 - 0) * (10 - 0) - (0 - 1) * (9 - 9)) / 100) with (9 / 10) by field.
  replace (((9 - 0) * (1 - 1) - (0 - 1) * (10 - 0)) / 100) with (1 / 10) by field.
  rewrite !Rleb_true by lra. simpl.
  unfold lerp_point. simpl. do 3 f_equal; field.
Qed.

Lemma split_right_before :
  gsk_line_curve_split (GRAPHENE_POINT_INIT 0 1) (GRAPHENE_POINT_INIT 10 1) (9 / 10)
  = (GSK_LINE (GRAPHENE_POINT_INIT 0 1) (GRAPHENE_POINT_INIT 9 1),
     GSK_LINE (GRAPHENE_POINT_INIT 9 1) (GRAPHENE_POINT_INIT 10 1)).
Proof.
  unfold gsk_line_curve_split, lerp_point. simpl.
  replace (0 + 9 / 10 * (10 - 0)) with 9 by field.
  replace (1 + 9 / 10 * (1 - 1)) with 1 by field.
  reflexivity.
Qed.

Lemma split_right_after :
  gsk_line_curve_split (GRAPHENE_POINT_INIT 9 0) (GRAPHENE_POINT_INIT 9 10) (1 / 10)
  = (GSK_LINE (GRAPHENE_POINT_INIT 9 0) (GRAPHENE_POINT_INIT 9 1),
     GSK_LINE (GRAPHENE_POINT_INIT 9 1) (GRAPHENE_POINT_INIT 9 10)).
Proof.
  unfold gsk_line_curve_split, lerp_point. simpl.
  replace (9 + 1 / 10 * (9 - 9)) with 9 by field.
  replace (0 + 1 / 10 * (10 - 0)) with 1 by field.
  reflexivity.
Qed.

Lemma stroke_data_after_first_line :
  stroke_data_after polyline_lib
    [GSK_PATH_MOVE (GRAPHENE_POINT_INIT 0 0);
     GSK_PATH_LINE (GRAPHENE_POINT_INIT 0 0) (GRAPHENE_POINT_INIT 10 0)]
    [] butt_miter_stroke
  = after_first_line.
Proof.
  unfold stroke_data_after.
  cbn -[gsk_curve_offset].
  rewrite offset_east_right, offset_east_left.
  reflexivity.
Qed.

Lemma turn_angle_corner :
  turn_angle polyline_lib after_first_line
    (GSK_LINE (GRAPHENE_POINT_INIT 10 0) (GRAPHENE_POINT_INIT 10 10)) = PI / 2.
Proof.
  unfold turn_angle. simpl.
  rewrite get_tangent_east, get_tangent_south.
  apply angle_between_east_south.
Qed.

Lemma add_curve_corner :
  add_curve polyline_lib after_first_line
    (GSK_LINE (GRAPHENE_POINT_INIT 10 0) (GRAPHENE_POINT_INIT 10 10))
  = after_corner.
Proof.
  pose proof PI_RGT_0 as Hpi.
  unfold add_curve.
  change (negb (has_current_curve after_first_line)) with false. cbv iota.
  change (line_width (stroke after_first_line)) with 2.
  rewrite offset_south_right, offset_south_left.
  unfold add_segments.
  change (angle_between _ _) with
    (turn_angle polyline_lib after_first_line
       (GSK_LINE (GRAPHENE_POINT_INIT 10 0) (GRAPHENE_POINT_INIT 10 10))).
  rewrite turn_angle_corner.
  rewrite Rltb_false
    by (unfold DEG_TO_RAD, M_PI; rewrite Rabs_pos_eq; lra).
  rewrite Rltb_true by lra.
  unfold add_segments_right_turn.
  cbn -[line_line_crossing gsk_line_curve_split add_line_join get_tangent].
  rewrite right_offsets_cross.
  cbn -[line_line_crossing gsk_line_curve_split add_line_join get_tangent].
  rewrite split_right_before, split_right_after.
  cbn -[line_line_crossing gsk_line_curve_split add_line_join get_tangent].
  rewrite get_tangent_east, get_tangent_south.
  unfold add_line_join.
  cbn -[line_intersect Rleb indeterminate_point].
  rewrite line_intersect_corner.
  unfold M_PI. rewrite miter_ratio_right_angle.
  rewrite Rleb_true by (pose proof sqrt2_bounds; lra).
  reflexivity.
Qed.

(** ** Turns *)

Section Turns.

Variable lib : GskCurveLib.

Lemma add_line_join_prefix builder stroke c a ta b tb angle :
  exists calls,
    add_line_join lib builder stroke c a ta b tb angle = builder ++ calls.
Proof.
  unfold add_line_join, path_builder_line_to_point, gsk_path_builder_line_to,
    gsk_path_builder_svg_arc_to.
  destruct (line_join stroke);
    try destruct (line_intersect a ta b tb (indeterminate_point lib))
      as [[|] p];
    try destruct (Rleb _ _);
    rewrite <- ?app_assoc;
    try (eexists; reflexivity).
  all: exists []; rewrite app_nil_r; reflexivity.
Qed.

(** C1, as the code has it: when the turn angle between the pending
    segment and the arriving one is positive and not within 5 degrees of
    straight, the right offsets are intersected and trimmed, or connected by
    a line when they do not cross, and the join is synthesized on the left
    sub-path, whose offsets stay whole.  [ref] tells whether the arriving
    offsets are the locals of [add_curve] or, at the closure of a contour,
    the saved first offsets. *)
Theorem right_turn_trims_right_joins_left
  (ref : CurveRef) (sd : StrokeData) (curve lr ll : GskCurve) :
  let tangent1 := gsk_curve_get_end_tangent lib (c sd) in
  let tangent2 := gsk_curve_get_start_tangent lib curve in
  let angle := angle_between tangent1 tangent2 in
  DEG_TO_RAD 5 <= Rabs angle ->
  0 < angle ->
  let sd' := add_segments lib ref sd curve lr ll in
  let flushed := append_left sd (l sd) in
  left sd'
  = add_line_join lib (left flushed) (stroke sd)
      (gsk_curve_get_start_point curve)
      (gsk_curve_get_end_point (l sd)) tangent1
      (gsk_curve_get_start_point (deref_l ref flushed ll)) tangent2 angle
  /\ right sd'
     = match gsk_curve_intersect lib (r sd) (deref_r ref sd lr) with
       | Some (t1, _, _) =>
           right (append_right sd (fst (gsk_curve_split lib (r sd) t1)))
       | None =>
           path_builder_line_to_point
             (right (append_right sd (r sd)))
             (gsk_curve_get_start_point
                (deref_r ref (append_right sd (r sd)) lr))
       end
  /\ (ref = caller_local ->
      l sd' = ll
      /\ r sd'
         = match gsk_curve_intersect lib (r sd) lr with
           | Some (_, t2, _) => snd (gsk_curve_split lib lr t2)
           | None => lr
           end).
Proof.
  intros tangent1 tangent2 angle Hnot_straight Hpos sd' flushed.
  unfold sd', add_segments. fold tangent1 tangent2 angle.
  rewrite (Rltb_false _ _ Hnot_straight), (Rltb_true _ _ Hpos).
  unfold add_segments_right_turn, flushed.
  split; [| split].
  - destruct ref; destruct (gsk_curve_intersect lib (r sd) _)
      as [[[t1 t2] p] |];
      unfold append_left, append_right;
      destruct (is_first_curve sd) eqn:Hf; do 3 (cbn; rewrite ?Hf);
        reflexivity.
  - destruct ref; destruct (gsk_curve_intersect lib (r sd) _)
      as [[[t1 t2] p] |];
      unfold append_left, append_right;
      destruct (is_first_curve sd) eqn:Hf; do 3 (cbn; rewrite ?Hf);
        reflexivity.
  - intros ->. cbn [deref_r].
    destruct (gsk_curve_intersect lib (r sd) lr) as [[[t1 t2] p] |];
      unfold append_left, append_right;
      destruct (is_first_curve sd) eqn:Hf; do 3 (cbn; rewrite ?Hf);
        split; reflexivity.
Qed.

(** C7, as the code has it: when a segment has arrived, the pending [c] is
    that segment and the pending [r] and [l] are its offsets at +w/2 and
    -w/2, except for the one on the inside of the turn with the segment
    before.  For a positive turn angle of 5 degrees or more that is [r],
    for any other turn of 5 degrees or more [l]: when
    [gsk_curve_intersect] finds a crossing of the offset pending before
    with the arriving offset, at the parameter [t2] on the arriving one,
    what is kept is the second part of the arriving offset split at [t2],
    from the crossing to its end.  The offset on the outside, both offsets
    of a turn within 5 degrees of straight, and both offsets of the first
    segment of a contour are whole. *)
Theorem add_curve_pending_offsets (sd : StrokeData) (curve : GskCurve) :
  let w := line_width (stroke sd) in
  let off_r := gsk_curve_offset lib curve (w / 2) in
  let off_l := gsk_curve_offset lib curve (- w / 2) in
  let angle := turn_angle lib sd curve in
  let sd' := add_curve lib sd curve in
  c sd' = curve
  /\ (has_current_curve sd = false -> r sd' = off_r /\ l sd' = off_l)
  /\ (has_current_curve sd = true ->
      (Rabs angle < DEG_TO_RAD 5 -> r sd' = off_r /\ l sd' = off_l)
      /\ (DEG_TO_RAD 5 <= Rabs angle -> 0 < angle ->
          l sd' = off_l
          /\ r sd' = match gsk_curve_intersect lib (r sd) off_r with
                     | Some (_, t2, _) => snd (gsk_curve_split lib off_r t2)
                     | None => off_r
                     end)
      /\ (DEG_TO_RAD 5 <= Rabs angle -> angle <= 0 ->
          r sd' = off_r
          /\ l sd' = match gsk_curve_intersect lib (l sd) off_l with
                     | Some (_, t2, _) => snd (gsk_curve_split lib off_l t2)
                     | None => off_l
                     end)).
Proof.
  intros w off_r off_l angle sd'.
  unfold sd', add_curve. fold w off_l off_r.
  destruct (has_current_curve sd) eqn:Hc; cbn [negb].
  - split; [| split; [intros H; discriminate H |]].
    { unfold add_segments.
      destruct (Rltb (Rabs _) (DEG_TO_RAD 5)); [| destruct (Rltb 0 _)].
      - reflexivity.
      - unfold add_segments_right_turn. cbn [deref_r assign_r].
        destruct (gsk_curve_intersect lib (r sd) off_r) as [[[t1 t2] p] |];
          reflexivity.
      - unfold add_segments_left_turn. cbn [deref_l assign_l].
        match goal with
        | |- context [gsk_curve_intersect lib ?a off_l] =>
            destruct (gsk_curve_intersect lib a off_l) as [[[t1 t2] p] |]
        end; reflexivity. }
    intros _. unfold add_segments.
    change (angle_between (gsk_curve_get_end_tangent lib (c sd))
                          (gsk_curve_get_start_tangent lib curve))
      with angle.
    split; [| split].
    + intros Hs. rewrite (Rltb_true _ _ Hs).
      unfold add_segments_straight. split; reflexivity.
    + intros Hn Hp. rewrite (Rltb_false _ _ Hn), (Rltb_true _ _ Hp).
      unfold add_segments_right_turn. cbn [deref_r assign_r].
      destruct (gsk_curve_intersect lib (r sd) off_r) as [[[t1 t2] p] |];
        split; reflexivity.
    + intros Hn Hp. rewrite (Rltb_false _ _ Hn), (Rltb_false _ _ Hp).
      unfold add_segments_left_turn. cbn [deref_l assign_l].
      assert (Hl : l (set_right
                        (add_line_join lib (right (append_right sd (r sd)))
                           (stroke (append_right sd (r sd)))
                           (gsk_curve_get_start_point curve)
                           (gsk_curve_get_end_point (r (append_right sd (r sd))))
                           (gsk_curve_get_end_tangent lib (c sd))
                           (gsk_curve_get_start_point off_r)
                           (gsk_curve_get_start_tangent lib curve) angle)
                        (append_right sd (r sd))) = l sd).
      { unfold append_right. destruct (is_first_curve sd); reflexivity. }
      cbv zeta. cbn [deref_r]. rewrite Hl.
      destruct (gsk_curve_intersect lib (l sd) off_l) as [[[t1 t2] p] |];
        split; reflexivity.
  - split; [reflexivity |].
    split; [intros _; split; reflexivity | intros H; discriminate H].
Qed.

End Turns.

Lemma stroke_data_after_corner :
  stroke_data_after polyline_lib corner_contour [] butt_miter_stroke
  = after_corner.
Proof.
  unfold corner_contour.
  change [GSK_PATH_MOVE (GRAPHENE_POINT_INIT 0 0);
          GSK_PATH_LINE (GRAPHENE_POINT_INIT 0 0) (GRAPHENE_POINT_INIT 10 0);
          GSK_PATH_LINE (GRAPHENE_POINT_INIT 10 0) (GRAPHENE_POINT_INIT 10 10)]
    with ([GSK_PATH_MOVE (GRAPHENE_POINT_INIT 0 0);
           GSK_PATH_LINE (GRAPHENE_POINT_INIT 0 0) (GRAPHENE_POINT_INIT 10 0)]
            ++ [GSK_PATH_LINE (GRAPHENE_POINT_INIT 10 0)
                              (GRAPHENE_POINT_INIT 10 10)]).
  rewrite stroke_data_after_app, stroke_data_after_first_line.
  exact add_curve_corner.
Qed.

Lemma corner_turn_not_straight :
  DEG_TO_RAD 5 <= Rabs (PI / 2) /\ 0 < PI / 2.
Proof.
  pose proof PI_RGT_0 as Hpi.
  unfold DEG_TO_RAD, M_PI. rewrite Rabs_pos_eq by lra. lra.
Qed.

Lemma right_turn_trims_right_joins_left_witness :
  let south := GSK_LINE (GRAPHENE_POINT_INIT 10 0) (GRAPHENE_POINT_INIT 10 10) in
  let south_r := GSK_LINE (GRAPHENE_POINT_INIT 9 0) (GRAPHENE_POINT_INIT 9 10) in
  let south_l := GSK_LINE (GRAPHENE_POINT_INIT 11 0) (GRAPHENE_POINT_INIT 11 10) in
  let angle := turn_angle polyline_lib after_first_line south in
  DEG_TO_RAD 5 <= Rabs angle /\ 0 < angle
  /\ l (add_segments polyline_lib caller_local after_first_line
          south south_r south_l) = south_l.
Proof.
  cbv zeta.
  assert (H : DEG_TO_RAD 5
              <= Rabs (turn_angle polyline_lib after_first_line
                         (GSK_LINE (GRAPHENE_POINT_INIT 10 0)
                                   (GRAPHENE_POINT_INIT 10 10)))
              /\ 0 < turn_angle polyline_lib after_first_line
                       (GSK_LINE (GRAPHENE_POINT_INIT 10 0)
                                 (GRAPHENE_POINT_INIT 10 10))).
  { rewrite turn_angle_corner. exact corner_turn_not_straight. }
  destruct H as [H1 H2].
  split; [exact H1 |]. split; [exact H2 |].
  exact (proj1 (proj2 (proj2 (right_turn_trims_right_joins_left polyline_lib
           caller_local after_first_line
           (GSK_LINE (GRAPHENE_POINT_INIT 10 0) (GRAPHENE_POINT_INIT 10 10))
           (GSK_LINE (GRAPHENE_POINT_INIT 9 0) (GRAPHENE_POINT_INIT 9 10))
           (GSK_LINE (GRAPHENE_POINT_INIT 11 0) (GRAPHENE_POINT_INIT 11 10))
           H1 H2)) eq_refl)).
Defined.

(** C1 fails as stated: at the right-angle turn of [corner_contour] the
    angle is PI/2, positive, and yet the right sub-path receives no join:
    it holds two moves only and the right offsets are trimmed at their
    crossing (9, 1), while the miter join through (11, -1) is on the left
    sub-path and the left offsets are whole. *)
Lemma right_turn_join_is_on_the_left :
  let south := GSK_LINE (GRAPHENE_POINT_INIT 10 0) (GRAPHENE_POINT_INIT 10 10) in
  let sd := stroke_data_after polyline_lib
              [GSK_PATH_MOVE (GRAPHENE_POINT_INIT 0 0);
               GSK_PATH_LINE (GRAPHENE_POINT_INIT 0 0) (GRAPHENE_POINT_INIT 10 0)]
              [] butt_miter_stroke in
  let sd' := stroke_op polyline_lib sd
               (GSK_PATH_LINE (GRAPHENE_POINT_INIT 10 0)
                              (GRAPHENE_POINT_INIT 10 10)) in
  0 < turn_angle polyline_lib sd south
  /\ right sd' = [move_to 0 1; move_to 9 1]
  /\ r0 sd' = GSK_LINE (GRAPHENE_POINT_INIT 0 1) (GRAPHENE_POINT_INIT 9 1)
  /\ r sd' = GSK_LINE (GRAPHENE_POINT_INIT 9 1) (GRAPHENE_POINT_INIT 9 10)
  /\ left sd'
     = [move_to 0 (-1); move_to 10 (-1); line_to 11 (-1); line_to 11 0]
  /\ l0 sd' = gsk_curve_offset polyline_lib (c0 sd') (- line_width (stroke sd') / 2)
  /\ l sd' = gsk_curve_offset polyline_lib (c sd') (- line_width (stroke sd') / 2)
  /\ ~ (exists join,
          right sd'
          = add_line_join polyline_lib (right (append_right sd (r sd)))
              (stroke sd) (gsk_curve_get_start_point south)
              (gsk_curve_get_end_point (r sd))
              (gsk_curve_get_end_tangent polyline_lib (c sd))
              join
              (gsk_curve_get_start_tangent polyline_lib south)
              (turn_angle polyline_lib sd south)).
Proof.
  cbv zeta. rewrite stroke_data_after_first_line.
  change (stroke_op polyline_lib after_first_line
            (GSK_PATH_LINE (GRAPHENE_POINT_INIT 10 0) (GRAPHENE_POINT_INIT 10 10)))
    with (add_curve polyline_lib after_first_line
            (GSK_LINE (GRAPHENE_POINT_INIT 10 0) (GRAPHENE_POINT_INIT 10 10))).
  rewrite add_curve_corner, turn_angle_corner.
  pose proof corner_turn_not_straight as [_ Hpos].
  split; [exact Hpos |].
  do 4 (split; [reflexivity |]).
  split; [symmetry; apply offset_east_left |].
  split; [symmetry; apply offset_south_left |].
  intros [join Hjoin].
  destruct (add_line_join_prefix polyline_lib
              (right (append_right after_first_line (r after_first_line)))
              (stroke after_first_line)
              (gsk_curve_get_start_point
                 (GSK_LINE (GRAPHENE_POINT_INIT 10 0) (GRAPHENE_POINT_INIT 10 10)))
              (gsk_curve_get_end_point (r after_first_line))
              (gsk_curve_get_end_tangent polyline_lib (c after_first_line))
              join
              (gsk_curve_get_start_tangent polyline_lib
                 (GSK_LINE (GRAPHENE_POINT_INIT 10 0) (GRAPHENE_POINT_INIT 10 10)))
              (PI / 2)) as [calls Hcalls].
  rewrite Hcalls in Hjoin. cbn in Hjoin.
  injection Hjoin as Hx _. lra.
Qed.

Lemma add_curve_pending_offsets_witness :
  let south := GSK_LINE (GRAPHENE_POINT_INIT 10 0) (GRAPHENE_POINT_INIT 10 10) in
  let sd := after_first_line in
  let angle := turn_angle polyline_lib sd south in
  let sd' := add_curve polyline_lib sd south in
  has_current_curve sd = true
  /\ DEG_TO_RAD 5 <= Rabs angle /\ 0 < angle
  /\ l sd' = gsk_curve_offset polyline_lib south (- line_width (stroke sd) / 2)
  /\ r sd'
     = match gsk_curve_intersect polyline_lib (r sd)
               (gsk_curve_offset polyline_lib south (line_width (stroke sd) / 2))
       with
       | Some (_, t2, _) =>
           snd (gsk_curve_split polyline_lib
                  (gsk_curve_offset polyline_lib south
                     (line_width (stroke sd) / 2)) t2)
       | None => gsk_curve_offset polyline_lib south (line_width (stroke sd) / 2)
       end.
Proof.
  cbv zeta.
  assert (H : DEG_TO_RAD 5
              <= Rabs (turn_angle polyline_lib after_first_line
                         (GSK_LINE (GRAPHENE_POINT_INIT 10 0)
                                   (GRAPHENE_POINT_INIT 10 10)))
              /\ 0 < turn_angle polyline_lib after_first_line
                       (GSK_LINE (GRAPHENE_POINT_INIT 10 0)
                                 (GRAPHENE_POINT_INIT 10 10))).
  { rewrite turn_angle_corner. exact corner_turn_not_straight. }
  destruct H as [H1 H2].
  split; [reflexivity |]. split; [exact H1 |]. split; [exact H2 |].
  exact (proj1 (proj2 (proj2 (proj2
           (add_curve_pending_offsets polyline_lib after_first_line
              (GSK_LINE (GRAPHENE_POINT_INIT 10 0) (GRAPHENE_POINT_INIT 10 10))))
           eq_refl)) H1 H2).
Defined.

(** C7 fails as stated: when the second line of [corner_contour] has
    arrived, the pending right curve runs from (9, 1) to (9, 10): it is the
    offset of the pending segment at +w/2, from (9, 0) to (9, 10), cut at
    its start, with its end where the offset ends. *)
Lemma pending_offset_is_trimmed_at_its_start :
  let sd := stroke_data_after polyline_lib corner_contour [] butt_miter_stroke in
  let off_r := gsk_curve_offset polyline_lib (c sd) (line_width (stroke sd) / 2) in
  off_r = GSK_LINE (GRAPHENE_POINT_INIT 9 0) (GRAPHENE_POINT_INIT 9 10)
  /\ r sd = GSK_LINE (GRAPHENE_POINT_INIT 9 1) (GRAPHENE_POINT_INIT 9 10)
  /\ r sd <> off_r
  /\ gsk_curve_get_start_point (r sd) <> gsk_curve_get_start_point off_r
  /\ gsk_curve_get_end_point (r sd) = gsk_curve_get_end_point off_r.
Proof.
  cbv zeta. rewrite stroke_data_after_corner.
  change (c after_corner)
    with (GSK_LINE (GRAPHENE_POINT_INIT 10 0) (GRAPHENE_POINT_INIT 10 10)).
  change (line_width (stroke after_corner)) with 2.
  rewrite offset_south_right.
  split; [reflexivity |]. split; [reflexivity |].
  split; [| split].
  - intros H. injection H as H. lra.
  - intros H. injection H as H. lra.
  - reflexivity.
Qed.

(** ** Pieces of the subdivider *)

Lemma axis_cubic_split (s : R) (a : AxisCubic) :
  0 < s ->
  gsk_curve_curve_split (axis_cubic s a) (1 / 2)
  = (axis_cubic (8 * s) (axis_left_half a),
     axis_cubic (8 * s) (axis_right_half a)).
Proof.
  intros Hs. destruct a as [[[a0 a1] a2] a3].
  unfold gsk_curve_curve_split, axis_cubic, axis_left_half, axis_right_half,
    lerp_point.
  cbn [cubic_p0 cubic_p1 cubic_p2 cubic_p3 px py].
  rewrite !plus_IZR, !mult_IZR, !plus_IZR, !mult_IZR.
  f_equal; f_equal; f_equal; field; lra.
Qed.

Lemma normalize_down (d : R) :
  d < 0 ->
  graphene_vec2_normalize (graphene_vec2_init (0 - 0) d)
  = graphene_vec2_init 0 (-1).
Proof.
  intros Hd. unfold graphene_vec2_normalize, graphene_vec2_length. simpl.
  replace ((0 - 0) * (0 - 0) + d * d) with ((- d) * (- d)) by ring.
  rewrite sqrt_square by lra.
  f_equal; field; lra.
Qed.

Lemma normalize_up (d : R) :
  0 < d ->
  graphene_vec2_normalize (graphene_vec2_init (0 - 0) d)
  = graphene_vec2_init 0 1.
Proof.
  intros Hd. unfold graphene_vec2_normalize, graphene_vec2_length. simpl.
  replace ((0 - 0) * (0 - 0) + d * d) with (d * d) by ring.
  rewrite sqrt_square by lra.
  f_equal; field; lra.
Qed.

Lemma acos_m1 : acos (-1) = PI.
Proof. replace (-1) with (Ropp 1) by lra. rewrite acos_opp, acos_1. lra. Qed.

(** A cubic on the x axis that turns back is not simple: its end normals
    are opposite. *)
Lemma axis_turns_back_not_simple (s : R) (a : AxisCubic) :
  0 < s -> axis_turns_back a = true -> cubic_is_simple (axis_cubic s a) = false.
Proof.
  intros Hs Ha. destruct a as [[[a0 a1] a2] a3].
  unfold axis_turns_back in Ha. apply andb_prop in Ha. destruct Ha as [H1 H2].
  apply Z.ltb_lt in H1, H2. apply IZR_lt in H1, H2.
  assert (Hinv : 0 < / s) by (apply Rinv_0_lt_compat; exact Hs).
  unfold cubic_is_simple.
  destruct (_ || _); [reflexivity |].
  unfold axis_cubic, get_normal.
  cbn [cubic_p0 cubic_p1 cubic_p2 cubic_p3 px py].
  rewrite normalize_down by (unfold Rdiv; nra).
  rewrite normalize_up by (unfold Rdiv; nra).
  unfold graphene_vec2_dot. cbn [vx vy].
  replace (0 * 0 + -1 * 1) with (-1) by ring.
  rewrite acos_m1.
  pose proof PI_RGT_0 as Hpi.
  rewrite Rleb_true by (unfold M_PI; rewrite Rabs_pos_eq; lra).
  reflexivity.
Qed.

Section Pieces.

Variable lib : GskCurveLib.

Lemma subdivided_pieces_below (level : nat) (curve : GskCurveCurve) :
  (S level < 8)%nat ->
  cubic_is_simple curve = false ->
  subdivided_pieces lib curve (S level)
  = subdivided_pieces lib (fst (gsk_curve_curve_split curve (1 / 2))) level
    ++ subdivided_pieces lib (snd (gsk_curve_curve_split curve (1 / 2))) level.
Proof.
  intros Hlevel Hsimple.
  cbn [subdivided_pieces]. rewrite Hsimple, andb_false_r.
  unfold subdivision_parameters.
  replace (Z.of_nat (S level) =? MAX_SUBDIVISION)%Z with false
    by (symmetry; apply Z.eqb_neq; unfold MAX_SUBDIVISION; lia).
  cbn [length Nat.eqb].
  destruct (gsk_curve_curve_split curve (1 / 2)) as [c1 c2]. reflexivity.
Qed.

(** Below the first level, a piece on the x axis that keeps turning back
    through [level] halvings leaves a piece that is accepted at level 0 and
    is not simple. *)
Lemma axis_keeps_turning_piece (level : nat) :
  forall (s : R) (a : AxisCubic),
    (level < 8)%nat -> 0 < s ->
    axis_keeps_turning level a = true ->
    exists piece,
      In (O, piece) (subdivided_pieces lib (axis_cubic s a) level)
      /\ cubic_is_simple piece = false.
Proof.
  induction level as [| level IH]; intros s a Hlevel Hs Ha;
    cbn [axis_keeps_turning] in Ha; apply andb_prop in Ha;
    destruct Ha as [Hturn Hrest].
  - exists (axis_cubic s a). split.
    + left. reflexivity.
    + apply axis_turns_back_not_simple; assumption.
  - rewrite subdivided_pieces_below
      by (try assumption; apply axis_turns_back_not_simple; assumption).
    rewrite axis_cubic_split by exact Hs. cbn [fst snd].
    apply orb_prop in Hrest.
    destruct Hrest as [Hl | Hr].
    + destruct (IH (8 * s) (axis_left_half a)) as (piece & Hin & Hns);
        try assumption; try lia; try lra.
      exists piece. split; [apply in_or_app; left; exact Hin | exact Hns].
    + destruct (IH (8 * s) (axis_right_half a)) as (piece & Hin & Hns);
        try assumption; try lia; try lra.
      exists piece. split; [apply in_or_app; right; exact Hin | exact Hns].
Qed.

(** C6, as the code has it: of the pieces that the subdivider, started
    with the depth budget 8, hands to [add_curve], those accepted above
    level 0 are simple; those that reach level 0, after eight successive
    subdivisions, are accepted whether they are simple or not. *)
Theorem subdivided_pieces_simple_above_level_0
  (stroke_data : StrokeData) (curve : GskCurveCurve) :
  let pieces := subdivided_pieces lib curve (Z.to_nat MAX_SUBDIVISION) in
  subdivide_and_add_curve lib stroke_data curve (Z.to_nat MAX_SUBDIVISION)
  = fold_left (fun sd p => add_curve lib sd (GSK_CURVE (snd p))) pieces
              stroke_data
  /\ Forall (fun p => fst p = O
                      \/ ((0 < fst p < 8)%nat /\ cubic_is_simple (snd p) = true))
            pieces.
Proof.
  intros pieces. split; [apply subdivide_and_add_curve_pieces |].
  unfold pieces. clear pieces. generalize (Z.to_nat MAX_SUBDIVISION) as level.
  intros level. revert curve.
  induction level as [| level IH]; intros curve.
  - constructor; [left; reflexivity | constructor].
  - cbn [subdivided_pieces].
    destruct ((Z.of_nat (S level) <? MAX_SUBDIVISION)%Z) eqn:Hlt;
      [destruct (cubic_is_simple curve) eqn:Hsimple |]; cbn [andb].
    + constructor; [| constructor]. right. cbn [fst snd].
      apply Z.ltb_lt in Hlt. unfold MAX_SUBDIVISION in Hlt.
      split; [lia | exact Hsimple].
    + destruct (length _ =? 2)%nat.
      * destruct (gsk_curve_curve_split curve (1 / 2)) as [c1 c2].
        apply Forall_app. split; apply IH.
      * apply Forall_flat_map. apply Forall_forall. intros ab _. apply IH.
    + destruct (length _ =? 2)%nat.
      * destruct (gsk_curve_curve_split curve (1 / 2)) as [c1 c2].
        apply Forall_app. split; apply IH.
      * apply Forall_flat_map. apply Forall_forall. intros ab _. apply IH.
Qed.

End Pieces.

Lemma turning_cubic_on_axis :
  turning_cubic = axis_cubic 1 (0, -4, -3, 9)%Z.
Proof.
  unfold turning_cubic, axis_cubic. f_equal; f_equal; field.
Qed.

Lemma get_tangent_turning_chord :
  get_tangent (GRAPHENE_POINT_INIT 0 0) (GRAPHENE_POINT_INIT 9 0)
  = graphene_vec2_init 1 0.
Proof.
  unfold get_tangent, graphene_vec2_normalize, graphene_vec2_length. simpl.
  replace ((9 - 0) * (9 - 0) + (0 - 0) * (0 - 0)) with (9 * 9) by lra.
  rewrite sqrt_square by lra.
  f_equal; field.
Qed.

Lemma turning_cubic_curvature_points :
  cubic_curvature_points turning_cubic = [].
Proof.
  unfold cubic_curvature_points, align_points, turning_cubic.
  cbn [cubic_p0 cubic_p1 cubic_p2 cubic_p3].
  rewrite get_tangent_turning_chord. cbn [vx vy].
  rewrite atan2_0_1, Ropp_0, sin_0, cos_0.
  cbn [map nth px py].
  rewrite Rleb_false; [reflexivity |].
  match goal with
  | |- Rabs ?e < _ => replace e with 0 by ring
  end.
  rewrite Rabs_R0. lra.
Qed.

Lemma turning_cubic_first_cut (lib : GskCurveLib) :
  subdivided_pieces lib turning_cubic (Z.to_nat MAX_SUBDIVISION)
  = subdivided_pieces lib (fst (gsk_curve_curve_split turning_cubic (1 / 2))) 7
    ++ subdivided_pieces lib (snd (gsk_curve_curve_split turning_cubic (1 / 2))) 7.
Proof.
  change (Z.to_nat MAX_SUBDIVISION) with 8%nat.
  cbn [subdivided_pieces].
  change (Z.of_nat 8 <? MAX_SUBDIVISION)%Z with false. cbn [andb].
  unfold subdivision_parameters.
  change (Z.of_nat 8 =? MAX_SUBDIVISION)%Z with true. cbv iota.
  rewrite turning_cubic_curvature_points.
  unfold qsort, cmpfloat. cbn [app fold_right qsort_insert].
  rewrite (Rltb_true 0 1) by lra.
  cbn [Z.leb Z.compare length Nat.eqb].
  destruct (gsk_curve_curve_split turning_cubic (1 / 2)) as [c1 c2].
  reflexivity.
Qed.

Example turning_cubic_keeps_turning :
  axis_keeps_turning 7 (axis_left_half (0, -4, -3, 9)%Z) = true.
Proof. vm_compute. reflexivity. Qed.

(** Whatever the library: [turning_cubic] leaves a piece that reaches
    level 0 and is not simple. *)
Lemma turning_cubic_piece (lib : GskCurveLib) :
  exists piece,
    In (O, piece)
       (subdivided_pieces lib turning_cubic (Z.to_nat MAX_SUBDIVISION))
    /\ cubic_is_simple piece = false.
Proof.
  rewrite turning_cubic_first_cut, turning_cubic_on_axis.
  rewrite axis_cubic_split by lra. cbn [fst snd].
  destruct (axis_keeps_turning_piece lib 7 (8 * 1)
              (axis_left_half (0, -4, -3, 9)%Z))
    as (piece & Hin & Hns).
  - lia.
  - lra.
  - exact turning_cubic_keeps_turning.
  - exists piece. split; [apply in_or_app; left; exact Hin | exact Hns].
Qed.

(** C6 fails as stated: among the pieces that the subdivider, started with
    the depth budget 8, hands to [add_curve] for [turning_cubic], there is
    one, accepted at level 0, that is not simple. *)
Lemma turning_cubic_piece_not_simple :
  exists piece,
    In (O, piece)
       (subdivided_pieces polyline_lib turning_cubic (Z.to_nat MAX_SUBDIVISION))
    /\ cubic_is_simple piece = false.
Proof. exact (turning_cubic_piece polyline_lib). Qed.

(** * Further properties of the code *)

(** ** More on the graphene utilities *)

(** X1: when [line_intersect] reports an intersection, the point it stores
    lies on the line through [a] with direction [ab] and on the line
    through [c] with direction [cd]. *)
Theorem line_intersect_on_both_lines
  (a : graphene_point_t) (ab : graphene_vec2_t)
  (c : graphene_point_t) (cd : graphene_vec2_t) (p0 p : graphene_point_t) :
  line_intersect a ab c cd p0 = (true, p) ->
  (px p - px a) * vy ab - (py p - py a) * vx ab = 0
  /\ (px p - px c) * vy cd - (py p - py c) * vx cd = 0.
Proof.
  unfold line_intersect.
  set (det := vy ab * - vx cd - vy cd * - vx ab).
  unfold Rleb. destruct (Rle_dec (Rabs det) (1 / 1000)) as [Hs | Hl];
    [discriminate |].
  intros H. injection H as <-.
  assert (Hdet : det <> 0).
  { intros H0. apply Hl. rewrite H0, Rabs_R0. lra. }
  cbn [px py]. unfold det in *. split; field; exact Hdet.
Qed.

(** X2: [line_intersect] does not depend on the order of the two lines. *)
Theorem line_intersect_sym
  (a : graphene_point_t) (ab : graphene_vec2_t)
  (c : graphene_point_t) (cd : graphene_vec2_t) (p0 : graphene_point_t) :
  line_intersect c cd a ab p0 = line_intersect a ab c cd p0.
Proof.
  unfold line_intersect.
  set (det := vy ab * - vx cd - vy cd * - vx ab).
  replace (vy cd * - vx ab - vy ab * - vx cd) with (- det) by (unfold det; ring).
  rewrite Rabs_Ropp.
  unfold Rleb. destruct (Rle_dec (Rabs det) (1 / 1000)) as [Hs | Hl];
    [reflexivity |].
  assert (Hdet : det <> 0).
  { intros H0. apply Hl. rewrite H0, Rabs_R0. lra. }
  unfold det in *. f_equal. f_equal; field; lra.
Qed.

(** X3: for parallel directions, one a multiple of the other,
    [line_intersect] reports no intersection and leaves [*p] as it was;
    this includes two lines that coincide and a direction that is zero. *)
Theorem line_intersect_parallel
  (a : graphene_point_t) (ab : graphene_vec2_t)
  (c : graphene_point_t) (k : R) (p0 : graphene_point_t) :
  line_intersect a ab c (graphene_vec2_init (k * vx ab) (k * vy ab)) p0
  = (false, p0)
  /\ line_intersect c (graphene_vec2_init (k * vx ab) (k * vy ab)) a ab p0
     = (false, p0).
Proof.
  split.
  { unfold line_intersect. cbn [vx vy].
    replace (vy ab * - (k * vx ab) - k * vy ab * - vx ab) with 0 by ring.
    rewrite Rabs_R0, Rleb_true by lra. reflexivity. }
  unfold line_intersect. cbn [vx vy].
  replace (k * vy ab * - vx ab - vy ab * - (k * vx ab)) with 0 by ring.
  rewrite Rabs_R0, Rleb_true by lra. reflexivity.
Qed.

Lemma vec2_length_pos (x y : R) :
  x <> 0 \/ y <> 0 -> 0 < sqrt (x * x + y * y).
Proof.
  intros H. apply sqrt_lt_R0. destruct H; nra.
Qed.

Lemma normalize_unit (x y : R) :
  x <> 0 \/ y <> 0 ->
  graphene_vec2_length (graphene_vec2_normalize (graphene_vec2_init x y)) = 1.
Proof.
  intros H. pose proof (vec2_length_pos x y H) as Hlen.
  unfold graphene_vec2_normalize, graphene_vec2_length. cbn [vx vy].
  set (len := sqrt (x * x + y * y)) in *.
  assert (Hsq : len * len = x * x + y * y).
  { unfold len. apply sqrt_sqrt. nra. }
  replace (x / len * (x / len) + y / len * (y / len)) with 1.
  - apply sqrt_1.
  - field_simplify_eq; [nra | lra].
Qed.

(** X4: for two distinct points, [get_tangent] and [get_normal] return
    unit vectors that are perpendicular; the normal is the tangent turned
    by a quarter turn, (-t.y, t.x). *)
Theorem get_normal_unit_perpendicular (p0 p1 : graphene_point_t) :
  p0 <> p1 ->
  let t := get_tangent p0 p1 in
  let n := get_normal p0 p1 in
  graphene_vec2_length t = 1
  /\ graphene_vec2_length n = 1
  /\ graphene_vec2_dot t n = 0
  /\ vx n = - vy t /\ vy n = vx t.
Proof.
  intros Hne t n.
  assert (Hd : px p1 - px p0 <> 0 \/ py p1 - py p0 <> 0).
  { destruct (Req_dec (px p1 - px p0) 0) as [Hx | Hx]; [| left; exact Hx].
    right. intros Hy. apply Hne.
    destruct p0 as [x0 y0], p1 as [x1 y1]. cbn [px py] in *.
    f_equal; lra. }
  assert (Hrot : vx n = - vy t /\ vy n = vx t).
  { unfold n, t, get_normal, get_tangent, graphene_vec2_normalize,
      graphene_vec2_length. cbn [vx vy].
    replace ((py p0 - py p1) * (py p0 - py p1)
             + (px p1 - px p0) * (px p1 - px p0))
      with ((px p1 - px p0) * (px p1 - px p0)
            + (py p1 - py p0) * (py p1 - py p0)) by ring.
    split; unfold Rdiv; ring. }
  destruct Hrot as [Hnx Hny].
  assert (Ht : graphene_vec2_length t = 1).
  { unfold t, get_tangent. apply normalize_unit. exact Hd. }
  split; [exact Ht |].
  split.
  { unfold n, get_normal. apply normalize_unit. destruct Hd; [right | left]; lra. }
  split.
  { unfold graphene_vec2_dot. rewrite Hnx, Hny. ring. }
  split; assumption.
Qed.

Lemma get_normal_unit_perpendicular_witness :
  GRAPHENE_POINT_INIT 0 0 <> GRAPHENE_POINT_INIT 10 0
  /\ graphene_vec2_length
       (get_normal (GRAPHENE_POINT_INIT 0 0) (GRAPHENE_POINT_INIT 10 0)) = 1.
Proof.
  assert (H : GRAPHENE_POINT_INIT 0 0 <> GRAPHENE_POINT_INIT 10 0).
  { intros E. injection E as E. lra. }
  split; [exact H |].
  exact (proj1 (proj2 (get_normal_unit_perpendicular _ _ H))).
Defined.

Lemma line_intersect_on_both_lines_witness :
  line_intersect (GRAPHENE_POINT_INIT 10 (-1)) (graphene_vec2_init 1 0)
                 (GRAPHENE_POINT_INIT 11 0) (graphene_vec2_init 0 1)
                 (indeterminate_point polyline_lib)
  = (true, GRAPHENE_POINT_INIT 11 (-1))
  /\ (11 - 10) * 0 - (-1 - -1) * 1 = 0.
Proof.
  split; [exact line_intersect_corner |].
  exact (proj1 (line_intersect_on_both_lines _ _ _ _ _ _ line_intersect_corner)).
Defined.

(** X5: the turn angle changes sign when the two tangents are exchanged,
    is 0 between a tangent and itself, and differs from the difference of
    the two arguments by a whole number of turns. *)
Theorem angle_between_antisymmetric (t1 t2 : graphene_vec2_t) :
  angle_between t2 t1 = - angle_between t1 t2
  /\ angle_between t1 t1 = 0
  /\ exists k : Z,
       (-1 <= k <= 1)%Z
       /\ angle_between t1 t2
          = atan2 (vy t2) (vx t2) - atan2 (vy t1) (vx t1) + IZR k * (2 * PI).
Proof.
  pose proof PI_RGT_0 as Hpi.
  pose proof (atan2_bound (vy t1) (vx t1)) as H1.
  pose proof (atan2_bound (vy t2) (vx t2)) as H2.
  unfold angle_between, M_PI.
  set (a1 := atan2 (vy t1) (vx t1)) in *.
  set (a2 := atan2 (vy t2) (vx t2)) in *.
  split; [| split].
  - unfold Rltb.
    destruct (Rlt_dec PI (a1 - a2)); destruct (Rlt_dec PI (a2 - a1));
      repeat match goal with
             | |- context [Rlt_dec ?x ?y] => destruct (Rlt_dec x y)
             end; lra.
  - replace (a1 - a1) with 0 by ring.
    rewrite (Rltb_false PI 0) by lra.
    rewrite (Rltb_false 0 (- PI)) by lra. reflexivity.
  - unfold Rltb.
    destruct (Rlt_dec PI (a2 - a1)).
    + destruct (Rlt_dec (a2 - a1 - 2 * PI) (- PI)); [lra |].
      exists (-1)%Z. split; [lia | lra].
    + destruct (Rlt_dec (a2 - a1) (- PI)).
      * exists 1%Z. split; [lia | lra].
      * exists 0%Z. split; [lia | lra].
Qed.

(** ** Caps and joins *)

Lemma point_eta (p : graphene_point_t) : GRAPHENE_POINT_INIT (px p) (py p) = p.
Proof. destruct p; reflexivity. Qed.

(** X6: whatever the cap style, [add_line_cap] only appends to the builder,
    and the last call it appends ends at [e]. *)
Theorem add_line_cap_ends_at_e
  (builder : GskPathBuilder) (stroke : GskStroke) (s e : graphene_point_t) :
  exists calls call,
    add_line_cap builder stroke s e = builder ++ calls ++ [call]
    /\ call_target call = Some e.
Proof.
  unfold add_line_cap, path_builder_line_to_point, gsk_path_builder_line_to,
    gsk_path_builder_svg_arc_to.
  destruct (line_cap stroke).
  - exists [], (line_to (px e) (py e)). split; [reflexivity |].
    cbn. rewrite point_eta. reflexivity.
  - eexists [], _. split; [reflexivity |].
    cbn. rewrite point_eta. reflexivity.
  - eexists [_; _], (line_to (px e) (py e)). split.
    + rewrite <- !app_assoc. reflexivity.
    + cbn. rewrite point_eta. reflexivity.
Qed.

(** X7: the square cap goes from [s] by a vector [d] to [s + d], on to
    [e + d] and back to [e], where [d] is perpendicular to the line from [s]
    to [e] and half as long: the cap extends the stroke by half the distance
    between the two offset end points. *)
Theorem add_line_cap_square
  (builder : GskPathBuilder) (stroke : GskStroke) (s e : graphene_point_t) :
  line_cap stroke = GSK_LINE_CAP_SQUARE ->
  exists dx dy,
    add_line_cap builder stroke s e
    = builder ++ [line_to (px s + dx) (py s + dy);
                  line_to (px e + dx) (py e + dy);
                  line_to (px e) (py e)]
    /\ dx * (px e - px s) + dy * (py e - py s) = 0
    /\ 4 * (dx * dx + dy * dy)
       = (px e - px s) * (px e - px s) + (py e - py s) * (py e - py s).
Proof.
  intros Hcap. unfold add_line_cap. rewrite Hcap.
  exists (py s - (py s + py e) / 2), (- px s + (px s + px e) / 2).
  split; [| split].
  - unfold path_builder_line_to_point, gsk_path_builder_line_to.
    rewrite <- !app_assoc. reflexivity.
  - field.
  - field.
Qed.

Lemma add_line_cap_square_witness :
  let stroke := mk_stroke 2 GSK_LINE_CAP_SQUARE GSK_LINE_JOIN_MITER 4 [] 0 0 in
  line_cap stroke = GSK_LINE_CAP_SQUARE
  /\ exists dx dy,
       add_line_cap [move_to 10 1] stroke
         (GRAPHENE_POINT_INIT 10 1) (GRAPHENE_POINT_INIT 10 (-1))
       = [move_to 10 1] ++ [line_to (10 + dx) (1 + dy);
                            line_to (10 + dx) (-1 + dy); line_to 10 (-1)]
       /\ dx * (10 - 10) + dy * (-1 - 1) = 0.
Proof.
  cbv zeta. split; [reflexivity |].
  destruct (add_line_cap_square [move_to 10 1]
              (mk_stroke 2 GSK_LINE_CAP_SQUARE GSK_LINE_JOIN_MITER 4 [] 0 0)
              (GRAPHENE_POINT_INIT 10 1) (GRAPHENE_POINT_INIT 10 (-1)) eq_refl)
    as (dx & dy & H1 & H2 & _).
  exists dx, dy. split; [exact H1 | exact H2].
Defined.

(** X8: whatever the join style, [add_line_join] only appends to the
    builder.  Either the last call it appends ends at [b], or it appends
    nothing at all; the latter happens only for the miter styles, when
    [line_intersect] finds no intersection of the two rays. *)
Theorem add_line_join_ends_at_b
  (lib : GskCurveLib) (builder : GskPathBuilder) (stroke : GskStroke)
  (c a : graphene_point_t) (ta : graphene_vec2_t)
  (b : graphene_point_t) (tb : graphene_vec2_t) (angle : R) :
  (exists calls call,
     add_line_join lib builder stroke c a ta b tb angle
     = builder ++ calls ++ [call]
     /\ call_target call = Some b)
  \/ (add_line_join lib builder stroke c a ta b tb angle = builder
      /\ (line_join stroke = GSK_LINE_JOIN_MITER
          \/ line_join stroke = GSK_LINE_JOIN_MITER_CLIP)
      /\ fst (line_intersect a ta b tb (indeterminate_point lib)) = false).
Proof.
  unfold add_line_join, path_builder_line_to_point, gsk_path_builder_line_to,
    gsk_path_builder_svg_arc_to.
  destruct (line_join stroke) eqn:Hjoin.
  - destruct (line_intersect a ta b tb (indeterminate_point lib))
      as [[|] p] eqn:Hhit.
    + left. destruct (Rleb _ _).
      * exists [line_to (px p) (py p)], (line_to (px b) (py b)).
        split; [rewrite <- app_assoc; reflexivity |].
        cbn. rewrite point_eta. reflexivity.
      * exists [], (line_to (px b) (py b)).
        split; [reflexivity |]. cbn. rewrite point_eta. reflexivity.
    + right. split; [reflexivity |]. split; [left; reflexivity | reflexivity].
  - destruct (line_intersect a ta b tb (indeterminate_point lib))
      as [[|] p] eqn:Hhit.
    + left. destruct (Rleb _ _).
      * exists [line_to (px p) (py p)], (line_to (px b) (py b)).
        split; [rewrite <- app_assoc; reflexivity |].
        cbn. rewrite point_eta. reflexivity.
      * eexists [_; _], (line_to (px b) (py b)).
        split; [rewrite <- !app_assoc; reflexivity |].
        cbn. rewrite point_eta. reflexivity.
    + right. split; [reflexivity |]. split; [right; reflexivity | reflexivity].
  - left. eexists [], _. split; [reflexivity |].
    cbn. rewrite point_eta. reflexivity.
  - left. exists [], (line_to (px b) (py b)). split; [reflexivity |].
    cbn. rewrite point_eta. reflexivity.
Qed.

(** X9: for the two miter styles, tangents that are parallel or nearly so
    (cross product at most 0.001 in absolute value), as at a turn straight
    back, make [add_line_join] append nothing: the sub-path is left at [a]
    and no call joins it to [b]. *)
Theorem add_line_join_miter_parallel
  (lib : GskCurveLib) (builder : GskPathBuilder) (stroke : GskStroke)
  (c a : graphene_point_t) (ta : graphene_vec2_t)
  (b : graphene_point_t) (tb : graphene_vec2_t) (angle : R) :
  line_join stroke = GSK_LINE_JOIN_MITER
  \/ line_join stroke = GSK_LINE_JOIN_MITER_CLIP ->
  Rabs (vx ta * vy tb - vy ta * vx tb) <= 1 / 1000 ->
  add_line_join lib builder stroke c a ta b tb angle = builder.
Proof.
  intros Hjoin Hcross.
  assert (Hmiss : line_intersect a ta b tb (indeterminate_point lib)
                  = (false, indeterminate_point lib)).
  { unfold line_intersect.
    replace (vy ta * - vx tb - vy tb * - vx ta)
      with (vx ta * vy tb - vy ta * vx tb) by ring.
    rewrite Rleb_true by exact Hcross. reflexivity. }
  unfold add_line_join. destruct Hjoin as [-> | ->]; rewrite Hmiss; reflexivity.
Qed.

Lemma add_line_join_miter_parallel_witness :
  let stroke := mk_stroke 2 GSK_LINE_CAP_BUTT GSK_LINE_JOIN_MITER 4 [] 0 0 in
  let ta := graphene_vec2_init 1 0 in
  let tb := graphene_vec2_init (-1) 0 in
  (line_join stroke = GSK_LINE_JOIN_MITER
   \/ line_join stroke = GSK_LINE_JOIN_MITER_CLIP)
  /\ Rabs (vx ta * vy tb - vy ta * vx tb) <= 1 / 1000
  /\ add_line_join polyline_lib [move_to 10 (-1)] stroke
       (GRAPHENE_POINT_INIT 10 0) (GRAPHENE_POINT_INIT 10 (-1)) ta
       (GRAPHENE_POINT_INIT 10 1) tb PI
     = [move_to 10 (-1)].
Proof.
  cbv zeta.
  assert (H1 : line_join (mk_stroke 2 GSK_LINE_CAP_BUTT GSK_LINE_JOIN_MITER 4 [] 0 0)
               = GSK_LINE_JOIN_MITER
               \/ line_join (mk_stroke 2 GSK_LINE_CAP_BUTT GSK_LINE_JOIN_MITER 4 [] 0 0)
                  = GSK_LINE_JOIN_MITER_CLIP) by (left; reflexivity).
  assert (H2 : Rabs (vx (graphene_vec2_init 1 0) * vy (graphene_vec2_init (-1) 0)
                     - vy (graphene_vec2_init 1 0) * vx (graphene_vec2_init (-1) 0))
               <= 1 / 1000).
  { cbn [vx vy]. replace (1 * 0 - 0 * -1) with 0 by ring. rewrite Rabs_R0. lra. }
  split; [exact H1 |]. split; [exact H2 |].
  exact (add_line_join_miter_parallel polyline_lib _ _ _ _ _ _ _ _ H1 H2).
Defined.

(** ** Reversing twice *)

Lemma gsk_curve_reverse_involutive (curve : GskCurve) :
  gsk_curve_reverse (gsk_curve_reverse curve) = curve.
Proof. destruct curve as [p0 p1 | [a b c d] | [a b w d]]; reflexivity. Qed.

Lemma event_curves_of_curves (cs : list GskCurve) :
  event_curves (map event_of_curve cs) = cs.
Proof.
  unfold event_curves. induction cs as [| x cs IH]; [reflexivity |].
  destruct x; cbn in *; rewrite IH; reflexivity.
Qed.

Lemma path_events_of_calls (lib : GskCurveLib) (cs : list GskCurve) :
  forall cur start,
    connected_from cur cs ->
    path_events_from lib cur start (map curve_call cs) = map event_of_curve cs.
Proof.
  induction cs as [| x cs IH]; intros cur start H; [reflexivity |].
  destruct H as [Hs Hrest].
  destruct x as [p0 p1 | [a b c d] | [a b w d]]; cbn in *; subst cur;
    rewrite ?point_eta; f_equal; apply IH; rewrite ?point_eta; exact Hrest.
Qed.

Lemma add_reverse_path_of_calls (lib : GskCurveLib) (b : GskPathBuilder)
      (s : graphene_point_t) (cs : list GskCurve) :
  connected_from s cs ->
  path_builder_add_reverse_path lib b
    (move_to (px s) (py s) :: map curve_call cs)
  = b ++ map curve_call (map gsk_curve_reverse (rev cs)).
Proof.
  intros H. unfold path_builder_add_reverse_path, gsk_path_foreach.
  cbn [path_events_from]. rewrite point_eta.
  rewrite (path_events_of_calls lib cs s s H).
  rewrite fold_add_op, app_nil_r.
  change (event_curves (GSK_PATH_MOVE s :: map event_of_curve cs))
    with (event_curves (map event_of_curve cs)).
  rewrite event_curves_of_curves.
  apply fold_path_builder_add_curve.
Qed.

Lemma end_from_app (a : graphene_point_t) (xs ys : list GskCurve) :
  end_from a (xs ++ ys) = end_from (end_from a xs) ys.
Proof. unfold end_from. apply fold_left_app. Qed.

Lemma connected_from_app (xs ys : list GskCurve) :
  forall a,
    connected_from a xs -> connected_from (end_from a xs) ys ->
    connected_from a (xs ++ ys).
Proof.
  induction xs as [| x xs IH]; intros a Hx Hy; [exact Hy |].
  destruct Hx as [Hs Hrest]. split; [exact Hs |].
  apply IH; assumption.
Qed.

Lemma reversed_run (cs : list GskCurve) :
  forall s,
    connected_from s cs ->
    connected_from (end_from s cs) (map gsk_curve_reverse (rev cs))
    /\ end_from (end_from s cs) (map gsk_curve_reverse (rev cs)) = s.
Proof.
  induction cs as [| x cs IH]; intros s H.
  - split; [exact I | reflexivity].
  - destruct H as [Hs Hrest].
    destruct (IH _ Hrest) as [Hc He].
    change (end_from s (x :: cs)) with (end_from (gsk_curve_get_end_point x) cs).
    cbn [rev]. rewrite map_app. cbn [map].
    split.
    + apply connected_from_app; [exact Hc |].
      rewrite He. split; [apply gsk_curve_reverse_start | exact I].
    + rewrite end_from_app, He. cbn.
      rewrite gsk_curve_reverse_end. exact Hs.
Qed.

(** X10: reversing a path twice gives the path back.  For a path that
    moves to [s] and then runs through connected curves to [e], a builder
    that moves to [e] and receives the reversed path holds the path from
    [e] back to [s]; reversing that into a builder that moved to [s] gives
    the calls of the path again. *)
Theorem path_builder_add_reverse_path_twice
  (lib : GskCurveLib) (s : graphene_point_t) (cs : list GskCurve) :
  connected_from s cs ->
  let path := move_to (px s) (py s) :: map curve_call cs in
  let e := end_from s cs in
  let back :=
    path_builder_add_reverse_path lib [move_to (px e) (py e)] path in
  path_builder_add_reverse_path lib [move_to (px s) (py s)] back = path.
Proof.
  intros H path e back.
  destruct (reversed_run cs s H) as [Hc He].
  unfold back, path.
  rewrite (add_reverse_path_of_calls lib _ s cs H).
  cbn [app].
  rewrite (add_reverse_path_of_calls lib _ e _ Hc).
  rewrite <- map_rev, rev_involutive, map_map.
  cbn [app]. f_equal.
  rewrite map_map.
  apply map_ext. intros c. rewrite gsk_curve_reverse_involutive.
  reflexivity.
Qed.

Lemma path_builder_add_reverse_path_twice_witness :
  let s := GRAPHENE_POINT_INIT 0 (-1) in
  let cs := [GSK_LINE (GRAPHENE_POINT_INIT 0 (-1)) (GRAPHENE_POINT_INIT 10 (-1));
             GSK_LINE (GRAPHENE_POINT_INIT 10 (-1)) (GRAPHENE_POINT_INIT 10 5)] in
  connected_from s cs
  /\ path_builder_add_reverse_path polyline_lib [move_to 0 (-1)]
       (path_builder_add_reverse_path polyline_lib [move_to 10 5]
          [move_to 0 (-1); line_to 10 (-1); line_to 10 5])
     = [move_to 0 (-1); line_to 10 (-1); line_to 10 5].
Proof.
  cbv zeta.
  assert (H : connected_from (GRAPHENE_POINT_INIT 0 (-1))
                [GSK_LINE (GRAPHENE_POINT_INIT 0 (-1)) (GRAPHENE_POINT_INIT 10 (-1));
                 GSK_LINE (GRAPHENE_POINT_INIT 10 (-1)) (GRAPHENE_POINT_INIT 10 5)]).
  { cbn. repeat split. }
  split; [exact H |].
  exact (path_builder_add_reverse_path_twice polyline_lib _ _ H).
Defined.

(** ** The parameters of the first cut *)

Lemma cubic_curvature_points_facts (curve : GskCurveCurve) :
  (length (cubic_curvature_points curve) <= 3)%nat
  /\ Forall (fun t => 0 < t < 1) (cubic_curvature_points curve).
Proof.
  unfold cubic_curvature_points.
  cbv zeta.
  repeat match goal with
         | |- context [if ?b then _ else _] =>
             let E := fresh "E" in destruct b eqn:E
         end;
    cbn [app length];
    (split; [lia |]);
    repeat match goal with
           | H : (_ && _)%bool = true |- _ =>
               apply andb_prop in H; destruct H as [?H ?H]
           | H : Rltb _ _ = true |- _ =>
               unfold Rltb in H;
               match type of H with
               | (if ?d then _ else _) = _ => destruct d; [| discriminate H]
               end; clear H
           end;
    repeat constructor; assumption.
Qed.

(** X11: [cubic_curvature_points] stores at most three parameters, so that
    the two that [subdivide_and_add_curve] puts in front of them fit with
    them into its array of five; each one lies strictly between 0 and 1. *)
Theorem cubic_curvature_points_bound (curve : GskCurveCurve) :
  (length (cubic_curvature_points curve) <= 3)%nat
  /\ Forall (fun t => 0 < t < 1) (cubic_curvature_points curve).
Proof. exact (cubic_curvature_points_facts curve). Qed.

Lemma cmpfloat_le (x y : R) : (cmpfloat x y <=? 0)%Z = true <-> x <= y.
Proof.
  unfold cmpfloat, Rltb.
  destruct (Rlt_dec x y); [cbn; split; [lra | reflexivity] |].
  destruct (Rlt_dec y x); cbn; split; try lra; try discriminate; reflexivity.
Qed.

Lemma qsort_insert_in (x y : R) (t : list R) :
  In y (qsort_insert cmpfloat x t) <-> y = x \/ In y t.
Proof.
  induction t as [| z t IH]; cbn.
  - intuition.
  - destruct (cmpfloat x z <=? 0)%Z; cbn; [intuition |].
    rewrite IH. intuition.
Qed.

Lemma qsort_insert_length (x : R) (t : list R) :
  length (qsort_insert cmpfloat x t) = S (length t).
Proof.
  induction t as [| z t IH]; cbn; [reflexivity |].
  destruct (cmpfloat x z <=? 0)%Z; cbn; [reflexivity | rewrite IH; reflexivity].
Qed.

Lemma qsort_insert_sorted (x : R) (t : list R) :
  Sorted Rle t -> Sorted Rle (qsort_insert cmpfloat x t).
Proof.
  induction t as [| z t IH]; intros Hs; cbn.
  - repeat constructor.
  - destruct (cmpfloat x z <=? 0)%Z eqn:E.
    + apply cmpfloat_le in E. constructor; [exact Hs | constructor; exact E].
    + assert (Hzx : z <= x).
      { destruct (Rle_dec z x) as [H | H]; [exact H |].
        assert (Hxz : x <= z) by lra.
        apply cmpfloat_le in Hxz. congruence. }
      inversion Hs as [| ? ? Hs' Hhd]; subst.
      constructor; [apply IH; exact Hs' |].
      destruct t as [| w t]; cbn.
      * constructor; exact Hzx.
      * destruct (cmpfloat x w <=? 0)%Z; constructor; [exact Hzx |].
        inversion Hhd; assumption.
Qed.

Lemma qsort_sorted (t : list R) : Sorted Rle (qsort t cmpfloat).
Proof.
  unfold qsort. induction t as [| x t IH]; cbn.
  - constructor.
  - apply qsort_insert_sorted, IH.
Qed.

Lemma qsort_in (y : R) (t : list R) : In y (qsort t cmpfloat) <-> In y t.
Proof.
  unfold qsort. induction t as [| x t IH]; cbn; [reflexivity |].
  rewrite qsort_insert_in, IH. intuition.
Qed.

Lemma qsort_length (t : list R) : length (qsort t cmpfloat) = length t.
Proof.
  unfold qsort. induction t as [| x t IH]; cbn; [reflexivity |].
  rewrite qsort_insert_length, IH. reflexivity.
Qed.

Lemma sorted_hd_least (t : list R) (d : R) :
  Sorted Rle t -> forall y, In y t -> hd d t <= y.
Proof.
  intros Hs. apply Sorted_StronglySorted in Hs;
    [| intros a b c; apply Rle_trans].
  destruct Hs as [| x t Hs Hall]; intros y Hy; [contradiction |].
  cbn. destruct Hy as [<- | Hy]; [lra |].
  rewrite Forall_forall in Hall. apply Hall, Hy.
Qed.

Lemma sorted_last_greatest (t : list R) (d : R) :
  Sorted Rle t -> forall y, In y t -> y <= last t d.
Proof.
  intros Hs. apply Sorted_StronglySorted in Hs;
    [| intros a b c; apply Rle_trans].
  induction Hs as [| x t Hs IH Hall]; intros y Hy; [contradiction |].
  destruct t as [| z t].
  - destruct Hy as [<- | []]. cbn. lra.
  - change (last (x :: z :: t) d) with (last (z :: t) d).
    destruct Hy as [<- | Hy]; [| apply IH, Hy].
    rewrite Forall_forall in Hall.
    apply Rle_trans with z; [apply Hall; left; reflexivity |].
    apply IH. left. reflexivity.
Qed.

Lemma sorted_consecutive (t : list R) :
  Sorted Rle t -> Forall (fun ab => fst ab <= snd ab) (consecutive t).
Proof.
  induction 1 as [| x t Hs IH Hhd].
  - constructor.
  - destruct t as [| y t]; [constructor |].
    cbn [consecutive]. constructor; [| exact IH].
    inversion Hhd; assumption.
Qed.

Lemma hd_in (t : list R) (d : R) : t <> [] -> In (hd d t) t.
Proof. destruct t; [congruence | intros _; left; reflexivity]. Qed.

Lemma last_in (t : list R) (d : R) : t <> [] -> In (last t d) t.
Proof.
  induction t as [| x t IH]; [congruence |]. intros _.
  destruct t as [| y t]; [left; reflexivity |].
  right. apply IH. discriminate.
Qed.

Lemma subdivision_parameters_facts (curve : GskCurveCurve) (level : Z) :
  let t := subdivision_parameters curve level in
  (2 <= length t <= 5)%nat
  /\ hd 2 t = 0 /\ last t 2 = 1
  /\ Sorted Rle t
  /\ Forall (fun ab => 0 <= fst ab /\ fst ab <= snd ab /\ snd ab <= 1)
            (consecutive t).
Proof.
  intros t.
  destruct (cubic_curvature_points_facts curve) as [Hlen Hin].
  rewrite Forall_forall in Hin.
  assert (Hmem : forall y, In y t ->
                           y = 0 \/ y = 1 \/ In y (cubic_curvature_points curve)
                           \/ False).
  { intros y Hy. unfold t, subdivision_parameters in Hy. cbv zeta in Hy.
    destruct (level =? MAX_SUBDIVISION)%Z.
    - apply (proj1 (qsort_in _ _)) in Hy. apply in_app_or in Hy.
      destruct Hy as [[<- | [<- | []]] | Hy]; auto.
    - destruct Hy as [<- | [<- | []]]; auto. }
  assert (Hrange : forall y, In y t -> 0 <= y <= 1).
  { intros y Hy. destruct (Hmem y Hy) as [-> | [-> | [H | []]]]; try lra.
    specialize (Hin y H). lra. }
  assert (H0 : In 0 t /\ In 1 t).
  { unfold t, subdivision_parameters. cbv zeta.
    destruct (level =? MAX_SUBDIVISION)%Z.
    - split; apply (proj2 (qsort_in _ _)); apply in_or_app; left;
        cbn [In]; auto.
    - cbn [In]; auto. }
  assert (Hsorted : Sorted Rle t).
  { unfold t, subdivision_parameters. cbv zeta.
    destruct (level =? MAX_SUBDIVISION)%Z; [apply qsort_sorted |].
    repeat constructor. lra. }
  assert (Hlength : (2 <= length t <= 5)%nat).
  { unfold t, subdivision_parameters. cbv zeta.
    destruct (level =? MAX_SUBDIVISION)%Z; [| cbn [length]; lia].
    rewrite qsort_length, length_app. cbn [length]. lia. }
  assert (Hne : t <> []).
  { intros E. rewrite E in Hlength. cbn in Hlength. lia. }
  split; [exact Hlength |].
  split.
  { pose proof (sorted_hd_least t 2 Hsorted 0 (proj1 H0)).
    pose proof (Hrange _ (hd_in t 2 Hne)). lra. }
  split.
  { pose proof (sorted_last_greatest t 2 Hsorted 1 (proj2 H0)).
    pose proof (Hrange _ (last_in t 2 Hne)). lra. }
  split; [exact Hsorted |].
  pose proof (sorted_consecutive t Hsorted) as Hc.
  rewrite Forall_forall in *.
  intros ab Hab. specialize (Hc ab Hab).
  assert (Hboth : In (fst ab) t /\ In (snd ab) t).
  { clear - Hab. induction t as [| x t IH]; [contradiction |].
    destruct t as [| y t]; [contradiction |].
    cbn [consecutive] in Hab. destruct Hab as [<- | Hab].
    - cbn. auto.
    - destruct (IH Hab). split; right; assumption. }
  destruct Hboth as [Ha Hb].
  pose proof (Hrange _ Ha). pose proof (Hrange _ Hb). lra.
Qed.

(** X12: the parameters at which [subdivide_and_add_curve] cuts are
    between two and five, begin with 0, end with 1 and ascend: the pairs
    [(t[i], t[i+1])] that the loop hands to [gsk_curve_segment] run from 0
    to 1 in order, each with its first parameter at most its second. *)
Theorem subdivision_parameters_ascending (curve : GskCurveCurve) (level : Z) :
  let t := subdivision_parameters curve level in
  (2 <= length t <= 5)%nat
  /\ hd 2 t = 0 /\ last t 2 = 1
  /\ Sorted Rle t
  /\ Forall (fun ab => 0 <= fst ab /\ fst ab <= snd ab /\ snd ab <= 1)
            (consecutive t).
Proof. exact (subdivision_parameters_facts curve level). Qed.

(** ** How many pieces *)

Lemma consecutive_length (t : list R) :
  length (consecutive t) = pred (length t).
Proof.
  induction t as [| x t IH]; [reflexivity |].
  destruct t as [| y t]; [reflexivity |].
  cbn [consecutive length] in *. rewrite IH. reflexivity.
Qed.

Lemma flat_map_length_bounds {A B : Type} (f : A -> list B) (xs : list A)
      (lo hi : nat) :
  (forall x, lo <= length (f x) <= hi)%nat ->
  (length xs * lo <= length (flat_map f xs) <= length xs * hi)%nat.
Proof.
  intros H. induction xs as [| x xs IH]; cbn [flat_map length].
  - lia.
  - rewrite length_app. specialize (H x). lia.
Qed.

Lemma pow2_pos (n : nat) : (1 <= 2 ^ n)%nat.
Proof. induction n; cbn; lia. Qed.

Section Counting.

Variable lib : GskCurveLib.

Lemma subdivided_pieces_length (level : nat) :
  forall curve,
    (level < 8)%nat ->
    (1 <= length (subdivided_pieces lib curve level) <= 2 ^ level)%nat.
Proof.
  induction level as [| level IH]; intros curve Hlevel.
  - cbn. lia.
  - pose proof (pow2_pos level) as Hpow.
    cbn [subdivided_pieces].
    destruct (_ && _); [cbn [length Nat.pow]; lia |].
    unfold subdivision_parameters.
    replace (Z.of_nat (S level) =? MAX_SUBDIVISION)%Z with false
      by (symmetry; apply Z.eqb_neq; unfold MAX_SUBDIVISION; lia).
    cbn [length Nat.eqb].
    destruct (gsk_curve_curve_split curve (1 / 2)) as [c1 c2].
    rewrite length_app.
    pose proof (IH c1 ltac:(lia)). pose proof (IH c2 ltac:(lia)).
    cbn [Nat.pow]. lia.
Qed.

Lemma subdivided_pieces_unfold (curve : GskCurveCurve) (level : nat) :
  subdivided_pieces lib curve (S level)
  = if (Z.of_nat (S level) <? MAX_SUBDIVISION)%Z && cubic_is_simple curve
    then [(S level, curve)]
    else
      if (length (subdivision_parameters curve (Z.of_nat (S level))) =? 2)%nat
      then
        let (c1, c2) := gsk_curve_curve_split curve (1 / 2) in
        subdivided_pieces lib c1 level ++ subdivided_pieces lib c2 level
      else
        flat_map
          (fun ab => subdivided_pieces lib
                       (gsk_curve_curve_segment lib curve (fst ab) (snd ab))
                       level)
          (consecutive (subdivision_parameters curve (Z.of_nat (S level)))).
Proof. reflexivity. Qed.

Lemma subdivided_conic_pieces_unfold (curve : GskConicCurve) (level : nat) :
  subdivided_conic_pieces lib curve (S level)
  = if (Z.of_nat (S level) <? MAX_SUBDIVISION)%Z && conic_is_simple curve
    then [(S level, curve)]
    else
      let (c1, c2) := gsk_conic_curve_split lib curve (1 / 2) in
      subdivided_conic_pieces lib c1 level
        ++ subdivided_conic_pieces lib c2 level.
Proof. reflexivity. Qed.

(** X13: a cubic is never handed to [add_curve] whole: the subdivider,
    started with the depth budget 8, makes at least 2 and at most 512
    calls of [add_curve], at most four parts of the first cut with at most
    128 pieces each. *)
Theorem subdivided_pieces_count
  (stroke_data : StrokeData) (curve : GskCurveCurve) :
  let pieces := subdivided_pieces lib curve (Z.to_nat MAX_SUBDIVISION) in
  subdivide_and_add_curve lib stroke_data curve (Z.to_nat MAX_SUBDIVISION)
  = fold_left (fun sd p => add_curve lib sd (GSK_CURVE (snd p))) pieces
              stroke_data
  /\ (2 <= length pieces <= 512)%nat.
Proof.
  intros pieces. split; [apply subdivide_and_add_curve_pieces |].
  unfold pieces. change (Z.to_nat MAX_SUBDIVISION) with (S 7).
  rewrite subdivided_pieces_unfold.
  change (Z.of_nat 8 <? MAX_SUBDIVISION)%Z with false. cbn [andb].
  pose proof (subdivision_parameters_facts curve (Z.of_nat 8)) as (Hlen & _).
  destruct (length _ =? 2)%nat eqn:E2.
  - destruct (gsk_curve_curve_split curve (1 / 2)) as [c1 c2].
    rewrite length_app.
    pose proof (subdivided_pieces_length 7 c1 ltac:(lia)) as H1.
    pose proof (subdivided_pieces_length 7 c2 ltac:(lia)) as H2.
    change (2 ^ 7)%nat with 128%nat in H1, H2. lia.
  - apply Nat.eqb_neq in E2.
    pose proof (flat_map_length_bounds
                  (fun ab => subdivided_pieces lib
                               (gsk_curve_curve_segment lib curve
                                  (fst ab) (snd ab)) 7)
                  (consecutive (subdivision_parameters curve (Z.of_nat 8)))
                  1 (2 ^ 7)
                  (fun ab => subdivided_pieces_length 7 _ ltac:(lia))) as Hf.
    rewrite consecutive_length in Hf.
    change (2 ^ 7)%nat with 128%nat in Hf. lia.
Qed.

Lemma subdivide_and_add_conic_pieces (level : nat) :
  forall sd curve,
    subdivide_and_add_conic lib sd curve level
    = fold_left (fun sd p => add_curve lib sd (GSK_CONIC (snd p)))
                (subdivided_conic_pieces lib curve level) sd.
Proof.
  induction level as [| level IH]; intros sd curve.
  - reflexivity.
  - cbn [subdivide_and_add_conic subdivided_conic_pieces].
    destruct (_ && _); [reflexivity |].
    destruct (gsk_conic_curve_split lib curve (1 / 2)) as [c1 c2].
    rewrite fold_left_app, <- IH, <- IH. reflexivity.
Qed.

Lemma subdivided_conic_pieces_length (level : nat) :
  forall curve,
    (1 <= length (subdivided_conic_pieces lib curve level) <= 2 ^ level)%nat.
Proof.
  induction level as [| level IH]; intros curve.
  - cbn. lia.
  - pose proof (pow2_pos level) as Hpow.
    cbn [subdivided_conic_pieces].
    destruct (_ && _); [cbn [length Nat.pow]; lia |].
    destruct (gsk_conic_curve_split lib curve (1 / 2)) as [c1 c2].
    rewrite length_app. pose proof (IH c1). pose proof (IH c2).
    cbn [Nat.pow]. lia.
Qed.

(** X14: the conic subdivider, started with the depth budget 8, is
    [add_curve] over the pieces it accepts, between 2 and 256 of them: a
    conic is split at least once.  The pieces accepted above level 0
    satisfy [conic_is_simple]; those that reach level 0 are accepted as
    they are. *)
Theorem subdivided_conic_pieces_spec
  (stroke_data : StrokeData) (curve : GskConicCurve) :
  let pieces := subdivided_conic_pieces lib curve (Z.to_nat MAX_SUBDIVISION) in
  subdivide_and_add_conic lib stroke_data curve (Z.to_nat MAX_SUBDIVISION)
  = fold_left (fun sd p => add_curve lib sd (GSK_CONIC (snd p))) pieces
              stroke_data
  /\ (2 <= length pieces <= 256)%nat
  /\ Forall (fun p => fst p = O
                      \/ ((0 < fst p < 8)%nat /\ conic_is_simple (snd p) = true))
            pieces.
Proof.
  intros pieces. split; [apply subdivide_and_add_conic_pieces |].
  split.
  - unfold pieces. change (Z.to_nat MAX_SUBDIVISION) with (S 7).
    rewrite subdivided_conic_pieces_unfold.
    change (Z.of_nat 8 <? MAX_SUBDIVISION)%Z with false. cbn [andb].
    destruct (gsk_conic_curve_split lib curve (1 / 2)) as [c1 c2].
    rewrite length_app.
    pose proof (subdivided_conic_pieces_length 7 c1) as H1.
    pose proof (subdivided_conic_pieces_length 7 c2) as H2.
    change (2 ^ 7)%nat with 128%nat in H1, H2. lia.
  - unfold pieces. clear pieces.
    generalize (Z.to_nat MAX_SUBDIVISION) as level.
    intros level. revert curve.
    induction level as [| level IH]; intros curve.
    + constructor; [left; reflexivity | constructor].
    + cbn [subdivided_conic_pieces].
      destruct ((Z.of_nat (S level) <? MAX_SUBDIVISION)%Z) eqn:Hlt;
        [destruct (conic_is_simple curve) eqn:Hsimple |]; cbn [andb].
      * constructor; [| constructor]. right. cbn [fst snd].
        apply Z.ltb_lt in Hlt. unfold MAX_SUBDIVISION in Hlt.
        split; [lia | exact Hsimple].
      * destruct (gsk_conic_curve_split lib curve (1 / 2)) as [c1 c2].
        apply Forall_app. split; apply IH.
      * destruct (gsk_conic_curve_split lib curve (1 / 2)) as [c1 c2].
        apply Forall_app. split; apply IH.
Qed.

End Counting.


(** ** Sub-paths in progress only grow *)

Section Growth.

Variable lib : GskCurveLib.

Lemma grows_refl sd : grows sd sd.
Proof.
  repeat split; exists []; rewrite app_nil_r; reflexivity.
Qed.

Lemma grows_trans sd1 sd2 sd3 : grows sd1 sd2 -> grows sd2 sd3 -> grows sd1 sd3.
Proof.
  intros (A1 & A2 & (ra & A3) & (la & A4)) (B1 & B2 & (rb & B3) & (lb & B4)).
  split; [eapply same_contour_trans; eassumption |].
  split; [congruence |].
  split.
  - exists (ra ++ rb). rewrite B3, A3, app_assoc. reflexivity.
  - exists (la ++ lb). rewrite B4, A4, app_assoc. reflexivity.
Qed.

Lemma set_right_grows v sd :
  (exists calls, v = right sd ++ calls) -> grows sd (set_right v sd).
Proof.
  intros H. repeat split; [exact H |].
  exists []. rewrite app_nil_r. reflexivity.
Qed.

Lemma set_left_grows v sd :
  (exists calls, v = left sd ++ calls) -> grows sd (set_left v sd).
Proof.
  intros H. repeat split; [| exact H].
  exists []. rewrite app_nil_r. reflexivity.
Qed.

Lemma set_r_grows v sd : grows sd (set_r v sd).
Proof. repeat split; exists []; cbn; rewrite app_nil_r; reflexivity. Qed.

Lemma set_l_grows v sd : grows sd (set_l v sd).
Proof. repeat split; exists []; cbn; rewrite app_nil_r; reflexivity. Qed.

Lemma set_c_grows v sd : grows sd (set_c v sd).
Proof. repeat split; exists []; cbn; rewrite app_nil_r; reflexivity. Qed.

Lemma append_right_grows sd curve : grows sd (append_right sd curve).
Proof.
  unfold append_right. destruct (is_first_curve sd).
  - repeat split; [eexists; reflexivity |].
    exists []. rewrite app_nil_r. reflexivity.
  - apply set_right_grows. eexists. apply path_builder_add_curve_call.
Qed.

Lemma append_left_grows sd curve : grows sd (append_left sd curve).
Proof.
  unfold append_left. destruct (is_first_curve sd).
  - repeat split; [| eexists; reflexivity].
    exists []. rewrite app_nil_r. reflexivity.
  - apply set_left_grows. eexists. apply path_builder_add_curve_call.
Qed.

Lemma assign_r_grows ref sd local v : grows sd (fst (assign_r ref sd local v)).
Proof.
  destruct ref; repeat split; exists []; cbn; rewrite app_nil_r; reflexivity.
Qed.

Lemma assign_l_grows ref sd local v : grows sd (fst (assign_l ref sd local v)).
Proof.
  destruct ref; repeat split; exists []; cbn; rewrite app_nil_r; reflexivity.
Qed.

Ltac grow_side :=
  first [ eexists; reflexivity
        | eexists; apply path_builder_add_curve_call
        | apply add_line_join_prefix ].

Ltac grow :=
  repeat first
    [ apply grows_refl
    | eapply grows_trans; [| apply set_right_grows; grow_side]
    | eapply grows_trans; [| apply set_left_grows; grow_side]
    | eapply grows_trans; [| apply set_r_grows]
    | eapply grows_trans; [| apply set_l_grows]
    | eapply grows_trans; [| apply set_c_grows]
    | eapply grows_trans; [| apply append_right_grows]
    | eapply grows_trans; [| apply append_left_grows] ].

Lemma add_segments_straight_grows ref sd lr ll :
  grows sd (fst (fst (add_segments_straight ref sd lr ll))).
Proof. unfold add_segments_straight. cbv zeta. cbn [fst]. grow. Qed.

Lemma add_segments_right_turn_grows ref sd curve lr ll t1 t2 angle :
  grows sd
    (fst (fst (add_segments_right_turn lib ref sd curve lr ll t1 t2 angle))).
Proof.
  unfold add_segments_right_turn.
  destruct (gsk_curve_intersect lib (r sd) (deref_r ref sd lr))
    as [[[u1 u2] p] |].
  - destruct (assign_r ref (set_r (fst (gsk_curve_split lib (r sd) u1)) sd) lr
                (snd (gsk_curve_split lib
                        (deref_r ref
                           (set_r (fst (gsk_curve_split lib (r sd) u1)) sd) lr)
                        u2))) as [sd1 lr1] eqn:E.
    cbv zeta. cbn [fst]. grow.
    pose proof (assign_r_grows ref
                  (set_r (fst (gsk_curve_split lib (r sd) u1)) sd) lr
                  (snd (gsk_curve_split lib
                          (deref_r ref
                             (set_r (fst (gsk_curve_split lib (r sd) u1)) sd) lr)
                          u2))) as H.
    rewrite E in H. cbn [fst] in H.
    eapply grows_trans; [| exact H]. grow.
  - cbv zeta. cbn [fst]. grow.
Qed.

Lemma add_segments_left_turn_grows ref sd curve lr ll t1 t2 angle :
  grows sd
    (fst (fst (add_segments_left_turn lib ref sd curve lr ll t1 t2 angle))).
Proof.
  unfold add_segments_left_turn. cbv zeta.
  set (sd0 := set_right _ (append_right sd (r sd))).
  assert (H0 : grows sd sd0) by (unfold sd0; grow).
  clearbody sd0.
  destruct (gsk_curve_intersect lib (l sd0) (deref_l ref sd0 ll))
    as [[[u1 u2] p] |].
  - destruct (assign_l ref (set_l (fst (gsk_curve_split lib (l sd0) u1)) sd0) ll
                (snd (gsk_curve_split lib
                        (deref_l ref
                           (set_l (fst (gsk_curve_split lib (l sd0) u1)) sd0) ll)
                        u2))) as [sd1 ll1] eqn:E.
    cbn [fst]. grow.
    pose proof (assign_l_grows ref
                  (set_l (fst (gsk_curve_split lib (l sd0) u1)) sd0) ll
                  (snd (gsk_curve_split lib
                          (deref_l ref
                             (set_l (fst (gsk_curve_split lib (l sd0) u1)) sd0) ll)
                          u2))) as H.
    rewrite E in H. cbn [fst] in H.
    eapply grows_trans; [| exact H].
    eapply grows_trans; [exact H0 |]. grow.
  - cbn [fst]. eapply grows_trans; [exact H0 |]. grow.
Qed.

Lemma add_segments_grows ref sd curve lr ll :
  grows sd (add_segments lib ref sd curve lr ll).
Proof.
  unfold add_segments. cbv zeta.
  destruct (Rltb (Rabs _) (DEG_TO_RAD 5)).
  - pose proof (add_segments_straight_grows ref sd lr ll) as H.
    destruct (add_segments_straight ref sd lr ll) as [[sd1 lr1] ll1].
    cbn [fst] in H. grow. exact H.
  - destruct (Rltb 0 _).
    + match goal with
      | |- context [add_segments_right_turn lib ref sd curve lr ll ?a ?b ?g] =>
          pose proof (add_segments_right_turn_grows ref sd curve lr ll a b g) as H;
          destruct (add_segments_right_turn lib ref sd curve lr ll a b g)
            as [[sd1 lr1] ll1]
      end.
      cbn [fst] in H. grow. exact H.
    + match goal with
      | |- context [add_segments_left_turn lib ref sd curve lr ll ?a ?b ?g] =>
          pose proof (add_segments_left_turn_grows ref sd curve lr ll a b g) as H;
          destruct (add_segments_left_turn lib ref sd curve lr ll a b g)
            as [[sd1 lr1] ll1]
      end.
      cbn [fst] in H. grow. exact H.
Qed.

End Growth.

(** ** The sub-paths that finishing a contour deposits *)

Section Shapes.

Variable lib : GskCurveLib.

Lemma begins_with_move_app (b calls : GskPathBuilder) :
  begins_with_move b = true -> begins_with_move (b ++ calls) = true.
Proof. destruct b as [| [] rest]; cbn; intros H; congruence. Qed.

Lemma well_begun_app (b calls : GskPathBuilder) :
  begins_with_move b = true -> well_begun (b ++ calls) = true.
Proof. destruct b as [| [] rest]; cbn; intros H; congruence. Qed.

Lemma add_line_cap_prefix (b : GskPathBuilder) (params : GskStroke)
      (s e : graphene_point_t) :
  exists calls, add_line_cap b params s e = b ++ calls.
Proof.
  unfold add_line_cap, path_builder_line_to_point, gsk_path_builder_line_to,
    gsk_path_builder_svg_arc_to.
  destruct (line_cap params); rewrite <- ?app_assoc; eexists; reflexivity.
Qed.

Lemma add_curve_pending sd curve :
  pending_begun sd -> pending_begun (add_curve lib sd curve).
Proof.
  unfold add_curve, pending_begun.
  destruct (has_current_curve sd) eqn:Hc; cbn [negb].
  - intros [Hr Hl].
    match goal with
    | |- context [add_segments lib caller_local sd curve ?lr ?ll] =>
        destruct (add_segments_grows lib caller_local sd curve lr ll)
          as (_ & Hcc & (ra & Hra) & (la & Hla));
        set (sd1 := add_segments lib caller_local sd curve lr ll) in *
    end.
    clearbody sd1.
    cbn [has_current_curve set_is_first_curve right left].
    rewrite Hcc, Hc, Hra, Hla.
    split; apply begins_with_move_app; assumption.
  - intros [Hr Hl].
    cbn -[gsk_curve_offset]. rewrite Hr, Hl. split; reflexivity.
Qed.

Lemma fold_add_curve_pending {B : Type} (f : B -> GskCurve) (xs : list B) :
  forall sd,
    pending_begun sd ->
    pending_begun (fold_left (fun sd p => add_curve lib sd (f p)) xs sd).
Proof.
  induction xs as [| x xs IH]; intros sd H; cbn [fold_left].
  - exact H.
  - apply IH, add_curve_pending, H.
Qed.

Lemma stroke_op_segment_pending sd ev :
  is_segment ev = true ->
  pending_begun sd -> pending_begun (stroke_op lib sd ev).
Proof.
  destruct ev as [p | a b | p0 p1 | k | k]; intros H Hp;
    try discriminate H; unfold stroke_op.
  - apply add_curve_pending, Hp.
  - rewrite subdivide_and_add_curve_pieces.
    apply (fold_add_curve_pending (fun p => GSK_CURVE (snd p))), Hp.
  - rewrite subdivide_and_add_conic_pieces.
    apply (fold_add_curve_pending (fun p => GSK_CONIC (snd p))), Hp.
Qed.

(** The open contour: what [cap_and_connect_contours] deposits is the right
    sub-path, continued. *)
Lemma cap_and_connect_contours_path sd :
  exists calls,
    builder (cap_and_connect_contours lib sd) = builder sd ++ [right sd ++ calls]
    /\ (has_current_curve sd = false -> begins_with_move calls = true).
Proof.
  unfold cap_and_connect_contours.
  destruct (has_current_curve sd) eqn:Hc; destruct (is_first_curve sd) eqn:Hf;
    do 4 (cbn -[path_builder_add_reverse_path add_line_cap path_builder_add_curve];
          rewrite ?Hc, ?Hf);
    unfold gsk_path_builder_add_path, gsk_path_builder_free_to_path,
      gsk_path_builder_close, path_builder_add_reverse_path,
      path_builder_move_to_point, gsk_path_builder_move_to;
    rewrite ?fold_path_builder_add_curve, ?path_builder_add_curve_call;
    repeat match goal with
           | |- context [add_line_cap ?b ?s ?p ?q] =>
               let calls := fresh "calls" in
               let E := fresh "E" in
               destruct (add_line_cap_prefix b s p q) as [calls E];
               rewrite E; clear E
           end;
    rewrite <- ?app_assoc;
    eexists; (split; [reflexivity |]); intros H; try discriminate H;
    reflexivity.
Qed.

Lemma cap_and_connect_contours_shape sd :
  pending_begun sd ->
  exists path,
    builder (cap_and_connect_contours lib sd) = builder sd ++ [path]
    /\ path_is_closed path /\ well_begun path = true.
Proof.
  intros Hp.
  destruct (cap_and_connect_contours_deposit lib sd) as (path & Hb & Hclosed).
  destruct (cap_and_connect_contours_path sd) as (calls & Hb' & Hm).
  exists path. split; [exact Hb |]. split; [exact Hclosed |].
  rewrite Hb in Hb'. apply app_inv_head in Hb'. injection Hb' as ->.
  unfold pending_begun in Hp. destruct (has_current_curve sd).
  - apply well_begun_app, Hp.
  - destruct Hp as [-> _]. specialize (Hm eq_refl).
    destruct calls as [| [] rest]; cbn in *; congruence.
Qed.

(** The closed contour: what [close_contours] deposits are the right and the
    left sub-path, continued and closed. *)
Lemma close_contours_shape sd :
  pending_begun sd ->
  exists outer inner,
    builder (close_contours lib sd) = builder sd ++ [outer; inner]
    /\ (path_is_closed outer /\ well_begun outer = true)
    /\ (path_is_closed inner /\ well_begun inner = true).
Proof.
  intros Hp. unfold pending_begun in Hp.
  unfold close_contours, path_is_closed.
  destruct (has_current_curve sd) eqn:Hc.
  - destruct Hp as [Hr Hl].
    destruct (add_segments_grows lib first_segment sd (c0 sd) (r0 sd) (l0 sd))
      as ((Hb & _ & _) & _ & (ra & Hra) & (la & Hla)).
    set (sd1 := add_segments lib first_segment sd (c0 sd) (r0 sd) (l0 sd)) in *.
    clearbody sd1.
    cbn -[path_builder_add_curve].
    unfold gsk_path_builder_add_path, gsk_path_builder_free_to_path,
      gsk_path_builder_close.
    rewrite Hb, Hra, Hla, !path_builder_add_curve_call, <- !app_assoc.
    do 2 eexists. split; [reflexivity |].
    split; (split; [eexists; rewrite !app_assoc; reflexivity
                   | apply well_begun_app; assumption]).
  - destruct Hp as [Hr Hl]. cbn.
    unfold gsk_path_builder_add_path, gsk_path_builder_free_to_path,
      gsk_path_builder_close.
    rewrite Hr, Hl, <- app_assoc.
    do 2 eexists. split; [reflexivity |].
    split; (split; [exists []; reflexivity | reflexivity]).
Qed.

Lemma stroke_op_close_shape sd a b :
  has_current_point sd = true ->
  pending_begun sd ->
  exists outer inner,
    builder (stroke_op lib sd (GSK_PATH_CLOSE a b))
    = builder sd ++ [outer; inner]
    /\ (path_is_closed outer /\ well_begun outer = true)
    /\ (path_is_closed inner /\ well_begun inner = true).
Proof.
  intros Hcur Hp.
  unfold stroke_op. rewrite Hcur.
  set (sd1 := if negb (graphene_point_near a b (1 / 1000))
              then add_curve lib sd (GSK_LINE a b) else sd).
  assert (H1 : builder sd1 = builder sd).
  { unfold sd1. destruct (negb _); [apply add_curve_same | reflexivity]. }
  assert (H2 : pending_begun sd1).
  { unfold sd1. destruct (negb _); [apply add_curve_pending |]; exact Hp. }
  destruct (close_contours_shape sd1 H2) as (outer & inner & Hb & Ho & Hi).
  exists outer, inner. split; [| split; assumption].
  cbn [builder set_has_current_point set_has_current_curve].
  rewrite Hb, H1. reflexivity.
Qed.

Lemma stroke_op_move_pending sd p :
  pending_begun (stroke_op lib sd (GSK_PATH_MOVE p)).
Proof. split; reflexivity. Qed.

End Shapes.

(** ** Any stream of events *)

Section Streams.

Variable lib : GskCurveLib.

Lemma stream_deposits (evs : list GskPathEvent) :
  forall sd,
    segments_follow_move (has_current_point sd) evs = true ->
    (has_current_point sd = true -> pending_begun sd) ->
    let sd' := fold_left (stroke_op lib) evs sd in
    exists added,
      builder (if has_current_point sd'
               then cap_and_connect_contours lib sd' else sd')
      = builder sd ++ added
      /\ length added = deposits (has_current_point sd) evs
      /\ Forall (fun path => path_is_closed path /\ well_begun path = true)
                added.
Proof.
  induction evs as [| ev evs IH]; intros sd Hwf Hinv; cbn [fold_left].
  - cbn [deposits]. destruct (has_current_point sd) eqn:Hp.
    + destruct (cap_and_connect_contours_shape lib sd (Hinv eq_refl))
        as (path & Hb & Hc).
      exists [path]. repeat split; [exact Hb | repeat constructor; apply Hc ..].
    + exists []. rewrite app_nil_r. repeat split. constructor.
  - destruct ev as [p | a b | p0 p1 | k | k].
    + (* MOVE *)
      destruct (stroke_op_move lib sd p) as [Hp Hb].
      cbn [segments_follow_move] in Hwf.
      destruct (IH (stroke_op lib sd (GSK_PATH_MOVE p)))
        as (added & Ha & Hl & Hc);
        [rewrite Hp; exact Hwf | intros _; apply stroke_op_move_pending |].
      rewrite Hp in Hl. cbn [deposits].
      destruct (has_current_point sd) eqn:Hcur.
      * destruct (cap_and_connect_contours_shape lib sd (Hinv eq_refl))
          as (path & Hpath & Hshape).
        exists (path :: added). split; [| split].
        -- cbv zeta in Ha. rewrite Ha, Hb, Hpath, <- app_assoc. reflexivity.
        -- cbn. rewrite Hl. reflexivity.
        -- constructor; assumption.
      * exists added. split; [| split]; [| exact Hl | exact Hc].
        cbv zeta in Ha. rewrite Ha, Hb. reflexivity.
    + (* CLOSE *)
      cbn [segments_follow_move] in Hwf. cbn [deposits].
      assert (Hp : has_current_point (stroke_op lib sd (GSK_PATH_CLOSE a b))
                   = false) by reflexivity.
      destruct (IH (stroke_op lib sd (GSK_PATH_CLOSE a b)))
        as (added & Ha & Hl & Hc);
        [rewrite Hp; exact Hwf | rewrite Hp; discriminate |].
      rewrite Hp in Hl.
      destruct (has_current_point sd) eqn:Hcur.
      * destruct (stroke_op_close_shape lib sd a b Hcur (Hinv eq_refl))
          as (outer & inner & Hb & Ho & Hi).
        exists (outer :: inner :: added). split; [| split].
        -- cbv zeta in Ha. rewrite Ha, Hb, <- app_assoc. reflexivity.
        -- cbn. rewrite Hl. reflexivity.
        -- repeat constructor; solve [apply Ho | apply Hi | exact Hc].
      * assert (Hb : builder (stroke_op lib sd (GSK_PATH_CLOSE a b))
                     = builder sd).
        { unfold stroke_op. rewrite Hcur. reflexivity. }
        exists added. split; [| split]; [| exact Hl | exact Hc].
        cbv zeta in Ha. rewrite Ha, Hb. reflexivity.
    + cbn [segments_follow_move] in Hwf. apply andb_prop in Hwf.
      destruct Hwf as [Hcur Hwf].
      destruct (stroke_op_segment_same lib sd (GSK_PATH_LINE p0 p1) eq_refl)
        as (Hb & _ & Hp).
      destruct (IH (stroke_op lib sd (GSK_PATH_LINE p0 p1)))
        as (added & Ha & Hl & Hc);
        [rewrite Hp; exact Hwf
        | intros _; apply stroke_op_segment_pending;
          [reflexivity | exact (Hinv Hcur)] |].
      exists added. cbn [deposits]. rewrite <- Hp, <- Hb.
      split; [exact Ha | split; assumption].
    + cbn [segments_follow_move] in Hwf. apply andb_prop in Hwf.
      destruct Hwf as [Hcur Hwf].
      destruct (stroke_op_segment_same lib sd (GSK_PATH_CURVE k) eq_refl)
        as (Hb & _ & Hp).
      destruct (IH (stroke_op lib sd (GSK_PATH_CURVE k)))
        as (added & Ha & Hl & Hc);
        [rewrite Hp; exact Hwf
        | intros _; apply stroke_op_segment_pending;
          [reflexivity | exact (Hinv Hcur)] |].
      exists added. cbn [deposits]. rewrite <- Hp, <- Hb.
      split; [exact Ha | split; assumption].
    + cbn [segments_follow_move] in Hwf. apply andb_prop in Hwf.
      destruct Hwf as [Hcur Hwf].
      destruct (stroke_op_segment_same lib sd (GSK_PATH_CONIC k) eq_refl)
        as (Hb & _ & Hp).
      destruct (IH (stroke_op lib sd (GSK_PATH_CONIC k)))
        as (added & Ha & Hl & Hc);
        [rewrite Hp; exact Hwf
        | intros _; apply stroke_op_segment_pending;
          [reflexivity | exact (Hinv Hcur)] |].
      exists added. cbn [deposits]. rewrite <- Hp, <- Hb.
      split; [exact Ha | split; assumption].
Qed.

(** X15: for any stream of events in which segments arrive only while a
    current point is set, the stroke call leaves what the sink held in
    place and appends sub-paths that are all closed; their number is read
    off the events: one for each contour left open, at a MOVE or at the end
    of the stream, and two for each contour ended by CLOSE. *)
Theorem stroke_deposits_closed_subpaths
  (contour : GskContour) (sink : GskPathSink) (params : GskStroke) :
  segments_follow_move false (delivered_events lib contour params) = true ->
  exists added,
    gsk_contour_default_add_stroke lib contour sink params = sink ++ added
    /\ length added = deposits false (delivered_events lib contour params)
    /\ Forall path_is_closed added.
Proof.
  intros Hwf.
  destruct (stream_deposits (delivered_events lib contour params)
              (initial_stroke_data sink params) Hwf)
    as (added & Ha & Hl & Hc); [discriminate |].
  exists added. split; [exact Ha |]. split; [exact Hl |].
  eapply Forall_impl; [| exact Hc]. intros path H. apply H.
Qed.

(** X16: for any stream of events in which segments arrive only while a
    current point is set, every sub-path that the stroke call appends to
    the sink begins with a [move_to], the only exception being the lone
    [close] that a contour closed without any segment leaves. *)
Theorem stroke_subpaths_begin_with_move
  (contour : GskContour) (sink : GskPathSink) (params : GskStroke) :
  segments_follow_move false (delivered_events lib contour params) = true ->
  exists added,
    gsk_contour_default_add_stroke lib contour sink params = sink ++ added
    /\ Forall (fun path => well_begun path = true) added.
Proof.
  intros Hwf.
  destruct (stream_deposits (delivered_events lib contour params)
              (initial_stroke_data sink params) Hwf)
    as (added & Ha & _ & Hc); [discriminate |].
  exists added. split; [exact Ha |].
  eapply Forall_impl; [| exact Hc]. intros path H. apply H.
Qed.

End Streams.

Lemma stroke_subpaths_begin_with_move_witness :
  segments_follow_move false
    (delivered_events polyline_lib corner_contour butt_miter_stroke) = true
  /\ exists added,
       gsk_contour_default_add_stroke polyline_lib corner_contour []
         butt_miter_stroke = [] ++ added
       /\ Forall (fun path => well_begun path = true) added.
Proof.
  assert (H : segments_follow_move false
                (delivered_events polyline_lib corner_contour
                   butt_miter_stroke) = true).
  { rewrite delivered_events_undashed by (simpl; lra). reflexivity. }
  split; [exact H |].
  exact (stroke_subpaths_begin_with_move polyline_lib corner_contour []
           butt_miter_stroke H).
Defined.

Lemma stroke_deposits_closed_subpaths_witness :
  segments_follow_move false
    (delivered_events polyline_lib triangle_contour butt_miter_stroke) = true
  /\ exists added,
       gsk_contour_default_add_stroke polyline_lib triangle_contour []
         butt_miter_stroke = [] ++ added
       /\ length added = 2%nat.
Proof.
  assert (H : segments_follow_move false
                (delivered_events polyline_lib triangle_contour
                   butt_miter_stroke) = true).
  { rewrite delivered_events_undashed by (simpl; lra). reflexivity. }
  split; [exact H |].
  destruct (stroke_deposits_closed_subpaths polyline_lib triangle_contour []
              butt_miter_stroke H) as (added & Ha & Hl & _).
  exists added. split; [exact Ha |].
  rewrite Hl, delivered_events_undashed by (simpl; lra). reflexivity.
Defined.

(** ** Dots, single lines and empty contours *)

Lemma get_normal_unit_x (p : graphene_point_t) :
  get_normal p (GRAPHENE_POINT_INIT (px p + 1) (py p)) = graphene_vec2_init 0 1.
Proof.
  unfold get_normal, graphene_vec2_normalize, graphene_vec2_length.
  cbn [px py vx vy].
  replace ((py p - py p) * (py p - py p) + (px p + 1 - px p) * (px p + 1 - px p))
    with 1 by ring.
  rewrite sqrt_1. f_equal; field.
Qed.

Lemma dot_offset_start (lib : GskCurveLib) (p : graphene_point_t) (d : R) :
  gsk_curve_get_start_point
    (gsk_curve_offset lib
       (GSK_LINE p (GRAPHENE_POINT_INIT (px p + 1) (py p))) d)
  = GRAPHENE_POINT_INIT (px p) (py p + d).
Proof.
  unfold gsk_curve_offset, gsk_line_curve_offset. rewrite get_normal_unit_x.
  unfold scale_point. cbn [gsk_curve_get_start_point px py vx vy].
  f_equal; ring.
Qed.

(** Two lists of calls are equal when their coordinates are. *)
Ltac calls_eq :=
  repeat match goal with
         | |- _ :: _ = _ :: _ => apply f_equal2
         end;
  try reflexivity;
  (f_equal; try field; try lra).

(** X17: a MOVE that no segment follows is stroked as a dot of its own,
    built from the two caps alone around the points (x, y + w/2) and
    (x, y - w/2): with square caps the square of side w centred at the
    point, with round caps two half-circle arcs of radius w/2, with butt
    caps a line there and back. *)
Theorem stroke_lone_move
  (lib : GskCurveLib) (sink : GskPathSink) (params : GskStroke)
  (p : graphene_point_t) :
  dash_length params <= 0 ->
  let x := px p in
  let y := py p in
  let h := line_width params / 2 in
  gsk_contour_default_add_stroke lib [GSK_PATH_MOVE p] sink params
  = sink ++ [match line_cap params with
             | GSK_LINE_CAP_BUTT =>
                 [move_to x (y + h); line_to x (y - h); line_to x (y + h); close]
             | GSK_LINE_CAP_ROUND =>
                 [move_to x (y + h);
                  svg_arc_to h h 0 true false x (y - h);
                  svg_arc_to h h 0 true false x (y + h);
                  close]
             | GSK_LINE_CAP_SQUARE =>
                 [move_to x (y + h);
                  line_to (x + h) (y + h); line_to (x + h) (y - h);
                  line_to x (y - h);
                  line_to (x - h) (y - h); line_to (x - h) (y + h);
                  line_to x (y + h);
                  close]
             end].
Proof.
  intros Hdash x y h.
  unfold gsk_contour_default_add_stroke.
  rewrite delivered_events_undashed by exact Hdash.
  unfold gsk_contour_foreach.
  cbn -[gsk_curve_offset add_line_cap].
  rewrite !dot_offset_start.
  unfold add_line_cap, gsk_path_builder_add_path.
  f_equal. f_equal.
  destruct (line_cap params); cbn; unfold x, y, h; calls_eq.
Qed.

Lemma stroke_lone_move_witness :
  dash_length butt_miter_stroke <= 0
  /\ gsk_contour_default_add_stroke polyline_lib
       [GSK_PATH_MOVE (GRAPHENE_POINT_INIT 3 4)] [] butt_miter_stroke
     = [] ++ [[move_to 3 (4 + 2 / 2); line_to 3 (4 - 2 / 2);
               line_to 3 (4 + 2 / 2); close]].
Proof.
  assert (H : dash_length butt_miter_stroke <= 0) by (simpl; lra).
  split; [exact H |].
  exact (stroke_lone_move polyline_lib [] butt_miter_stroke
           (GRAPHENE_POINT_INIT 3 4) H).
Defined.

Lemma get_normal_square (p0 p1 : graphene_point_t) :
  p0 <> p1 ->
  vx (get_normal p0 p1) * vx (get_normal p0 p1)
  + vy (get_normal p0 p1) * vy (get_normal p0 p1) = 1.
Proof.
  intros Hne.
  assert (Hd : py p0 - py p1 <> 0 \/ px p1 - px p0 <> 0).
  { destruct (Req_dec (px p1 - px p0) 0) as [Hx | Hx]; [| right; exact Hx].
    left. intros Hy. apply Hne.
    destruct p0 as [x0 y0], p1 as [x1 y1]. cbn [px py] in *.
    f_equal; lra. }
  pose proof (normalize_unit _ _ Hd) as Hlen.
  unfold graphene_vec2_length in Hlen. fold (get_normal p0 p1) in Hlen.
  set (s := vx (get_normal p0 p1) * vx (get_normal p0 p1)
            + vy (get_normal p0 p1) * vy (get_normal p0 p1)) in *.
  assert (Hs : 0 <= s) by (unfold s; nra).
  rewrite <- (sqrt_sqrt s Hs), Hlen. ring.
Qed.

Lemma get_normal_perpendicular (p0 p1 : graphene_point_t) :
  vx (get_normal p0 p1) * (px p1 - px p0)
  + vy (get_normal p0 p1) * (py p1 - py p0) = 0.
Proof.
  unfold get_normal, graphene_vec2_normalize. cbn [vx vy].
  unfold Rdiv. ring.
Qed.

(** X18: one line from [p0] to [p1], left open, with butt caps, is stroked
    as one closed sub-path through the four points [p0 + h n], [p1 + h n],
    [p1 - h n], [p0 - h n], where [h] is half the line width and [n] the
    normal of the line.  [n] is perpendicular to the line and, for
    [p0 <> p1], of length 1: the sub-path is the rectangle as long as the
    line and as wide as the line width. *)
Theorem stroke_single_line
  (lib : GskCurveLib) (sink : GskPathSink) (params : GskStroke)
  (p0 p1 : graphene_point_t) :
  dash_length params <= 0 ->
  line_cap params = GSK_LINE_CAP_BUTT ->
  let n := get_normal p0 p1 in
  let h := line_width params / 2 in
  gsk_contour_default_add_stroke lib
    [GSK_PATH_MOVE p0; GSK_PATH_LINE p0 p1] sink params
  = sink ++ [[move_to (px p0 + h * vx n) (py p0 + h * vy n);
              line_to (px p1 + h * vx n) (py p1 + h * vy n);
              line_to (px p1 - h * vx n) (py p1 - h * vy n);
              line_to (px p0 - h * vx n) (py p0 - h * vy n);
              line_to (px p0 + h * vx n) (py p0 + h * vy n);
              close]]
  /\ vx n * (px p1 - px p0) + vy n * (py p1 - py p0) = 0
  /\ (p0 <> p1 -> vx n * vx n + vy n * vy n = 1).
Proof.
  intros Hdash Hcap n h.
  split; [| split; [apply get_normal_perpendicular | apply get_normal_square]].
  unfold gsk_contour_default_add_stroke.
  rewrite delivered_events_undashed by exact Hdash.
  unfold gsk_contour_foreach.
  cbn -[gsk_curve_offset add_line_cap get_normal].
  unfold add_line_cap. rewrite Hcap.
  unfold gsk_curve_offset, gsk_line_curve_offset, scale_point.
  cbn -[get_normal].
  unfold gsk_path_builder_add_path. f_equal. f_equal.
  fold n. unfold h. calls_eq.
Qed.

Lemma stroke_single_line_witness :
  let params := butt_miter_stroke in
  let p0 := GRAPHENE_POINT_INIT 0 0 in
  let p1 := GRAPHENE_POINT_INIT 10 0 in
  dash_length params <= 0 /\ line_cap params = GSK_LINE_CAP_BUTT
  /\ vx (get_normal p0 p1) * (px p1 - px p0)
     + vy (get_normal p0 p1) * (py p1 - py p0) = 0.
Proof.
  cbv zeta.
  assert (H : dash_length butt_miter_stroke <= 0) by (simpl; lra).
  split; [exact H |]. split; [reflexivity |].
  exact (proj1 (proj2 (stroke_single_line polyline_lib [] butt_miter_stroke
           (GRAPHENE_POINT_INIT 0 0) (GRAPHENE_POINT_INIT 10 0) H eq_refl))).
Defined.

Lemma graphene_point_near_refl (p : graphene_point_t) :
  graphene_point_near p p (1 / 1000) = true.
Proof.
  unfold graphene_point_near.
  replace (px p - px p) with 0 by ring.
  replace (py p - py p) with 0 by ring.
  rewrite Rabs_R0, Rltb_true by lra. reflexivity.
Qed.

(** X19: a CLOSE whose two points are not near each other is handled as
    the line between them followed by a CLOSE without a gap: when a current
    point is set, both leave the same state. *)
Theorem stroke_op_close_with_gap
  (lib : GskCurveLib) (sd : StrokeData) (a b : graphene_point_t) :
  has_current_point sd = true ->
  graphene_point_near a b (1 / 1000) = false ->
  stroke_op lib sd (GSK_PATH_CLOSE a b)
  = stroke_op lib (stroke_op lib sd (GSK_PATH_LINE a b)) (GSK_PATH_CLOSE b b).
Proof.
  intros Hp Hfar.
  destruct (add_curve_same lib sd (GSK_LINE a b)) as (_ & _ & Hp').
  unfold stroke_op. rewrite Hp' , Hp, Hfar, graphene_point_near_refl.
  reflexivity.
Qed.

Lemma stroke_op_close_with_gap_witness :
  has_current_point after_corner = true
  /\ graphene_point_near (GRAPHENE_POINT_INIT 10 10) (GRAPHENE_POINT_INIT 0 0)
       (1 / 1000) = false
  /\ stroke_op polyline_lib after_corner
       (GSK_PATH_CLOSE (GRAPHENE_POINT_INIT 10 10) (GRAPHENE_POINT_INIT 0 0))
     = stroke_op polyline_lib
         (stroke_op polyline_lib after_corner
            (GSK_PATH_LINE (GRAPHENE_POINT_INIT 10 10) (GRAPHENE_POINT_INIT 0 0)))
         (GSK_PATH_CLOSE (GRAPHENE_POINT_INIT 0 0) (GRAPHENE_POINT_INIT 0 0)).
Proof.
  assert (H : graphene_point_near (GRAPHENE_POINT_INIT 10 10)
                (GRAPHENE_POINT_INIT 0 0) (1 / 1000) = false).
  { unfold graphene_point_near. cbn [px py].
    rewrite (Rltb_false (Rabs (10 - 0)))
      by (rewrite Rabs_pos_eq; lra).
    reflexivity. }
  split; [reflexivity |]. split; [exact H |].
  exact (stroke_op_close_with_gap polyline_lib after_corner _ _ eq_refl H).
Defined.

(** X20: a MOVE followed at once by a CLOSE without a gap deposits two
    sub-paths on which nothing but [close] was called: a closed contour
    without a segment gets no caps and no outline, where the same MOVE left
    open is stroked as a dot. *)
Theorem stroke_empty_closed_contour
  (lib : GskCurveLib) (sink : GskPathSink) (params : GskStroke)
  (p a b : graphene_point_t) :
  dash_length params <= 0 ->
  graphene_point_near a b (1 / 1000) = true ->
  gsk_contour_default_add_stroke lib
    [GSK_PATH_MOVE p; GSK_PATH_CLOSE a b] sink params
  = sink ++ [[close]; [close]].
Proof.
  intros Hdash Hnear.
  unfold gsk_contour_default_add_stroke.
  rewrite delivered_events_undashed by exact Hdash.
  unfold gsk_contour_foreach. cbn [fold_left].
  set (sd1 := stroke_op lib (initial_stroke_data sink params) (GSK_PATH_MOVE p)).
  assert (Hp : has_current_point sd1 = true) by reflexivity.
  assert (Hc : has_current_curve sd1 = false) by reflexivity.
  assert (Hb : builder sd1 = sink) by reflexivity.
  assert (Hr : right sd1 = []) by reflexivity.
  assert (Hl : left sd1 = []) by reflexivity.
  clearbody sd1.
  unfold stroke_op. rewrite Hp, Hnear. cbn [negb].
  cbn [has_current_point set_has_current_point set_has_current_curve builder].
  unfold close_contours. rewrite Hc.
  cbn [builder right left set_right set_left set_builder
       gsk_path_builder_free_to_path].
  unfold gsk_path_builder_add_path, gsk_path_builder_close.
  rewrite Hb, Hr, Hl, <- app_assoc. reflexivity.
Qed.

Lemma stroke_empty_closed_contour_witness :
  dash_length butt_miter_stroke <= 0
  /\ graphene_point_near (GRAPHENE_POINT_INIT 3 4) (GRAPHENE_POINT_INIT 3 4)
       (1 / 1000) = true
  /\ gsk_contour_default_add_stroke polyline_lib
       [GSK_PATH_MOVE (GRAPHENE_POINT_INIT 3 4);
        GSK_PATH_CLOSE (GRAPHENE_POINT_INIT 3 4) (GRAPHENE_POINT_INIT 3 4)]
       [] butt_miter_stroke
     = [] ++ [[close]; [close]].
Proof.
  assert (H : dash_length butt_miter_stroke <= 0) by (simpl; lra).
  split; [exact H |].
  split; [apply graphene_point_near_refl |].
  exact (stroke_empty_closed_contour polyline_lib [] butt_miter_stroke
           _ _ _ H (graphene_point_near_refl _)).
Defined.

(** ** The other two branches of add_segments *)

Section Branches.

Variable lib : GskCurveLib.

(** X21: when the turn angle between the pending segment and the arriving
    one is negative and not within 5 degrees of straight, the join is
    synthesized on the right sub-path, whose offsets stay whole, and the
    left offsets are intersected and trimmed, or connected by a line when
    they do not cross: the mirror image of a positive angle. *)
Theorem left_turn_joins_right_trims_left
  (ref : CurveRef) (sd : StrokeData) (curve lr ll : GskCurve) :
  let tangent1 := gsk_curve_get_end_tangent lib (c sd) in
  let tangent2 := gsk_curve_get_start_tangent lib curve in
  let angle := angle_between tangent1 tangent2 in
  DEG_TO_RAD 5 <= Rabs angle ->
  angle <= 0 ->
  let sd' := add_segments lib ref sd curve lr ll in
  let flushed := append_right sd (r sd) in
  right sd'
  = add_line_join lib (right flushed) (stroke sd)
      (gsk_curve_get_start_point curve)
      (gsk_curve_get_end_point (r sd)) tangent1
      (gsk_curve_get_start_point (deref_r ref flushed lr)) tangent2 angle
  /\ left sd'
     = match gsk_curve_intersect lib (l sd) (deref_l ref sd ll) with
       | Some (t1, _, _) =>
           left (append_left sd (fst (gsk_curve_split lib (l sd) t1)))
       | None =>
           path_builder_line_to_point
             (left (append_left sd (l sd)))
             (gsk_curve_get_start_point
                (deref_l ref (append_left sd (l sd)) ll))
       end
  /\ (ref = caller_local ->
      r sd' = lr
      /\ l sd'
         = match gsk_curve_intersect lib (l sd) ll with
           | Some (_, t2, _) => snd (gsk_curve_split lib ll t2)
           | None => ll
           end).
Proof.
  intros tangent1 tangent2 angle Hnot_straight Hneg sd' flushed.
  unfold sd', add_segments. fold tangent1 tangent2 angle.
  rewrite (Rltb_false _ _ Hnot_straight), (Rltb_false _ _ Hneg).
  unfold add_segments_left_turn, flushed.
  split; [| split].
  - destruct ref;
      unfold append_left, append_right;
      destruct (is_first_curve sd) eqn:Hf; do 3 (cbn; rewrite ?Hf);
      match goal with
      | |- context [gsk_curve_intersect lib ?x ?y] =>
          destruct (gsk_curve_intersect lib x y) as [[[t1 t2] p] |]
      end; do 3 (cbn; rewrite ?Hf); reflexivity.
  - destruct ref;
      unfold append_left, append_right;
      destruct (is_first_curve sd) eqn:Hf; do 3 (cbn; rewrite ?Hf);
      match goal with
      | |- context [gsk_curve_intersect lib ?x ?y] =>
          destruct (gsk_curve_intersect lib x y) as [[[t1 t2] p] |]
      end; do 3 (cbn; rewrite ?Hf); reflexivity.
  - intros ->. cbn [deref_r deref_l].
    unfold append_left, append_right;
      destruct (is_first_curve sd) eqn:Hf; do 3 (cbn; rewrite ?Hf);
      match goal with
      | |- context [gsk_curve_intersect lib ?x ?y] =>
          destruct (gsk_curve_intersect lib x y) as [[[t1 t2] p] |]
      end; do 3 (cbn; rewrite ?Hf); split; reflexivity.
Qed.

(** X22: when the turn angle is within 5 degrees of straight, nothing is
    trimmed and no join is made: each sub-path receives its pending curve
    and then a line to the start of the arriving offset, and the arriving
    segment and its offsets become the pending ones as they are. *)
Theorem straight_connects_with_lines
  (ref : CurveRef) (sd : StrokeData) (curve lr ll : GskCurve) :
  Rabs (angle_between (gsk_curve_get_end_tangent lib (c sd))
                      (gsk_curve_get_start_tangent lib curve))
  < DEG_TO_RAD 5 ->
  let sd' := add_segments lib ref sd curve lr ll in
  right sd'
  = path_builder_line_to_point
      (right (append_right sd (r sd)))
      (gsk_curve_get_start_point (deref_r ref (append_right sd (r sd)) lr))
  /\ left sd'
     = path_builder_line_to_point
         (left (append_left sd (l sd)))
         (gsk_curve_get_start_point (deref_l ref (append_left sd (l sd)) ll))
  /\ c sd' = curve
  /\ (ref = caller_local -> r sd' = lr /\ l sd' = ll).
Proof.
  intros Hstraight sd'.
  unfold sd', add_segments.
  rewrite (Rltb_true _ _ Hstraight).
  unfold add_segments_straight.
  split; [| split; [| split]].
  - destruct ref; unfold append_left, append_right;
      destruct (is_first_curve sd) eqn:Hf; do 3 (cbn; rewrite ?Hf);
      reflexivity.
  - destruct ref; unfold append_left, append_right;
      destruct (is_first_curve sd) eqn:Hf; do 3 (cbn; rewrite ?Hf);
      reflexivity.
  - reflexivity.
  - intros ->. split; reflexivity.
Qed.

End Branches.

Lemma angle_between_self (t : graphene_vec2_t) : angle_between t t = 0.
Proof.
  pose proof PI_RGT_0 as Hpi.
  unfold angle_between, M_PI.
  replace (atan2 (vy t) (vx t) - atan2 (vy t) (vx t)) with 0 by ring.
  rewrite (Rltb_false PI 0) by lra.
  rewrite (Rltb_false 0 (- PI)) by lra. reflexivity.
Qed.

Lemma get_tangent_east_again :
  get_tangent (GRAPHENE_POINT_INIT 10 0) (GRAPHENE_POINT_INIT 20 0)
  = graphene_vec2_init 1 0.
Proof.
  unfold get_tangent, graphene_vec2_normalize, graphene_vec2_length. simpl.
  replace ((20 - 10) * (20 - 10) + (0 - 0) * (0 - 0)) with (10 * 10) by lra.
  rewrite sqrt_square by lra.
  f_equal; field.
Qed.

Lemma get_tangent_north :
  get_tangent (GRAPHENE_POINT_INIT 10 0) (GRAPHENE_POINT_INIT 10 (-10))
  = graphene_vec2_init 0 (-1).
Proof.
  unfold get_tangent, graphene_vec2_normalize, graphene_vec2_length. simpl.
  replace ((10 - 10) * (10 - 10) + (-10 - 0) * (-10 - 0)) with (10 * 10) by lra.
  rewrite sqrt_square by lra.
  f_equal; field.
Qed.

Lemma atan2_m1_0 : atan2 (-1) 0 = - (PI / 2).
Proof.
  unfold atan2. destruct (Rlt_dec 0 0); [lra |].
  destruct (Rlt_dec 0 (-1)); [lra |].
  destruct (Rlt_dec (-1) 0); [reflexivity | lra].
Qed.

Lemma angle_between_east_north :
  angle_between (graphene_vec2_init 1 0) (graphene_vec2_init 0 (-1)) = - (PI / 2).
Proof.
  pose proof PI_RGT_0 as Hpi.
  unfold angle_between, M_PI. simpl.
  rewrite atan2_0_1, atan2_m1_0.
  rewrite (Rltb_false PI) by lra.
  rewrite (Rltb_false _ (- PI)) by lra. lra.
Qed.

Lemma left_turn_joins_right_trims_left_witness :
  let north := GSK_LINE (GRAPHENE_POINT_INIT 10 0) (GRAPHENE_POINT_INIT 10 (-10)) in
  let angle := turn_angle polyline_lib after_first_line north in
  DEG_TO_RAD 5 <= Rabs angle /\ angle <= 0
  /\ r (add_segments polyline_lib caller_local after_first_line north
          (gsk_curve_offset polyline_lib north 1)
          (gsk_curve_offset polyline_lib north (-1)))
     = gsk_curve_offset polyline_lib north 1.
Proof.
  cbv zeta.
  assert (Ha : turn_angle polyline_lib after_first_line
                 (GSK_LINE (GRAPHENE_POINT_INIT 10 0)
                           (GRAPHENE_POINT_INIT 10 (-10))) = - (PI / 2)).
  { unfold turn_angle. simpl.
    rewrite get_tangent_east, get_tangent_north.
    apply angle_between_east_north. }
  pose proof PI_RGT_0 as Hpi.
  assert (H1 : DEG_TO_RAD 5
               <= Rabs (turn_angle polyline_lib after_first_line
                          (GSK_LINE (GRAPHENE_POINT_INIT 10 0)
                                    (GRAPHENE_POINT_INIT 10 (-10))))).
  { rewrite Ha. unfold DEG_TO_RAD, M_PI. rewrite Rabs_Ropp, Rabs_pos_eq; lra. }
  assert (H2 : turn_angle polyline_lib after_first_line
                 (GSK_LINE (GRAPHENE_POINT_INIT 10 0)
                           (GRAPHENE_POINT_INIT 10 (-10))) <= 0).
  { rewrite Ha. lra. }
  split; [exact H1 |]. split; [exact H2 |].
  exact (proj1 (proj2 (proj2 (left_turn_joins_right_trims_left polyline_lib
           caller_local after_first_line _ _ _ H1 H2)) eq_refl)).
Defined.

Lemma straight_connects_with_lines_witness :
  let east := GSK_LINE (GRAPHENE_POINT_INIT 10 0) (GRAPHENE_POINT_INIT 20 0) in
  Rabs (turn_angle polyline_lib after_first_line east) < DEG_TO_RAD 5
  /\ c (add_segments polyline_lib caller_local after_first_line east
          (gsk_curve_offset polyline_lib east 1)
          (gsk_curve_offset polyline_lib east (-1)))
     = east.
Proof.
  cbv zeta.
  pose proof PI_RGT_0 as Hpi.
  assert (H : Rabs (turn_angle polyline_lib after_first_line
                      (GSK_LINE (GRAPHENE_POINT_INIT 10 0)
                                (GRAPHENE_POINT_INIT 20 0)))
              < DEG_TO_RAD 5).
  { unfold turn_angle. simpl.
    rewrite get_tangent_east, get_tangent_east_again, angle_between_self.
    rewrite Rabs_R0. unfold DEG_TO_RAD, M_PI. lra. }
  split; [exact H |].
  exact (proj1 (proj2 (proj2 (straight_connects_with_lines polyline_lib
           caller_local after_first_line _ _ _ H)))).
Defined.

(** ** The angle test of the simple predicates *)

Lemma Rleb_spec_iff (x y : R) : Rleb x y = true <-> x <= y.
Proof.
  unfold Rleb. destruct (Rle_dec x y); split; intros; try easy.
Qed.

Lemma acos_third (s : R) :
  -1 <= s <= 1 ->
  Rleb (M_PI / 3) (Rabs (acos s)) = true <-> s <= 1 / 2.
Proof.
  intros Hs. pose proof PI_RGT_0 as Hpi.
  pose proof (acos_bound s) as Hb.
  rewrite Rleb_spec_iff. unfold M_PI.
  rewrite Rabs_pos_eq by lra.
  pose proof (cos_acos s Hs) as Hcos.
  pose proof cos_PI3 as H3.
  split; intros H.
  - destruct H as [H | H].
    + assert (cos (acos s) < cos (PI / 3))
        by (apply cos_decreasing_1; lra).
      lra.
    + rewrite <- H in Hcos. lra.
  - destruct (Rle_dec (PI / 3) (acos s)) as [Hle | Hgt]; [exact Hle |].
    assert (cos (PI / 3) < cos (acos s))
      by (apply cos_decreasing_1; lra).
    lra.
Qed.

Lemma unit_dot_range (x1 y1 x2 y2 : R) :
  x1 * x1 + y1 * y1 = 1 -> x2 * x2 + y2 * y2 = 1 ->
  -1 <= x1 * x2 + y1 * y2 <= 1.
Proof.
  intros H1 H2.
  pose proof (Rle_0_sqr (x1 - x2)) as A. pose proof (Rle_0_sqr (y1 - y2)) as B.
  pose proof (Rle_0_sqr (x1 + x2)) as C. pose proof (Rle_0_sqr (y1 + y2)) as D.
  unfold Rsqr in *. split; nra.
Qed.

Lemma get_normal_dot_range (p0 p1 q0 q1 : graphene_point_t) :
  p0 <> p1 -> q0 <> q1 ->
  -1 <= graphene_vec2_dot (get_normal p0 p1) (get_normal q0 q1) <= 1.
Proof.
  intros Hp Hq. unfold graphene_vec2_dot.
  apply unit_dot_range; apply get_normal_square; assumption.
Qed.

(** X23: a conic with distinct consecutive points is simple exactly when
    the dot product of the unit normals of its two legs is greater than
    1/2, that is, when the conic turns by less than 60 degrees between its
    end points. *)
Theorem conic_is_simple_dot (curve : GskConicCurve) :
  conic_p0 curve <> conic_p1 curve ->
  conic_p1 curve <> conic_p3 curve ->
  conic_is_simple curve = true
  <-> 1 / 2 < graphene_vec2_dot
                (get_normal (conic_p0 curve) (conic_p1 curve))
                (get_normal (conic_p1 curve) (conic_p3 curve)).
Proof.
  intros H01 H13.
  pose proof (get_normal_dot_range _ _ _ _ H01 H13) as Hrange.
  pose proof (acos_third _ Hrange) as Hacos.
  unfold conic_is_simple.
  destruct (Rleb (M_PI / 3) _) eqn:E.
  - split; [discriminate |]. intros Hlt.
    pose proof (proj1 Hacos eq_refl). lra.
  - split; [| reflexivity]. intros _.
    destruct (Rle_dec (graphene_vec2_dot
                         (get_normal (conic_p0 curve) (conic_p1 curve))
                         (get_normal (conic_p1 curve) (conic_p3 curve)))
                      (1 / 2)) as [Hle | Hgt]; [| lra].
    apply (proj2 Hacos) in Hle. discriminate.
Qed.

Lemma conic_is_simple_dot_witness :
  let k := mk_conic (GRAPHENE_POINT_INIT 0 0) (GRAPHENE_POINT_INIT 10 0) 1
                    (GRAPHENE_POINT_INIT 10 10) in
  conic_p0 k <> conic_p1 k /\ conic_p1 k <> conic_p3 k
  /\ (conic_is_simple k = true
      <-> 1 / 2 < graphene_vec2_dot (get_normal (conic_p0 k) (conic_p1 k))
                                    (get_normal (conic_p1 k) (conic_p3 k))).
Proof.
  cbv zeta. cbn [conic_p0 conic_p1 conic_p3].
  assert (H1 : GRAPHENE_POINT_INIT 0 0 <> GRAPHENE_POINT_INIT 10 0).
  { intros E. injection E as E. lra. }
  assert (H2 : GRAPHENE_POINT_INIT 10 0 <> GRAPHENE_POINT_INIT 10 10).
  { intros E. injection E as E. lra. }
  split; [exact H1 |]. split; [exact H2 |].
  exact (conic_is_simple_dot
           (mk_conic (GRAPHENE_POINT_INIT 0 0) (GRAPHENE_POINT_INIT 10 0) 1
                     (GRAPHENE_POINT_INIT 10 10)) H1 H2).
Defined.

(** X24: a cubic with distinct points at both ends is simple exactly when
    the turn angles at its two inner control points do not have opposite
    signs and the dot product of the unit normals of its first and last
    leg is greater than 1/2, that is, when these legs are less than 60
    degrees apart. *)
Theorem cubic_is_simple_dot (curve : GskCurveCurve) :
  cubic_p0 curve <> cubic_p1 curve ->
  cubic_p2 curve <> cubic_p3 curve ->
  let a1 := angle_between (get_tangent (cubic_p0 curve) (cubic_p1 curve))
                          (get_tangent (cubic_p1 curve) (cubic_p2 curve)) in
  let a2 := angle_between (get_tangent (cubic_p1 curve) (cubic_p2 curve))
                          (get_tangent (cubic_p2 curve) (cubic_p3 curve)) in
  cubic_is_simple curve = true
  <-> ~ ((a1 < 0 /\ 0 < a2) \/ (0 < a1 /\ a2 < 0))
      /\ 1 / 2 < graphene_vec2_dot
                   (get_normal (cubic_p0 curve) (cubic_p1 curve))
                   (get_normal (cubic_p2 curve) (cubic_p3 curve)).
Proof.
  intros H01 H23 a1 a2.
  pose proof (get_normal_dot_range _ _ _ _ H01 H23) as Hrange.
  pose proof (acos_third _ Hrange) as Hacos.
  unfold cubic_is_simple. fold a1 a2.
  assert (Hsigns : (Rltb a1 0 && Rltb 0 a2) || (Rltb 0 a1 && Rltb a2 0) = true
                   <-> (a1 < 0 /\ 0 < a2) \/ (0 < a1 /\ a2 < 0)).
  { unfold Rltb.
    destruct (Rlt_dec a1 0), (Rlt_dec 0 a2), (Rlt_dec 0 a1), (Rlt_dec a2 0);
      cbn; split; intros H; try discriminate; try reflexivity; try lra;
      auto. }
  destruct ((Rltb a1 0 && Rltb 0 a2) || (Rltb 0 a1 && Rltb a2 0)) eqn:Es.
  - split; [discriminate |]. intros [Hno _]. exfalso. apply Hno.
    apply Hsigns. reflexivity.
  - assert (Hno : ~ ((a1 < 0 /\ 0 < a2) \/ (0 < a1 /\ a2 < 0))).
    { intros H. apply Hsigns in H. discriminate. }
    destruct (Rleb (M_PI / 3) _) eqn:E.
    + split; [discriminate |]. intros [_ Hlt].
      pose proof (proj1 Hacos eq_refl). lra.
    + split; [| reflexivity]. intros _. split; [exact Hno |].
      destruct (Rle_dec (graphene_vec2_dot
                           (get_normal (cubic_p0 curve) (cubic_p1 curve))
                           (get_normal (cubic_p2 curve) (cubic_p3 curve)))
                        (1 / 2)) as [Hle | Hgt]; [| lra].
      apply (proj2 Hacos) in Hle. discriminate.
Qed.

Lemma cubic_is_simple_dot_witness :
  cubic_p0 turning_cubic <> cubic_p1 turning_cubic
  /\ cubic_p2 turning_cubic <> cubic_p3 turning_cubic
  /\ (cubic_is_simple turning_cubic = true ->
      1 / 2 < graphene_vec2_dot
                (get_normal (cubic_p0 turning_cubic) (cubic_p1 turning_cubic))
                (get_normal (cubic_p2 turning_cubic) (cubic_p3 turning_cubic))).
Proof.
  assert (H1 : cubic_p0 turning_cubic <> cubic_p1 turning_cubic).
  { cbn. intros E. injection E as E. lra. }
  assert (H2 : cubic_p2 turning_cubic <> cubic_p3 turning_cubic).
  { cbn. intros E. injection E as E. lra. }
  split; [exact H1 |]. split; [exact H2 |].
  intros Hs.
  exact (proj2 (proj1 (cubic_is_simple_dot turning_cubic H1 H2) Hs)).
Defined.
